(** * Near-duplicate image grouping: a shallow embedding

    The Python sources [deduplication.py] and [hashes.py] are embedded as
    Rocq functions.  [HashedImage] objects live in a store ([list
    HashedImage], an object's identity being its index), since the program
    mutates their [duplicates] lists through aliases held by the hash table,
    the work queue and the result list.  Floating-point values are IEEE
    binary64 numbers ([SpecFloat]), as numpy computes them.

    Programs run in a small monad that raises exceptions and records
    observation points (the fingerprints handed to [hamming], the store after
    each write); dropping the record leaves the value the Python call returns
    or the exception it raises.

    Two facts of the run-time environment enter the embedding.  The
    interpreter bounds the depth of nested calls, and the recursive
    [_flatten] is the one place of the program whose depth grows with the
    input: [deduplicate] takes the number [recursion_limit] of nested
    activations of [_flatten] the interpreter allows, and raises
    [RecursionError] beyond it.  A numpy array has an element type, and an
    array that is not of integer type cannot index a fingerprint: the band
    array [_projections] carries its [dtype]. *)

From Stdlib Require Import ZArith List Bool String Ascii Lia Permutation.
From Stdlib Require Import SpecFloat DecimalString.
From stdpp Require Import gmap strings list.

Local Open Scope nat_scope.

(** ** Exceptions and results *)

Inductive exn : Type :=
| DimensionMismatch   (* scipy's hamming: "The 1d arrays must have equal lengths." *)
| IndexError          (* an index outside an array *)
| ValueError          (* numpy's choice on an empty population *)
| RecursionError      (* the interpreter's bound on nested calls is exceeded *)
| OutOfFuel.          (* a loop of the model exhausted its step budget *)

Inductive result (A : Type) : Type :=
| Ok (a : A)
| Raise (e : exn).
Arguments Ok {A} a.
Arguments Raise {A} e.

#[global] Instance result_ret : MRet result := fun A a => Ok a.
#[global] Instance result_bind : MBind result := fun A B f m =>
  match m with
  | Ok a => f a
  | Raise e => Raise e
  end.

(** ** IEEE binary64 arithmetic *)

Module Float64.
Definition prec : Z := 53.
Definition emax : Z := 1024.
Definition t : Type := spec_float.
Definition of_nat (n : nat) : t := binary_normalize prec emax (Z.of_nat n) 0 false.
Definition div (x y : t) : t := SFdiv prec emax x y.
Definition mul (x y : t) : t := SFmul prec emax x y.
Definition ltb (x y : t) : bool := SFltb x y.
End Float64.

(** ** Fingerprints and the Hamming metric *)

(** A fingerprint is the numpy array of integers a hash function returns. *)
Abbreviation fingerprint := (list nat) (only parsing).

(** Number of positions at which two arrays differ: [(u != v).sum()]. *)
Fixpoint count_diff (u v : fingerprint) : nat :=
  match u, v with
  | a :: u', b :: v' => (if a =? b then 0 else 1) + count_diff u' v'
  | _, _ => 0
  end.

(** [scipy.spatial.distance.hamming]: the mean of [u != v]; arrays of unequal
    length are rejected. *)
Definition hamming (u v : fingerprint) : result Float64.t :=
  if length u =? length v
  then Ok (Float64.div (Float64.of_nat (count_diff u v)) (Float64.of_nat (length u)))
  else Raise DimensionMismatch.

(** The threshold test [distance < 10]. *)
Definition below_threshold (distance : Float64.t) : bool :=
  Float64.ltb distance (Float64.of_nat 10).

(** [str] of a non-negative integer and [hash[g]] followed by
    ["".join(... .astype("str"))]. *)
Definition str (n : nat) : string := NilZero.string_of_uint (Nat.to_uint n).

Fixpoint take_positions (h : fingerprint) (g : list nat) : result (list nat) :=
  match g with
  | [] => Ok []
  | p :: g' =>
      match h !! p with
      | Some b => bs ← take_positions h g'; Ok (b :: bs)
      | None => Raise IndexError
      end
  end.

Definition band_key (h : fingerprint) (g : list nat) : result string :=
  bs ← take_positions h g; Ok (String.concat "" (map str bs)).

(** ** The difference hash ([hashes.py]) *)

Section DHash.
(** OpenCV is outside the repository: [cvtColor] and [resize] are taken as
    given, [resize] returning [snd dsize] rows of [fst dsize] samples. *)
Context {RGB : Type}.
Variable cvtColor_RGB2GRAY : RGB -> list (list N).
Variable resize : list (list N) -> nat * nat -> list (list N).

(** [resized[:, 1:] > resized[:, :-1]], row by row. *)
Definition row_diff (row : list N) : list bool :=
  zip_with (fun right left => (left <? right)%N) (tail row) (removelast row).

Definition dhash (image : RGB) (hash_size : nat) : fingerprint :=
  let gray := cvtColor_RGB2GRAY image in
  let resized := resize gray (hash_size + 1, hash_size) in
  let diff := map row_diff resized in
  map (fun i : bool => if i then 1 else 0) (concat diff).
End DHash.

(** ** The clusterers ([deduplication.py]) *)

Section Deduplication.
Context {Image : Type}.

(** [HashedImage = namedtuple("HashedImage", ["data", "hash", "duplicates"])].
    [duplicates] holds references (store indices) to other records. *)
Record HashedImage : Type := mkHashedImage {
  data : Image;
  hash : fingerprint;
  duplicates : list nat
}.

(** Observation points of a run. *)
Inductive event : Type :=
| Compared (u v : fingerprint)        (* [hamming(u, v)] is called *)
| Stored (heap : list HashedImage).   (* the store after a write to it *)

Definition traced (A : Type) : Type := (list event * result A)%type.

#[global] Instance traced_ret : MRet traced := fun A a => ([], Ok a).
#[global] Instance traced_bind : MBind traced := fun A B f m =>
  match m with
  | (tr, Ok a) => let (tr', r) := f a in (tr ++ tr', r)
  | (tr, Raise e) => (tr, Raise e)
  end.

Definition emit (e : event) : traced unit := ([e], Ok tt).
Definition lift {A : Type} (r : result A) : traced A := ([], r).
Definition raise {A : Type} (e : exn) : traced A := ([], Raise e).

(** Reading a record through a reference. *)
Definition deref (heap : list HashedImage) (a : nat) : result HashedImage :=
  match heap !! a with
  | Some r => Ok r
  | None => Raise IndexError
  end.

(** [parent.duplicates.append(child)] *)
Definition append_duplicate (heap : list HashedImage) (parent child : nat)
  : list HashedImage :=
  alter (fun r => mkHashedImage (data r) (hash r) (duplicates r ++ [child])) parent heap.

(** [Deduplicator] and its [_flatten].  Every activation takes one of the
    [fuel] nested calls the interpreter still allows; with none left the
    call raises [RecursionError]. *)
Record Deduplicator : Type := mkDeduplicator {
  _hash_func : Image -> fingerprint
}.

Fixpoint _flatten (fuel : nat) (heap : list HashedImage) (img : nat)
  : result (list Image) :=
  match fuel with
  | 0 => Raise RecursionError
  | S fuel' =>
      r ← deref heap img;
      children ← mapM (_flatten fuel' heap) (duplicates r);
      Ok (data r :: concat children)
  end.

(** [[self._flatten(img) for img in result]], each call starting with the
    [recursion_limit] activations the interpreter allows at this point. *)
Definition flatten_all (recursion_limit : nat) (heap : list HashedImage)
    (roots : list nat) : result (list (list Image)) :=
  mapM (_flatten recursion_limit heap) roots.

(** *** LSHDeduplicator *)

(** The element type of a numpy array: [np.array] makes an array of Python
    integers [int64] and an array without elements [float64]. *)
Inductive dtype : Type := int64 | float64.

(** [_projections] is a two-dimensional numpy array: its rows, the bands,
    and its element type. *)
Record LSHDeduplicator : Type := mkLSHDeduplicator {
  lsh_base : Deduplicator;
  _k : nat;
  _l : nat;
  _d : nat;
  _projections : list (list nat);
  _projections_dtype : dtype
}.

(** ["".join(hashed_img.hash[g].astype("str"))]: numpy refuses an index
    array that is not of integer type, whatever its length. *)
Definition LSH_band_key (self : LSHDeduplicator) (h : fingerprint) (g : list nat)
  : result string :=
  match _projections_dtype self with
  | int64 => band_key h g
  | float64 => Raise IndexError
  end.

(** [hamming(a.hash, b.hash) * self._d] *)
Definition LSH_distance (self : LSHDeduplicator) (u v : fingerprint)
  : traced Float64.t :=
  _ ← emit (Compared u v);
  h ← lift (hamming u v);
  mret (Float64.mul h (Float64.of_nat (_d self))).

(** [for potential_duplicate in l: ...] *)
Fixpoint LSH_scan_bucket (self : LSHDeduplicator) (hashed_img : nat)
    (l : list nat) (unique : bool) (heap : list HashedImage)
  : traced (bool * list HashedImage) :=
  match l with
  | [] => mret (unique, heap)
  | potential_duplicate :: l' =>
      if negb unique then mret (unique, heap)
      else if hashed_img =? potential_duplicate
      then LSH_scan_bucket self hashed_img l' unique heap
      else
        a ← lift (deref heap hashed_img);
        b ← lift (deref heap potential_duplicate);
        distance ← LSH_distance self (hash a) (hash b);
        if below_threshold distance then
          let heap' := append_duplicate heap potential_duplicate hashed_img in
          _ ← emit (Stored heap');
          LSH_scan_bucket self hashed_img l' false heap'
        else LSH_scan_bucket self hashed_img l' unique heap
  end.

(** [for g in self._projections: ...]; one dictionary serves every band. *)
Fixpoint LSH_bands (self : LSHDeduplicator) (hashed_img : nat)
    (gs : list (list nat)) (unique : bool)
    (hash_table : gmap string (list nat)) (heap : list HashedImage)
  : traced (bool * gmap string (list nat) * list HashedImage) :=
  match gs with
  | [] => mret (unique, hash_table, heap)
  | g :: gs' =>
      a ← lift (deref heap hashed_img);
      g_x ← lift (LSH_band_key self (hash a) g);
      let l := default [] (hash_table !! g_x) in
      '(unique', heap') ← LSH_scan_bucket self hashed_img l unique heap;
      LSH_bands self hashed_img gs' unique'
                (<[g_x := l ++ [hashed_img]]> hash_table) heap'
  end.

Record LSH_state : Type := mkLSH_state {
  lsh_hash_table : gmap string (list nat);
  lsh_heap : list HashedImage;
  lsh_result : list nat
}.

Definition LSH_initial : LSH_state := mkLSH_state ∅ [] [].

(** [for img in imgs: ...] *)
Fixpoint LSH_loop (self : LSHDeduplicator) (imgs : list Image) (st : LSH_state)
  : traced LSH_state :=
  match imgs with
  | [] => mret st
  | img :: imgs' =>
      let hashed_img := length (lsh_heap st) in
      let heap1 :=
        lsh_heap st ++ [mkHashedImage img (_hash_func (lsh_base self) img) []] in
      _ ← emit (Stored heap1);
      '(unique, hash_table', heap') ←
        LSH_bands self hashed_img (_projections self) true (lsh_hash_table st) heap1;
      LSH_loop self imgs'
        (mkLSH_state hash_table' heap'
           (if (unique : bool) then lsh_result st ++ [hashed_img]
            else lsh_result st))
  end.

Definition LSH_deduplicate (recursion_limit : nat) (self : LSHDeduplicator)
    (imgs : list Image) : traced (list (list Image)) :=
  st ← LSH_loop self imgs LSH_initial;
  lift (flatten_all recursion_limit (lsh_heap st) (lsh_result st)).

(** *** BruteForceDeduplicator *)

(** [hamming(a.hash, b.hash) * 64] *)
Definition BF_distance (u v : fingerprint) : traced Float64.t :=
  _ ← emit (Compared u v);
  h ← lift (hamming u v);
  mret (Float64.mul h (Float64.of_nat 64)).

(** [for i in range(len(hashed_images)): ...] *)
Fixpoint BF_scan (img : nat) (range : list nat) (heap : list HashedImage)
    (matched : list bool) (queue : list nat)
  : traced (list HashedImage * list bool * list nat) :=
  match range with
  | [] => mret (heap, matched, queue)
  | i :: range' =>
      if (img =? i) || nth i matched false
      then BF_scan img range' heap matched queue
      else
        a ← lift (deref heap img);
        b ← lift (deref heap i);
        distance ← BF_distance (hash a) (hash b);
        if below_threshold distance then
          let heap' := append_duplicate heap img i in
          _ ← emit (Stored heap');
          BF_scan img range' heap' (<[i := true]> matched) (queue ++ [i])
        else BF_scan img range' heap matched queue
  end.

(** [while queue: img = queue.pop(0); ...] *)
Fixpoint BF_drain (fuel : nat) (heap : list HashedImage)
    (matched : list bool) (queue : list nat)
  : traced (list HashedImage * list bool * list nat) :=
  match queue with
  | [] => mret (heap, matched, queue)
  | img :: queue' =>
      match fuel with
      | 0 => raise OutOfFuel
      | S fuel' =>
          '(heap', matched', queue'') ←
            BF_scan img (seq 0 (length heap)) heap matched queue';
          BF_drain fuel' heap' matched' queue''
      end
  end.

(** [np.where(matched == False)[0]] *)
Definition unmatched_indices (matched : list bool) : list nat :=
  filter (fun i => nth i matched false = false) (seq 0 (length matched)).

(** [while not matched.all(): ...] *)
Fixpoint BF_loop (fuel : nat) (heap : list HashedImage) (matched : list bool)
    (queue : list nat) (result : list nat)
  : traced (list HashedImage * list nat) :=
  if forallb (fun b : bool => b) matched then mret (heap, result)
  else
    match fuel with
    | 0 => raise OutOfFuel
    | S fuel' =>
        match unmatched_indices matched with
        | [] => raise IndexError
        | starting_point :: _ =>
            '(heap', matched', queue') ←
              BF_drain (length heap) heap (<[starting_point := true]> matched)
                       (queue ++ [starting_point]);
            BF_loop fuel' heap' matched' queue' (result ++ [starting_point])
        end
    end.

Definition BF_deduplicate (recursion_limit : nat) (self : Deduplicator)
    (imgs : list Image) : traced (list (list Image)) :=
  let hashed_images := map (fun img => mkHashedImage img (_hash_func self img) []) imgs in
  let matched := replicate (length imgs) false in
  _ ← emit (Stored hashed_images);
  '(heap, result) ← BF_loop (length imgs) hashed_images matched [] [];
  lift (flatten_all recursion_limit heap result).

(** *** Construction of an LSHDeduplicator

    [np.random] is a stateful generator; it is threaded explicitly.
    [randint high st] stands for one draw of [randint(0, high)]. *)
Section Construction.
Context {RandomState : Type}.
Variable randint : nat -> RandomState -> nat * RandomState.

(** [randint(0, high, size=size)] *)
Fixpoint randint_array (high size : nat) (st : RandomState)
  : list nat * RandomState :=
  match size with
  | 0 => ([], st)
  | S size' =>
      let (x, st1) := randint high st in
      let (xs, st2) := randint_array high size' st1 in
      (x :: xs, st2)
  end.

(** [np.random.choice(a, size)]: [replace=True] is numpy's default, so the
    result is [a[randint(0, len(a), size)]]. *)
Definition choice (a : list nat) (size : nat) (st : RandomState)
  : result (list nat * RandomState) :=
  if (length a =? 0) && negb (size =? 0) then Raise ValueError
  else
    let (idx, st') := randint_array (length a) size st in
    xs ← take_positions a idx; Ok (xs, st').

(** [[np.random.choice(list(range(d)), k) for _ in range(l)]] *)
Fixpoint random_projections (d k l : nat) (st : RandomState)
  : result (list (list nat) * RandomState) :=
  match l with
  | 0 => Ok ([], st)
  | S l' =>
      '(g, st1) ← choice (seq 0 d) k st;
      '(gs, st2) ← random_projections d k l' st1;
      Ok (g :: gs, st2)
  end.

(** The element type of [np.array([... for _ in range(l)])]: without rows
    the array is [float64]; a row is [a[idx]] for [a = np.array(list(range(d)))],
    which is [int64] unless [d = 0], where [a] is the [float64] array
    without elements. *)
Definition projections_dtype (l d : nat) : dtype :=
  if (l =? 0) || (d =? 0) then float64 else int64.

(** [LSHDeduplicator.__init__] *)
Definition LSH_init (hash_func : Image -> fingerprint) (k l d : nat)
    (st : RandomState) : result (LSHDeduplicator * RandomState) :=
  '(projections, st') ← random_projections d k l st;
  Ok (mkLSHDeduplicator (mkDeduplicator hash_func) k l d projections
        (projections_dtype l d), st').
End Construction.

End Deduplication.

Arguments HashedImage : clear implicits.
Arguments event : clear implicits.
Arguments Deduplicator : clear implicits.
Arguments LSHDeduplicator : clear implicits.
Arguments LSH_state : clear implicits.

(** A linear congruential generator, used to run the constructor. *)
Definition lcg_randint (high : nat) (st : N) : nat * N :=
  (N.to_nat (st / 65536 mod N.of_nat high)%N,
   ((1103515245 * st + 12345) mod 2147483648)%N).

(** The defaults of the Python signatures. *)
Definition default_k : nat := 32.
Definition default_l : nat := 50.
Definition default_d : nat := 64.
Definition default_hash_size : nat := 8.

(** * Specification vocabulary *)

(** The exact Hamming relation of the specification: fewer than ten positions
    differ. *)
Definition within_threshold (u v : fingerprint) : Prop := count_diff u v < 10.

(** Dimensions at which the scaled floating-point distance
    [(c / d) * d < 10] decides [c < 10] for every count [c <= d]. *)
Definition threshold_exact (d : nat) : bool :=
  forallb (fun c =>
             Bool.eqb (below_threshold
                         (Float64.mul (Float64.div (Float64.of_nat c) (Float64.of_nat d))
                                      (Float64.of_nat d)))
                      (c <? 10))
          (seq 0 (S d)).

(** Sample inputs *)

Definition sample_resize (gray : list (list N)) (dsize : nat * nat) : list (list N) :=
  replicate (snd dsize) (map (fun j => nth j (nth 0 gray []) 0%N) (seq 0 (fst dsize))).

Definition sample_gray : list (list N) := [[3; 1; 4; 1; 5; 9; 2; 6; 5]%N].

Definition zeros_then (ones zeros : nat) : fingerprint :=
  replicate ones 1 ++ replicate zeros 0.

Definition no_hash : unit -> fingerprint := fun _ => [].

Definition lsh_of_dim (d : nat) : LSHDeduplicator unit :=
  mkLSHDeduplicator (mkDeduplicator no_hash) 1 1 d [[0]] int64.

(** What the two threshold tests compute on fingerprints of equal length. *)
Definition scaled_distance (u v : fingerprint) (scale : nat) : Float64.t :=
  Float64.mul (Float64.div (Float64.of_nat (count_diff u v)) (Float64.of_nat (length u)))
              (Float64.of_nat scale).

Definition LSH_near {Image : Type} (self : LSHDeduplicator Image) (u v : fingerprint) : bool :=
  below_threshold (scaled_distance u v (_d self)).

Definition BF_near (u v : fingerprint) : bool :=
  below_threshold (scaled_distance u v 64).

(** A band without repeated positions. *)
Definition distinct_positions (g : list nat) : Prop := NoDup g.

Definition lsh_49 : LSHDeduplicator unit := lsh_of_dim 49.
Definition bits_128_a : fingerprint := replicate 128 0.
Definition bits_128_b : fingerprint := zeros_then 12 116.

(** ** Duplicate forests *)

Section Forest.
Context {Image : Type}.
Implicit Types heap : list (HashedImage Image).

(** The references [_flatten] visits, in its order. *)
Fixpoint members (fuel : nat) heap (img : nat) : result (list nat) :=
  match fuel with
  | 0 => Raise OutOfFuel
  | S fuel' =>
      r ← deref heap img;
      children ← mapM (members fuel' heap) (duplicates r);
      Ok (img :: concat children)
  end.

(** [c] is listed in the [duplicates] of [p]. *)
Definition edge heap (p c : nat) : Prop :=
  exists r, heap !! p = Some r /\ c ∈ duplicates r.

(** Every record is appended to at most one list, at most once. *)
Definition single_parent heap : Prop := NoDup (concat (map duplicates heap)).

Definition acyclic heap : Prop := forall a, ~ tc (edge heap) a a.

Definition is_forest heap : Prop := single_parent heap /\ acyclic heap.

(** Stores built by the three writes the clusterers perform: creating a
    record with no duplicates, making a fresh record a root, appending a
    fresh record to the duplicates of one already placed.  The second
    index lists the groups, each in order of arrival, root first. *)
Inductive grows (R : nat -> nat -> Prop)
  : list (HashedImage Image) -> list (list nat) -> Prop :=
| grows_nil : grows R [] []
| grows_alloc heap G x :
    grows R heap G -> duplicates x = [] -> grows R (heap ++ [x]) G
| grows_root heap G c :
    grows R heap G -> c < length heap -> c ∉ concat G ->
    grows R heap (G ++ [[c]])
| grows_attach heap G1 g G2 p c :
    grows R heap (G1 ++ g :: G2) -> p ∈ g -> c < length heap ->
    c ∉ concat (G1 ++ g :: G2) -> R p c ->
    grows R (append_duplicate heap p c) (G1 ++ (g ++ [c]) :: G2).

(** What an append to [p]'s duplicates adds to a traversal. *)
Definition echo (p c : nat) (L : list nat) : list nat :=
  flat_map (fun x => if x =? p then [c] else []) L.

(** A chain of [R]-related records inside the group [g]. *)
Definition chain (R : nat -> nat -> Prop) (g : list nat) : nat -> nat -> Prop :=
  rtc (fun x y => R x y /\ x ∈ g /\ y ∈ g).

(** Satisfaction of a run: every event is [Ev], a returned value is [Q], a
    raised exception is [Ex]. *)
Definition sat {A : Type} (m : traced (Image := Image) A)
    (Ev : event Image -> Prop) (Q : A -> Prop) (Ex : exn -> Prop) : Prop :=
  Forall Ev (fst m)
  /\ match snd m with
     | Ok a => Q a
     | Raise e => Ex e
     end.
End Forest.

(** ** Vocabulary for the approximate clusterer *)

Section LSHVocabulary.
Context {Image : Type}.
Variable self : LSHDeduplicator Image.

(** The fingerprints of the input images. *)
Definition LSH_hashes (imgs : list Image) : list fingerprint :=
  map (_hash_func (lsh_base self)) imgs.

(** The key of a fingerprint under a band (the empty string where the code
    raises instead). *)
Definition key_of (u : fingerprint) (g : list nat) : string :=
  match band_key u g with
  | Ok s => s
  | Raise _ => EmptyString
  end.

(** The insertions a run performs, in order: image [i] is inserted under
    each of its band keys. *)
Fixpoint insertions_from (i : nat) (hs : list fingerprint) : list (string * nat) :=
  match hs with
  | [] => []
  | u :: hs' =>
      map (fun g => (key_of u g, i)) (_projections self) ++ insertions_from (S i) hs'
  end.

Definition insertions (hs : list fingerprint) : list (string * nat) :=
  insertions_from 0 hs.

(** The images inserted under an equal key string, whatever the band. *)
Definition bucket_of (ins : list (string * nat)) (s : string) : list nat :=
  map snd (filter (fun kv => fst kv = s) ins).

Definition table_holds (tbl : gmap string (list nat)) (ins : list (string * nat))
  : Prop :=
  forall s, default [] (tbl !! s) = bucket_of ins s.

(** Inputs on which no comparison and no band can fail: fingerprints of one
    length, band positions inside them, and bands, if there are any, of
    integer type. *)
Definition LSH_inputs_ok (hs : list fingerprint) : Prop :=
  (forall u v, u ∈ hs -> v ∈ hs -> length u = length v)
  /\ (forall u g p, u ∈ hs -> g ∈ _projections self -> p ∈ g -> p < length u)
  /\ (forall g, g ∈ _projections self -> _projections_dtype self = int64).

(** The threshold test the code applies to child [c] against parent [p]. *)
Definition LSH_linked (hs : list fingerprint) (p c : nat) : Prop :=
  exists u v, hs !! c = Some u /\ hs !! p = Some v /\ LSH_near self u v = true.

(** The store holds one record per processed image. *)
Definition heap_of_inputs (hash_func : Image -> fingerprint) (pre : list Image)
    (heap : list (HashedImage Image)) : Prop :=
  length heap = length pre
  /\ forall i r, heap !! i = Some r ->
                 pre !! i = Some (data r) /\ hash r = hash_func (data r).
End LSHVocabulary.

(** Every store a run passes through was built by forest-growing writes. *)
Definition stored_grows {Image : Type} (R : nat -> nat -> Prop) (e : event Image)
  : Prop :=
  match e with
  | Stored heap => exists G, grows R heap G
  | Compared _ _ => True
  end.

(** The exact relation on input positions. *)
Definition near_positions (hs : list fingerprint) (i j : nat) : Prop :=
  exists u v, hs !! i = Some u /\ hs !! j = Some v /\ within_threshold u v.

(** [groups] lists the input images at the positions [ids], and the position
    groups split [0 .. n-1]: every input position lies in exactly one group. *)
Definition partition_of {Image : Type} (imgs : list Image)
    (ids : list (list nat)) (groups : list (list Image)) : Prop :=
  Forall2 (Forall2 (fun i img => imgs !! i = Some img)) ids groups
  /\ concat ids ≡ₚ seq 0 (length imgs)
  /\ Forall (fun group => group <> []) groups
  /\ length (concat groups) = length imgs
  /\ concat groups ≡ₚ imgs.

(** ** Vocabulary for the exact clusterer *)

Definition BF_hashes {Image : Type} (self : Deduplicator Image) (imgs : list Image)
  : list fingerprint :=
  map (_hash_func self) imgs.

(** The threshold test the code applies to [c] while scanning from [p]. *)
Definition BF_linked (hs : list fingerprint) (p c : nat) : Prop :=
  exists u v, hs !! p = Some u /\ hs !! c = Some v /\ BF_near u v = true.

(** Fingerprints of one length: no comparison can fail. *)
Definition uniform_length (hs : list fingerprint) : Prop :=
  forall u v, u ∈ hs -> v ∈ hs -> length u = length v.

(** [matched] marks exactly the records placed in a group. *)
Definition matched_marks (n : nat) (matched : list bool) (G : list (list nat)) : Prop :=
  length matched = n
  /\ forall i, i < n -> (nth i matched false = true <-> i ∈ concat G).

(** Every leading run of groups is closed under the links that leave it. *)
Definition prefix_closed (linked : nat -> nat -> Prop) (n : nat)
    (G : list (list nat)) : Prop :=
  forall G1 G2 i j, G = G1 ++ G2 -> i ∈ concat G1 -> j < n -> linked i j ->
                    j ∈ concat G1.

(** Two positions share a group. *)
Definition same_group (ids : list (list nat)) (i j : nat) : Prop :=
  exists L, L ∈ ids /\ i ∈ L /\ j ∈ L.

(** ** Checks and sample runs *)



Definition uniform_lengthb (hs : list fingerprint) : bool :=
  forallb (fun u => forallb (fun v => length u =? length v) hs) hs.

(** No comparison of the run met fingerprints of unequal length. *)
Definition equal_lengths {Image : Type} (e : event Image) : Prop :=
  match e with
  | Compared u v => length u = length v
  | Stored _ => True
  end.

(** A run either compared only fingerprints of equal length or was aborted by
    [DimensionMismatch]. *)
Definition aborts_on_mismatch {Image A : Type} (m : traced (Image := Image) A) : Prop :=
  Forall equal_lengths (fst m) \/ snd m = Raise DimensionMismatch.

(** Every store recorded by a run is a forest. *)
Definition stored_forest {Image : Type} (e : event Image) : Prop :=
  match e with
  | Stored heap => is_forest heap
  | Compared _ _ => True
  end.

(** What C4 asks of the table: whatever band is looked up under a key, the
    bucket holds only images whose key under that band is this key. *)
Definition band_private {Image : Type} (self : LSHDeduplicator Image)
    (hs : list fingerprint) (tbl : gmap string (list nat)) : Prop :=
  forall g s i, g ∈ _projections self -> i ∈ default [] (tbl !! s) ->
                exists u, hs !! i = Some u /\ key_of u g = s.

(** 64-bit fingerprints with ones at the given positions. *)
Definition ones_at (ps : list nat) : fingerprint :=
  map (fun i => if bool_decide (i ∈ ps) then 1 else 0) (seq 0 64).

(** Three images: 0 and 1 differ in five positions, 1 and 2 in five others. *)
Definition chain_hash (img : nat) : fingerprint :=
  match img with
  | 0 => ones_at []
  | 1 => ones_at [2; 3; 4; 5; 9]
  | _ => ones_at [2; 3; 4; 5; 9; 10; 12; 13; 14; 16]
  end.

(** [LSHDeduplicator(hash_func)] with the default parameters, the generator
    seeded with 1. *)
Definition lsh_default {Image : Type} (hash_func : Image -> fingerprint)
  : LSHDeduplicator Image :=
  match LSH_init lcg_randint hash_func default_k default_l default_d 1%N with
  | Ok (self, _) => self
  | Raise _ => mkLSHDeduplicator (mkDeduplicator hash_func) 0 0 0 [] float64
  end.

(** Two images whose keys differ under either band, while the band-0 key of
    the second is the band-1 key of the first. *)
Definition crossed_hash (img : nat) : fingerprint :=
  match img with
  | 0 => 0 :: 1 :: replicate 62 0
  | _ => 1 :: 0 :: replicate 62 0
  end.

Definition lsh_two_bands : LSHDeduplicator nat :=
  mkLSHDeduplicator (mkDeduplicator crossed_hash) 1 2 64 [[0]; [1]] int64.

(** Two images hashed to different lengths, equal at position 0. *)
Definition ragged_hash (img : nat) : fingerprint :=
  match img with
  | 0 => [0; 1]
  | _ => [0; 0; 1]
  end.

Definition lsh_ragged : LSHDeduplicator nat :=
  mkLSHDeduplicator (mkDeduplicator ragged_hash) 1 1 2 [[0]] int64.



(** Fingerprints of the configured dimension, band positions inside it. *)
Definition LSH_dims_okb {Image : Type} (self : LSHDeduplicator Image)
    (hs : list fingerprint) : bool :=
  forallb (fun u => length u =? _d self) hs
  && forallb (forallb (fun p => p <? _d self)) (_projections self).

(** 64-bit fingerprints. *)
Definition all_64b (hs : list fingerprint) : bool :=
  forallb (fun u => length u =? 64) hs.

(** A recursion limit for the sample runs: room for a hundred nested
    activations of [_flatten]. *)
Definition sample_limit : nat := 100.

(** How the outcome of [_flatten] under a recursion limit relates to its
    outcome under a larger one: a returned list and any exception but
    [RecursionError] stay. *)
Definition settled {A : Type} (x y : result A) : Prop :=
  match x with
  | Ok a => y = Ok a
  | Raise RecursionError => True
  | Raise e => y = Raise e
  end.

(** The duplicates lists of each store a run recorded. *)
Definition recorded_duplicates {Image : Type} (tr : list (event Image))
  : list (list (list nat)) :=
  omap (fun e => match e with
                 | Stored heap => Some (map duplicates heap)
                 | Compared _ _ => None
                 end) tr.

(** ** Further vocabulary *)

(** Two positions lie in one group whenever they lie in one group of [ids]. *)
Definition refines (ids ids' : list (list nat)) : Prop :=
  forall i j, same_group ids i j -> same_group ids' i j.

(** Every group begins with its smallest position. *)
Definition earliest_first (ids : list (list nat)) : Prop :=
  Forall (fun L => forall x, x ∈ L -> hd 0 L <= x) ids.

(** A list of positions in strictly increasing order. *)
Definition increasing (l : list nat) : Prop :=
  forall i j a b, i < j -> l !! i = Some a -> l !! j = Some b -> a < b.


(** Four images: 0, 1 and 3 within the threshold of each other, 2 far from all. *)
Definition mixed_hash (img : nat) : fingerprint :=
  match img with
  | 0 => ones_at []
  | 1 => ones_at [2; 3; 4]
  | 2 => ones_at [2; 3; 4; 5; 9; 10; 12; 13; 14; 16; 17; 18; 19; 21; 23; 24]
  | _ => ones_at [2; 3]
  end.

(** A fingerprint of 53 positions, not a dimension of the default dhash. *)
Definition hash_53 (img : nat) : fingerprint :=
  match img with
  | 0 => replicate 53 0
  | 1 => replicate 3 1 ++ replicate 50 0
  | _ => replicate 30 1 ++ replicate 23 0
  end.


(** A brighter copy of the sample image: every sample raised by 100. *)
Definition brighter (x : N) : N := (x + 100)%N.

Definition sample_gray_brighter : list (list N) := map (map brighter) sample_gray.

(** Every reference held by the table is below [k]. *)
Definition table_below (tbl : gmap string (list nat)) (k : nat) : Prop :=
  forall s, Forall (fun i => i < k) (default [] (tbl !! s)).

(** Events and exceptions left unconstrained. *)
Definition any_event {Image : Type} (e : event Image) : Prop := True.
Definition any_exn (e : exn) : Prop := True.

(** The two ways a run of the approximate clusterer can fail. *)
Definition LSH_failure (e : exn) : Prop := e = IndexError \/ e = DimensionMismatch.

(** A clusterer configured for 64 positions over fingerprints of 53. *)
Definition lsh_band_60 : LSHDeduplicator nat :=
  mkLSHDeduplicator (mkDeduplicator hash_53) 2 1 64 [[3; 60]] int64.

(** ** What the first band decides

    When image [c] is processed, the bucket of its first band holds the
    earlier images inserted under the key of [c]; the first of them that
    passes the threshold test against [c] becomes the parent of [c]. *)

Section Adoption.
Context {Image : Type}.
Variable self : LSHDeduplicator Image.

Definition near_to (hs : list fingerprint) (u : fingerprint) (p : nat) : bool :=
  match hs !! p with
  | Some v => LSH_near self u v
  | None => false
  end.

Definition first_band_bucket (hs : list fingerprint) (c : nat) : list nat :=
  match _projections self, hs !! c with
  | g :: _, Some u => bucket_of (insertions self (take c hs)) (key_of u g)
  | _, _ => []
  end.

Definition first_near (hs : list fingerprint) (c : nat) : option nat :=
  match hs !! c with
  | Some u => find (near_to hs u) (first_band_bucket hs c)
  | None => None
  end.

(** Every image up to [k] with a first near neighbour is its child. *)
Definition adopted (hs : list fingerprint) (heap : list (HashedImage Image))
    (k : nat) : Prop :=
  forall c p, c < k -> first_near hs c = Some p -> edge heap p c.

(** The store keeps the fingerprint of each input position. *)
Definition hashes_stored (hs : list fingerprint) (heap : list (HashedImage Image))
  : Prop :=
  forall i r, heap !! i = Some r -> hs !! i = Some (hash r).

(** Some band of [u] and some band of [v] give one key string. *)
Definition collide (u v : fingerprint) : Prop :=
  exists g g', g ∈ _projections self /\ g' ∈ _projections self
               /\ key_of u g = key_of v g'.

(** Every comparison is of an input image with an earlier one that collides
    with it. *)
Definition compares_collisions (hs : list fingerprint) (e : event Image) : Prop :=
  match e with
  | Compared u v =>
      exists i j, j < i /\ hs !! i = Some u /\ hs !! j = Some v /\ collide u v
  | Stored _ => True
  end.

(** Every insertion is of an image up to [m] under one of its band keys. *)
Definition sound_insertions (hs : list fingerprint) (m : nat)
    (ins : list (string * nat)) : Prop :=
  Forall (fun kv => kv.2 <= m
                    /\ exists v g, hs !! kv.2 = Some v /\ g ∈ _projections self
                                   /\ key_of v g = kv.1) ins.
End Adoption.

(** Three images, the first and the last with one fingerprint. *)
Definition twin_hash (img : nat) : fingerprint :=
  match img with
  | 1 => ones_at [0; 1; 2; 3; 4; 5; 6; 7; 8; 9; 10; 11; 12; 13; 14; 15; 16; 17; 18; 19]
  | _ => ones_at [2; 3; 4]
  end.

(** Two groupings agree on the positions below [n]. *)
Definition stable (n : nat) (G G' : list (list nat)) : Prop :=
  forall i j, i < n -> j < n -> (same_group G i j <-> same_group G' i j).

(** ** Counting comparisons *)

(** The number of calls of [hamming] a run made. *)
Fixpoint comparisons {Image : Type} (tr : list (event Image)) : nat :=
  match tr with
  | [] => 0
  | Compared _ _ :: tr' => S (comparisons tr')
  | Stored _ :: tr' => comparisons tr'
  end.

(** A run whose number of comparisons and outcome satisfy [P]. *)
Definition counted {Image A : Type} (m : traced (Image := Image) A)
    (P : nat -> result A -> Prop) : Prop :=
  P (comparisons (fst m)) (snd m).

(** The positions of [range] not yet marked in [matched]. *)
Definition pending_in (range : list nat) (matched : list bool) : nat :=
  length (filter (fun i => nth i matched false = false) range).

(** * Properties *)

(** ** Lists *)

Lemma map_fmap {A B : Type} (f : A -> B) (l : list A) : map f l = f <$> l.
Proof. induction l as [|x l IH]; [reflexivity|]. cbn. rewrite IH. reflexivity. Qed.

Lemma lookup_map {A B : Type} (f : A -> B) (l : list A) (i : nat) :
  map f l !! i = f <$> l !! i.
Proof. rewrite map_fmap. apply list_lookup_fmap. Qed.

Lemma lookup_nth {A : Type} (l : list A) (i : nat) (d : A) :
  i < length l -> l !! i = Some (nth i l d).
Proof.
  revert i. induction l as [|x l IH]; intros i H; simpl in H; [lia|].
  destruct i as [|i]; [reflexivity|]. simpl. apply IH. lia.
Qed.

Lemma elem_of_concat {A : Type} (G : list (list A)) (x : A) :
  x ∈ concat G <-> exists g, g ∈ G /\ x ∈ g.
Proof.
  rewrite list_elem_of_In, in_concat. split.
  - intros (g & H1 & H2). exists g. rewrite !list_elem_of_In. auto.
  - intros (g & H1 & H2). exists g. rewrite <- !list_elem_of_In. auto.
Qed.

(** ** The difference hash *)

Lemma row_diff_cons (x y : N) (row : list N) :
  row_diff (x :: y :: row) = (x <? y)%N :: row_diff (y :: row).
Proof. reflexivity. Qed.

Lemma row_diff_length (row : list N) (s : nat) :
  length row = S s -> length (row_diff row) = s.
Proof.
  revert s. induction row as [|x [|y row] IH]; intros s H.
  - discriminate.
  - simpl in H. injection H as <-. reflexivity.
  - rewrite row_diff_cons. cbn [length] in *.
    destruct s as [|s]; [discriminate|]. f_equal. apply IH. lia.
Qed.

Lemma row_diff_lookup (row : list N) (j : nat) :
  S j < length row ->
  row_diff row !! j = Some (nth j row 0 <? nth (S j) row 0)%N.
Proof.
  revert j. induction row as [|x [|y row] IH]; intros j H.
  - simpl in H. lia.
  - simpl in H. lia.
  - rewrite row_diff_cons. destruct j as [|j]; [reflexivity|].
    cbn [length] in H. rewrite lookup_cons. cbn [nth].
    rewrite IH by (cbn [length]; lia). reflexivity.
Qed.

Lemma concat_lookup_uniform {A : Type} (rows : list (list A)) (s i j : nat) :
  Forall (fun row => length row = s) rows -> j < s ->
  concat rows !! (i * s + j) = rows !! i ≫= (fun row => row !! j).
Proof.
  intros Hrows Hj. revert i. induction Hrows as [|row rows Hrow _ IH]; intros i.
  - reflexivity.
  - cbn [concat]. destruct i as [|i].
    + simpl. apply lookup_app_l. lia.
    + replace (S i * s + j) with (length row + (i * s + j)) by (rewrite Hrow; nia).
      rewrite lookup_app_r by lia.
      replace (length row + (i * s + j) - length row) with (i * s + j) by lia.
      apply IH.
Qed.

Section DHashFacts.
Context {RGB : Type}.
Variable cvtColor_RGB2GRAY : RGB -> list (list N).
Variable resize : list (list N) -> nat * nat -> list (list N).

(** C9: for an image whose resized grid has [s] rows of [s + 1] samples,
    [dhash] returns [s * s] bits, each 0 or 1; the bit of row [i], column
    [j], at position [i * s + j], is 1 exactly when the sample at column
    [j + 1] of row [i] is strictly greater than the one at column [j]. *)
Theorem dhash_contract (image : RGB) (s : nat) :
  let resized := resize (cvtColor_RGB2GRAY image) (s + 1, s) in
  length resized = s ->
  Forall (fun row => length row = s + 1) resized ->
  length (dhash cvtColor_RGB2GRAY resize image s) = s * s
  /\ Forall (fun b => b = 0 \/ b = 1) (dhash cvtColor_RGB2GRAY resize image s)
  /\ forall i j, i < s -> j < s ->
       dhash cvtColor_RGB2GRAY resize image s !! (i * s + j)
       = Some (if (nth j (nth i resized []) 0 <? nth (S j) (nth i resized []) 0)%N
               then 1 else 0).
Proof.
  intros resized Hrows Hcols. unfold dhash. cbv zeta. fold resized.
  assert (Hdiff : Forall (fun row => length row = s) (map row_diff resized)).
  { rewrite Forall_map. eapply Forall_impl; [exact Hcols|].
    intros row Hrow. simpl in Hrow. apply row_diff_length. lia. }
  split; [|split].
  - rewrite length_map, length_concat.
    rewrite <- Hrows at 2. rewrite <- (length_map row_diff resized).
    clear -Hdiff. induction Hdiff as [|row rows Hrow _ IH]; [simpl; lia|].
    simpl. simpl in IH. rewrite IH, Hrow. lia.
  - rewrite Forall_map. apply Forall_forall. intros [|] _; auto.
  - intros i j Hi Hj. rewrite lookup_map.
    rewrite (concat_lookup_uniform _ s) by assumption.
    rewrite lookup_map.
    assert (Hi' : resized !! i = Some (nth i resized [])).
    { apply lookup_nth. lia. }
    rewrite Hi'. cbn [fmap option_fmap option_map mbind option_bind].
    rewrite row_diff_lookup.
    + reflexivity.
    + rewrite Forall_forall in Hcols.
      rewrite (Hcols (nth i resized [])); [lia|].
      apply list_elem_of_lookup. eauto.
Qed.
End DHashFacts.

Lemma dhash_contract_witness :
  length (dhash (fun g : list (list N) => g) sample_resize sample_gray 8) = 8 * 8
  /\ Forall (fun b => b = 0 \/ b = 1)
            (dhash (fun g : list (list N) => g) sample_resize sample_gray 8)
  /\ forall i j, i < 8 -> j < 8 ->
       dhash (fun g : list (list N) => g) sample_resize sample_gray 8 !! (i * 8 + j)
       = Some (if (nth j (nth i (sample_resize sample_gray (8 + 1, 8)%nat) []) 0
                   <? nth (S j) (nth i (sample_resize sample_gray (8 + 1, 8)%nat) []) 0)%N
               then 1 else 0).
Proof.
  apply (dhash_contract (fun g : list (list N) => g) sample_resize sample_gray 8).
  - reflexivity.
  - repeat constructor.
Defined.

(** ** The distance each clusterer compares with the threshold *)

Lemma count_diff_le (u v : fingerprint) : count_diff u v <= length u.
Proof.
  revert v. induction u as [|a u IH]; intros [|b v]; simpl; try lia.
  specialize (IH v). destruct (a =? b); lia.
Qed.

Lemma count_diff_sym (u v : fingerprint) : count_diff u v = count_diff v u.
Proof.
  revert v. induction u as [|a u IH]; intros [|b v]; simpl; try reflexivity.
  rewrite (Nat.eqb_sym a b), IH. reflexivity.
Qed.

Lemma count_diff_refl (u : fingerprint) : count_diff u u = 0.
Proof. induction u as [|a u IH]; simpl; [reflexivity|]. rewrite Nat.eqb_refl. exact IH. Qed.

Lemma LSH_distance_unfold {Image : Type} (self : LSHDeduplicator Image) (u v : fingerprint) :
  LSH_distance self u v
  = ([Compared u v],
     if length u =? length v then Ok (scaled_distance u v (_d self))
     else Raise DimensionMismatch).
Proof.
  unfold LSH_distance, hamming, scaled_distance.
  destruct (length u =? length v); reflexivity.
Qed.

Lemma BF_distance_unfold {Image : Type} (u v : fingerprint) :
  BF_distance (Image := Image) u v
  = ([Compared u v],
     if length u =? length v then Ok (scaled_distance u v 64)
     else Raise DimensionMismatch).
Proof.
  unfold BF_distance, hamming, scaled_distance.
  destruct (length u =? length v); reflexivity.
Qed.

Lemma scaled_64_exact (c : nat) :
  c <= 64 ->
  Float64.mul (Float64.div (Float64.of_nat c) (Float64.of_nat 64)) (Float64.of_nat 64)
  = Float64.of_nat c.
Proof.
  intros H.
  do 65 (destruct c as [|c]; [vm_compute; reflexivity|]).
  lia.
Qed.

Lemma threshold_exact_spec (d : nat) (u v : fingerprint) (scale : nat) :
  threshold_exact d = true -> length u = d -> scale = d ->
  below_threshold (scaled_distance u v scale) = (count_diff u v <? 10).
Proof.
  intros Hd Hu ->. unfold threshold_exact in Hd.
  rewrite forallb_forall in Hd.
  specialize (Hd (count_diff u v)).
  unfold scaled_distance. rewrite Hu.
  apply Bool.eqb_prop, Hd, in_seq.
  pose proof (count_diff_le u v). lia.
Qed.

Lemma threshold_exact_64 : threshold_exact 64 = true.
Proof. vm_compute. reflexivity. Qed.

(** C6 (amended): on 64-bit fingerprints, with [d = 64], the value either
    clusterer compares with the threshold is the number of differing
    positions, an integer in [0, 64]. *)
Theorem distance_is_count_64 {Image : Type} (self : LSHDeduplicator Image)
    (u v : fingerprint) :
  _d self = 64 -> length u = 64 -> length v = 64 ->
  snd (LSH_distance self u v) = Ok (Float64.of_nat (count_diff u v))
  /\ snd (BF_distance (Image := Image) u v) = Ok (Float64.of_nat (count_diff u v))
  /\ count_diff u v <= 64.
Proof.
  intros Hd Hu Hv.
  assert (Hc : count_diff u v <= 64) by (rewrite <- Hu; apply count_diff_le).
  rewrite LSH_distance_unfold, BF_distance_unfold. cbn [snd].
  rewrite Hu, Hv, Hd. cbn [Nat.eqb]. unfold scaled_distance. rewrite Hu.
  rewrite scaled_64_exact by exact Hc. auto.
Qed.

Lemma distance_is_count_64_witness :
  snd (LSH_distance (lsh_of_dim 64) (zeros_then 9 55) (zeros_then 0 64))
  = Ok (Float64.of_nat (count_diff (zeros_then 9 55) (zeros_then 0 64)))
  /\ snd (BF_distance (Image := unit) (zeros_then 9 55) (zeros_then 0 64))
     = Ok (Float64.of_nat (count_diff (zeros_then 9 55) (zeros_then 0 64)))
  /\ count_diff (zeros_then 9 55) (zeros_then 0 64) <= 64.
Proof.
  apply (distance_is_count_64 (lsh_of_dim 64)); reflexivity.
Defined.

(** C6 as stated fails: with [d = 49] (a 7 x 7 difference hash) one differing
    position is measured as [(1 / 49) * 49], which is not [1] in binary64;
    the brute-force clusterer scales 128-bit fingerprints by 64, so twelve
    differing positions are measured as [6]. *)
Lemma distance_not_count :
  length (zeros_then 1 48) = _d lsh_49
  /\ length (zeros_then 0 49) = _d lsh_49
  /\ snd (LSH_distance lsh_49 (zeros_then 1 48) (zeros_then 0 49))
     <> Ok (Float64.of_nat (count_diff (zeros_then 1 48) (zeros_then 0 49)))
  /\ length bits_128_a = length bits_128_b
  /\ snd (BF_distance (Image := unit) bits_128_a bits_128_b)
     <> Ok (Float64.of_nat (count_diff bits_128_a bits_128_b)).
Proof.
  repeat split; try reflexivity; vm_compute; discriminate.
Qed.

(** ** Construction of the bands *)

Lemma take_positions_seq (d : nat) (idx : list nat) :
  Forall (fun p => p < d) idx -> take_positions (seq 0 d) idx = Ok idx.
Proof.
  induction 1 as [|p idx Hp _ IH]; [reflexivity|].
  cbn [take_positions]. rewrite (lookup_nth _ _ 0) by (rewrite length_seq; exact Hp).
  rewrite seq_nth by exact Hp. rewrite IH. reflexivity.
Qed.

Section ConstructionFacts.
Context {Image RandomState : Type}.
Variable randint : nat -> RandomState -> nat * RandomState.
Hypothesis randint_range : forall high st, 0 < high -> fst (randint high st) < high.

Lemma randint_array_spec (high size : nat) (st : RandomState) :
  0 < high ->
  length (fst (randint_array randint high size st)) = size
  /\ Forall (fun p => p < high) (fst (randint_array randint high size st)).
Proof.
  intros Hh. revert st. induction size as [|size IH]; intros st.
  - split; [reflexivity|constructor].
  - cbn [randint_array]. pose proof (randint_range high st Hh) as Hx.
    destruct (randint high st) as [x st1]. specialize (IH st1).
    destruct (randint_array randint high size st1) as [xs st2].
    cbn [fst] in *. destruct IH as [IH1 IH2]. split.
    + simpl. congruence.
    + constructor; assumption.
Qed.

Lemma choice_range (d k : nat) (st : RandomState) :
  0 < d ->
  exists g st', choice randint (seq 0 d) k st = Ok (g, st')
                /\ length g = k /\ Forall (fun p => p < d) g.
Proof.
  intros Hd. unfold choice. rewrite length_seq.
  destruct (Nat.eqb_spec d 0) as [->|_]; [lia|]. cbn [andb].
  destruct (randint_array_spec d k st Hd) as [Hlen Hall].
  destruct (randint_array randint d k st) as [idx st']. cbn [fst] in *.
  rewrite take_positions_seq by exact Hall.
  exists idx, st'. auto.
Qed.

Lemma random_projections_spec (d k l : nat) (st : RandomState) :
  0 < d ->
  exists gs st', random_projections randint d k l st = Ok (gs, st')
                 /\ length gs = l
                 /\ Forall (fun g => length g = k /\ Forall (fun p => p < d) g) gs.
Proof.
  intros Hd. revert st. induction l as [|l IH]; intros st.
  - exists [], st. repeat split; constructor.
  - cbn [random_projections].
    destruct (choice_range d k st Hd) as (g & st1 & -> & Hg1 & Hg2).
    destruct (IH st1) as (gs & st2 & Hgs & Hlen & Hall).
    cbn. rewrite Hgs. cbn. exists (g :: gs), st2.
    repeat split; [simpl; congruence|]. constructor; auto.
Qed.

(** C5 (amended): for every generator state, construction with [0 < d]
    yields [l] bands of [k] positions each, every position in [[0, d)];
    the positions are drawn with replacement, so a band may repeat one. *)
Theorem LSH_init_bands (hash_func : Image -> fingerprint) (k l d : nat)
    (st : RandomState) :
  0 < d ->
  exists self st',
    LSH_init randint hash_func k l d st = Ok (self, st')
    /\ _k self = k /\ _l self = l /\ _d self = d
    /\ length (_projections self) = l
    /\ Forall (fun g => length g = k /\ Forall (fun p => p < d) g)
              (_projections self).
Proof.
  intros Hd. unfold LSH_init.
  destruct (random_projections_spec d k l st Hd) as (gs & st' & -> & Hlen & Hall).
  cbn. eexists _, st'. split; [reflexivity|]. cbn. auto.
Qed.
End ConstructionFacts.

Lemma lcg_randint_range (high : nat) (st : N) :
  0 < high -> fst (lcg_randint high st) < high.
Proof.
  intros H. unfold lcg_randint. cbn [fst].
  assert (Hlt : (st / 65536 mod N.of_nat high < N.of_nat high)%N)
    by (apply N.mod_lt; lia).
  lia.
Qed.

Lemma LSH_init_bands_witness :
  exists self st',
    LSH_init lcg_randint no_hash default_k default_l default_d 1%N = Ok (self, st')
    /\ _k self = default_k /\ _l self = default_l /\ _d self = default_d
    /\ length (_projections self) = default_l
    /\ Forall (fun g => length g = default_k /\ Forall (fun p => p < default_d) g)
              (_projections self).
Proof.
  apply (LSH_init_bands lcg_randint lcg_randint_range no_hash
           default_k default_l default_d 1%N).
  unfold default_d. lia.
Defined.

(** C5 as stated fails: with the default parameters and the generator seeded
    with 1, the first band repeats a position. *)
Lemma LSH_init_repeats_position :
  exists self st',
    LSH_init lcg_randint no_hash default_k default_l default_d 1%N = Ok (self, st')
    /\ ~ Forall distinct_positions (_projections self).
Proof.
  eexists _, _. split; [vm_compute; reflexivity|].
  unfold distinct_positions. cbn [_projections].
  apply (bool_decide_eq_false_1 _). vm_compute. reflexivity.
Qed.

(** Whatever the generator, more positions than dimensions force a repeat. *)
Lemma band_repeats_when_k_exceeds_d (d : nat) (g : list nat) :
  d < length g -> Forall (fun p => p < d) g -> ~ distinct_positions g.
Proof.
  intros Hlen Hall Hnd. unfold distinct_positions in Hnd.
  assert (Hincl : g ⊆ seq 0 d).
  { intros p Hp. rewrite Forall_forall in Hall. apply list_elem_of_In, in_seq.
    specialize (Hall p Hp). simpl in Hall. lia. }
  pose proof (submseteq_length _ _ (NoDup_submseteq _ _ Hnd Hincl)) as Hle.
  rewrite length_seq in Hle. lia.
Qed.

(** ** The empty input *)

(** C10: on the empty sequence both clusterers return the empty list of
    groups, whatever the recursion limit; the brute-force loop body is not
    entered, whatever its budget, because [all()] holds of the empty
    [matched] array. *)
Theorem deduplicate_empty {Image : Type} (limit : nat) (lsh : LSHDeduplicator Image)
    (bf : Deduplicator Image) :
  snd (LSH_deduplicate limit lsh []) = Ok []
  /\ snd (BF_deduplicate limit bf []) = Ok []
  /\ forallb (fun b : bool => b) (replicate (length (@nil Image)) false) = true
  /\ forall fuel, BF_loop (Image := Image) fuel [] [] [] [] = ([], Ok ([], [])).
Proof.
  repeat split. intros [|fuel]; reflexivity.
Qed.

(** ** Traversals of the store *)

Lemma mapM_Ok {A B : Type} (f : A -> result B) (l : list A) (k : list B) :
  mapM f l = Ok k <-> Forall2 (fun x y => f x = Ok y) l k.
Proof.
  revert k. induction l as [|x l IH]; intros k; cbn.
  - split.
    + intros H. injection H as <-. constructor.
    + intros H. inversion H. reflexivity.
  - split.
    + intros H. destruct (f x) as [y|e] eqn:Hx; [|discriminate]. cbn in H.
      destruct (mapM f l) as [k'|e] eqn:Hl; [|discriminate]. cbn in H.
      injection H as <-. constructor; [exact Hx|]. apply IH. reflexivity.
    + intros H. inversion H as [|x' y l' k' Hx Hl]; subst.
      rewrite Hx. cbn. apply IH in Hl. rewrite Hl. reflexivity.
Qed.

Section StoreFacts.
Context {Image : Type}.
Implicit Types heap : list (HashedImage Image).

Lemma deref_Ok heap a r : deref heap a = Ok r <-> heap !! a = Some r.
Proof.
  unfold deref. destruct (heap !! a); split; intros H;
    try discriminate; congruence.
Qed.

Lemma append_duplicate_length heap p c :
  length (append_duplicate heap p c) = length heap.
Proof. apply length_alter. Qed.

Lemma append_duplicate_lookup_ne heap p c a :
  a <> p -> append_duplicate heap p c !! a = heap !! a.
Proof. intros H. apply list_lookup_alter_ne. congruence. Qed.

Lemma append_duplicate_lookup_eq heap p c r :
  heap !! p = Some r ->
  append_duplicate heap p c !! p
  = Some (mkHashedImage (data r) (hash r) (duplicates r ++ [c])).
Proof.
  intros H. unfold append_duplicate. rewrite list_lookup_alter_eq, H. reflexivity.
Qed.

Lemma append_duplicate_lookup heap p c a r' :
  append_duplicate heap p c !! a = Some r' ->
  exists r, heap !! a = Some r /\ data r' = data r /\ hash r' = hash r
            /\ duplicates r' = duplicates r ++ (if a =? p then [c] else []).
Proof.
  intros H. destruct (Nat.eqb_spec a p) as [->|Hne].
  - destruct (heap !! p) as [r|] eqn:Hp.
    + rewrite (append_duplicate_lookup_eq _ _ _ _ Hp) in H. injection H as <-.
      exists r. auto.
    + unfold append_duplicate in H. rewrite list_lookup_alter_eq, Hp in H.
      discriminate.
  - rewrite append_duplicate_lookup_ne in H by exact Hne.
    exists r'. rewrite app_nil_r. auto.
Qed.

Lemma members_S fuel heap a L :
  members fuel heap a = Ok L -> members (S fuel) heap a = Ok L.
Proof.
  revert a L. induction fuel as [|fuel IH]; intros a L H; [discriminate|].
  cbn [members] in *.
  destruct (deref heap a) as [r|e]; [|discriminate]. cbn in *.
  destruct (mapM (members fuel heap) (duplicates r)) as [Ls|e] eqn:HLs;
    [|discriminate].
  apply mapM_Ok in HLs.
  assert (HLs' : mapM (members (S fuel) heap) (duplicates r) = Ok Ls).
  { apply mapM_Ok. eapply Forall2_impl; [exact HLs|]. intros x y; apply IH. }
  cbn [members] in HLs'. rewrite HLs'. exact H.
Qed.

Lemma members_le fuel fuel' heap a L :
  fuel <= fuel' -> members fuel heap a = Ok L -> members fuel' heap a = Ok L.
Proof.
  induction 1 as [|fuel' _ IH]; [auto|]. intros H. apply members_S, IH, H.
Qed.

Lemma members_app fuel heap ext a L :
  members fuel heap a = Ok L -> members fuel (heap ++ ext) a = Ok L.
Proof.
  revert a L. induction fuel as [|fuel IH]; intros a L H; [discriminate|].
  cbn [members] in *.
  destruct (deref heap a) as [r|e] eqn:Hr; [|discriminate].
  apply deref_Ok in Hr.
  assert (Hr' : deref (heap ++ ext) a = Ok r).
  { apply deref_Ok. apply lookup_app_l_Some. exact Hr. }
  rewrite Hr'. cbn in *.
  destruct (mapM (members fuel heap) (duplicates r)) as [Ls|e] eqn:HLs;
    [|discriminate].
  apply mapM_Ok in HLs.
  assert (HLs' : mapM (members fuel (heap ++ ext)) (duplicates r) = Ok Ls).
  { apply mapM_Ok. eapply Forall2_impl; [exact HLs|]. intros x y; apply IH. }
  rewrite HLs'. exact H.
Qed.

Lemma members_leaf fuel heap c r :
  heap !! c = Some r -> duplicates r = [] -> members (S fuel) heap c = Ok [c].
Proof.
  intros Hc Hr. cbn [members]. apply deref_Ok in Hc. rewrite Hc. cbn.
  rewrite Hr. reflexivity.
Qed.
End StoreFacts.

(** ** Appending a fresh record *)

Lemma echo_app (p c : nat) (L1 L2 : list nat) :
  echo p c (L1 ++ L2) = echo p c L1 ++ echo p c L2.
Proof. apply flat_map_app. Qed.

Lemma echo_cons (p c x : nat) (L : list nat) :
  echo p c (x :: L) = (if x =? p then [c] else []) ++ echo p c L.
Proof. reflexivity. Qed.

Lemma echo_notin (p c : nat) (L : list nat) : p ∉ L -> echo p c L = [].
Proof.
  induction L as [|x L IH]; intros H; [reflexivity|].
  apply not_elem_of_cons in H as [Hx HL]. rewrite echo_cons.
  destruct (Nat.eqb_spec x p); [congruence|]. apply IH, HL.
Qed.

Lemma echo_in (p c : nat) (L : list nat) :
  NoDup L -> p ∈ L -> echo p c L = [c].
Proof.
  induction 1 as [|x L Hx Hnd IH]; intros Hp.
  - inversion Hp.
  - rewrite echo_cons. apply elem_of_cons in Hp as [->|Hp].
    + rewrite Nat.eqb_refl, echo_notin by exact Hx. reflexivity.
    + destruct (Nat.eqb_spec x p) as [->|_]; [contradiction|]. apply IH, Hp.
Qed.

Lemma echo_concat_perm (p c : nat) (Ls Ls' : list (list nat)) :
  Forall2 (fun L L' => L' ≡ₚ L ++ echo p c L) Ls Ls' ->
  concat Ls' ≡ₚ concat Ls ++ echo p c (concat Ls).
Proof.
  induction 1 as [|L L' Ls Ls' HL _ IH]; [reflexivity|].
  cbn [concat]. rewrite echo_app, HL, IH.
  rewrite <- !app_assoc. apply Permutation_app_head.
  rewrite !app_assoc. apply Permutation_app_tail, Permutation_app_comm.
Qed.

Section Attach.
Context {Image : Type}.
Implicit Types heap : list (HashedImage Image).

Lemma members_attach heap p c rc fuel a L :
  heap !! c = Some rc -> duplicates rc = [] -> p <> c ->
  members fuel heap a = Ok L ->
  exists L', members (S fuel) (append_duplicate heap p c) a = Ok L'
             /\ L' ≡ₚ L ++ echo p c L.
Proof.
  intros Hc Hleaf Hpc. revert a L.
  induction fuel as [|fuel IH]; intros a L H; [discriminate|].
  cbn [members] in H.
  destruct (deref heap a) as [r|e] eqn:Hr; [|discriminate].
  apply deref_Ok in Hr. cbn in H.
  destruct (mapM (members fuel heap) (duplicates r)) as [Ls|e] eqn:HLs;
    [|discriminate].
  cbn in H. injection H as <-. apply mapM_Ok in HLs.
  assert (Hkids : exists Ls',
             Forall2 (fun x L' => members (S fuel) (append_duplicate heap p c) x = Ok L')
                     (duplicates r) Ls'
             /\ Forall2 (fun L L' => L' ≡ₚ L ++ echo p c L) Ls Ls').
  { clear Hr. induction HLs as [|x Lx ds Ls Hx _ IHds].
    - exists []. split; constructor.
    - destruct (IH _ _ Hx) as (Lx' & Hx' & Hperm).
      destruct IHds as (Ls' & H1 & H2).
      exists (Lx' :: Ls'). split; constructor; assumption. }
  destruct Hkids as (Ls' & Hkids & Hperm).
  apply echo_concat_perm in Hperm.
  assert (Hc' : append_duplicate heap p c !! c = Some rc).
  { rewrite append_duplicate_lookup_ne by congruence. exact Hc. }
  destruct (Nat.eq_dec a p) as [->|Hap].
  - exists (p :: concat (Ls' ++ [[c]])). split.
    + change (members (S (S fuel)) (append_duplicate heap p c) p)
        with (r' ← deref (append_duplicate heap p c) p;
              children ← mapM (members (S fuel) (append_duplicate heap p c))
                              (duplicates r');
              Ok (p :: concat children)).
      pose proof (append_duplicate_lookup_eq _ _ c _ Hr) as Hp'.
      apply deref_Ok in Hp'. rewrite Hp'. cbn [mbind result_bind duplicates].
      assert (HM : mapM (members (S fuel) (append_duplicate heap p c))
                        (duplicates r ++ [c]) = Ok (Ls' ++ [[c]])).
      { apply mapM_Ok. apply Forall2_app; [exact Hkids|].
        constructor; [|constructor]. eapply members_leaf; eassumption. }
      rewrite HM. reflexivity.
    + rewrite concat_app, echo_cons, Nat.eqb_refl. cbn [concat].
      rewrite app_nil_r.
      cbn [app]. constructor. rewrite Hperm.
      rewrite <- !app_assoc. apply Permutation_app_head.
      cbn [app]. symmetry. apply Permutation_cons_append.
  - exists (a :: concat Ls'). split.
    + change (members (S (S fuel)) (append_duplicate heap p c) a)
        with (r' ← deref (append_duplicate heap p c) a;
              children ← mapM (members (S fuel) (append_duplicate heap p c))
                              (duplicates r');
              Ok (a :: concat children)).
      assert (Ha' : deref (append_duplicate heap p c) a = Ok r).
      { apply deref_Ok. rewrite append_duplicate_lookup_ne by exact Hap. exact Hr. }
      rewrite Ha'. cbn [mbind result_bind].
      apply mapM_Ok in Hkids. rewrite Hkids. reflexivity.
    + rewrite echo_cons. destruct (Nat.eqb_spec a p); [contradiction|].
      cbn [app]. constructor. exact Hperm.
Qed.

(** [_flatten] returns the images of the records [members] visits. *)
Lemma flatten_members (imgs : list Image) fuel heap a L :
  (forall i r, i ∈ L -> heap !! i = Some r -> imgs !! i = Some (data r)) ->
  members fuel heap a = Ok L ->
  exists group, _flatten fuel heap a = Ok group
                /\ Forall2 (fun i img => imgs !! i = Some img) L group.
Proof.
  revert a L. induction fuel as [|fuel IH]; intros a L Hdata H; [discriminate|].
  cbn [members _flatten] in *.
  destruct (deref heap a) as [r|e] eqn:Hr; [|discriminate].
  apply deref_Ok in Hr. cbn in *.
  destruct (mapM (members fuel heap) (duplicates r)) as [Ls|e] eqn:HLs;
    [|discriminate].
  cbn in H. injection H as <-. apply mapM_Ok in HLs.
  assert (Hkids : exists groups,
             Forall2 (fun x group => _flatten fuel heap x = Ok group)
                     (duplicates r) groups
             /\ Forall2 (Forall2 (fun i img => imgs !! i = Some img)) Ls groups).
  { assert (Hdata' : forall i r, i ∈ concat Ls -> heap !! i = Some r ->
                                 imgs !! i = Some (data r)).
    { intros i ri Hi. apply Hdata. right. exact Hi. }
    clear Hdata Hr. induction HLs as [|x Lx ds Ls Hx _ IHds].
    - exists []. split; constructor.
    - destruct (IH x Lx) as (group & Hg & Hg2); [|exact Hx|].
      { intros i ri Hi. apply Hdata'. cbn. apply elem_of_app. auto. }
      destruct IHds as (groups & H1 & H2).
      { intros i ri Hi. apply Hdata'. cbn. apply elem_of_app. auto. }
      exists (group :: groups). split; constructor; assumption. }
  destruct Hkids as (groups & Hkids & Hrel).
  apply mapM_Ok in Hkids. rewrite Hkids. cbn.
  eexists. split; [reflexivity|].
  constructor.
  - apply (Hdata a r); [left|exact Hr].
  - clear -Hrel. induction Hrel; cbn; [constructor|].
    apply Forall2_app; assumption.
Qed.
End Attach.

(** ** Invariants of a growing forest *)

Lemma concat_snoc {A : Type} (G : list (list A)) (g : list A) :
  concat (G ++ [g]) = concat G ++ g.
Proof. rewrite concat_app. cbn. rewrite app_nil_r. reflexivity. Qed.

Lemma concat_insert_perm {A : Type} (G1 G2 : list (list A)) (g : list A) (c : A) :
  concat (G1 ++ (g ++ [c]) :: G2) ≡ₚ c :: concat (G1 ++ g :: G2).
Proof.
  rewrite !concat_app. cbn [concat].
  rewrite <- app_assoc. cbn [app].
  rewrite (Permutation_middle (concat G1) _ c). apply Permutation_app_head.
  rewrite <- (Permutation_middle g _ c). reflexivity.
Qed.

Lemma elem_of_insert_group (G1 G2 : list (list nat)) (g g0 : list nat) (c : nat) :
  g0 ∈ G1 ++ g :: G2 ->
  exists g0', g0' ∈ G1 ++ (g ++ [c]) :: G2 /\ forall x, x ∈ g0 -> x ∈ g0'.
Proof.
  intros H. apply elem_of_app in H as [H|H].
  - exists g0. split; [apply elem_of_app; auto|auto].
  - apply elem_of_cons in H as [->|H].
    + exists (g ++ [c]). split.
      * apply elem_of_app. right. left.
      * intros x Hx. apply elem_of_app. auto.
    + exists g0. split; [|auto]. apply elem_of_app. right. right. exact H.
Qed.

Section GrowsFacts.
Context {Image : Type}.
Implicit Types heap : list (HashedImage Image).
Variable R : nat -> nat -> Prop.

Lemma grows_basic heap G :
  grows R heap G ->
  NoDup (concat G) /\ (forall x, x ∈ concat G -> x < length heap)
  /\ Forall (fun g => g <> []) G.
Proof.
  induction 1 as [|heap G x _ IH Hx|heap G c _ IH Hc Hfresh
                 |heap G1 g G2 p c _ IH Hp Hc Hfresh HR].
  - repeat split; [constructor|intros x Hx; inversion Hx|constructor].
  - destruct IH as (Hnd & Hb & Hne). repeat split; auto.
    intros y Hy. rewrite length_app. specialize (Hb y Hy). lia.
  - destruct IH as (Hnd & Hb & Hne). rewrite concat_snoc. repeat split.
    + apply NoDup_app. repeat split; [exact Hnd| |apply NoDup_singleton].
      intros y Hy Hy'. apply list_elem_of_singleton in Hy'. subst. auto.
    + intros y Hy. apply elem_of_app in Hy as [Hy|Hy]; [auto|].
      apply list_elem_of_singleton in Hy. subst. exact Hc.
    + apply Forall_app. split; [exact Hne|]. repeat constructor. discriminate.
  - destruct IH as (Hnd & Hb & Hne). repeat split.
    + rewrite concat_insert_perm. constructor; assumption.
    + intros y Hy. rewrite append_duplicate_length.
      rewrite concat_insert_perm in Hy.
      apply elem_of_cons in Hy as [->|Hy]; auto.
    + apply Forall_app in Hne as [Hne1 Hne2].
      apply Forall_cons in Hne2 as [_ Hne2].
      apply Forall_app. split; [exact Hne1|]. constructor; [|exact Hne2].
      destruct g; discriminate.
Qed.

Lemma grows_NoDup heap G : grows R heap G -> NoDup (concat G).
Proof. intros H. apply (grows_basic _ _ H). Qed.

Lemma grows_bound heap G x : grows R heap G -> x ∈ concat G -> x < length heap.
Proof. intros H. apply (grows_basic _ _ H). Qed.

Lemma grows_nonempty heap G : grows R heap G -> Forall (fun g => g <> []) G.
Proof. intros H. apply (grows_basic _ _ H). Qed.

Lemma grows_leaf heap G c r :
  grows R heap G -> heap !! c = Some r -> c ∉ concat G -> duplicates r = [].
Proof.
  intros H. revert c r.
  induction H as [|heap G x _ IH Hx|heap G c0 _ IH Hc Hfresh
                 |heap G1 g G2 p c0 _ IH Hp Hc Hfresh HR]; intros c r Hr Hn.
  - discriminate.
  - apply lookup_app_Some in Hr as [Hr|[_ Hr]]; [eauto|].
    destruct (c - length heap) as [|k]; [|destruct k; discriminate].
    cbn in Hr. congruence.
  - apply (IH c r Hr). intros Hin. apply Hn. rewrite concat_snoc.
    apply elem_of_app. auto.
  - rewrite concat_insert_perm in Hn. apply not_elem_of_cons in Hn as [Hne Hn].
    apply append_duplicate_lookup in Hr as (r0 & Hr0 & _ & _ & Hd).
    destruct (Nat.eqb_spec c p) as [->|_].
    + exfalso. apply Hn. rewrite concat_app. apply elem_of_app. right.
      cbn. apply elem_of_app. auto.
    + rewrite app_nil_r in Hd. rewrite Hd. eauto.
Qed.

Lemma grows_children heap G p r c :
  grows R heap G -> heap !! p = Some r -> c ∈ duplicates r ->
  exists g, g ∈ G /\ p ∈ g /\ c ∈ g /\ R p c.
Proof.
  intros H. revert p r c.
  induction H as [|heap G x _ IH Hx|heap G c0 _ IH Hc Hfresh
                 |heap G1 g G2 p0 c0 _ IH Hp Hc Hfresh HR]; intros p r c Hr Hin.
  - discriminate.
  - apply lookup_app_Some in Hr as [Hr|[_ Hr]]; [eauto|].
    destruct (p - length heap) as [|k]; [|destruct k; discriminate].
    cbn in Hr. injection Hr as <-. rewrite Hx in Hin. inversion Hin.
  - destruct (IH _ _ _ Hr Hin) as (g & Hg & H1 & H2 & H3).
    exists g. split; [apply elem_of_app; auto|auto].
  - apply append_duplicate_lookup in Hr as (r0 & Hr0 & _ & _ & Hd).
    rewrite Hd in Hin. apply elem_of_app in Hin as [Hin|Hin].
    + destruct (IH _ _ _ Hr0 Hin) as (g0 & Hg0 & H1 & H2 & H3).
      destruct (elem_of_insert_group G1 G2 g g0 c0 Hg0) as (g0' & Hg0' & Hsub).
      exists g0'. auto.
    + destruct (Nat.eqb_spec p p0) as [->|_]; [|inversion Hin].
      apply list_elem_of_singleton in Hin. subst c.
      exists (g ++ [c0]). repeat split; [| | |exact HR].
      * apply elem_of_app. right. left.
      * apply elem_of_app. auto.
      * apply elem_of_app. right. left.
Qed.

Lemma grows_edge_placed heap G p c :
  grows R heap G -> edge heap p c -> p ∈ concat G /\ c ∈ concat G.
Proof.
  intros H (r & Hr & Hin).
  destruct (grows_children _ _ _ _ _ H Hr Hin) as (g & Hg & H1 & H2 & _).
  split; apply elem_of_concat; eauto.
Qed.
End GrowsFacts.

Section ForestShape.
Context {Image : Type}.
Implicit Types heap : list (HashedImage Image).
Variable R : nat -> nat -> Prop.

Lemma duplicates_append_perm heap p c :
  p < length heap ->
  concat (map duplicates (append_duplicate heap p c))
  ≡ₚ c :: concat (map duplicates heap).
Proof.
  revert p. induction heap as [|x heap IH]; intros p Hp; cbn in Hp; [lia|].
  destruct p as [|p].
  - cbn. rewrite <- app_assoc. cbn.
    symmetry. apply Permutation_middle.
  - change (append_duplicate (x :: heap) (S p) c)
      with (x :: append_duplicate heap p c).
    cbn [map concat]. rewrite IH by lia.
    symmetry. apply Permutation_middle.
Qed.

Lemma child_placed heap G x :
  grows R heap G -> x ∈ concat (map duplicates heap) -> x ∈ concat G.
Proof.
  intros H Hx. apply elem_of_concat in Hx as (ds & Hds & Hx).
  apply list_elem_of_In, in_map_iff in Hds as (r & <- & Hr).
  apply list_elem_of_In, list_elem_of_lookup in Hr as (p & Hp).
  apply (grows_edge_placed R heap G p x H). exists r. auto.
Qed.

Lemma grows_single_parent heap G : grows R heap G -> single_parent heap.
Proof.
  unfold single_parent.
  induction 1 as [|heap G x H IH Hx|heap G c _ IH Hc Hfresh
                 |heap G1 g G2 p c H IH Hp Hc Hfresh HR].
  - constructor.
  - rewrite map_app, concat_app. cbn. rewrite Hx, !app_nil_r. exact IH.
  - exact IH.
  - rewrite duplicates_append_perm.
    + constructor; [|exact IH]. intros Hin. apply Hfresh.
      eapply child_placed; eassumption.
    + apply (grows_bound R heap (G1 ++ g :: G2)); [exact H|].
      apply elem_of_concat. exists g. split; [|exact Hp].
      apply elem_of_app. right. left.
Qed.

Lemma tc_first {A : Type} (E : A -> A -> Prop) (a b : A) :
  tc E a b -> exists m, E a m.
Proof. destruct 1; eauto. Qed.

Lemma grows_acyclic heap G : grows R heap G -> acyclic heap.
Proof.
  unfold acyclic.
  induction 1 as [|heap G x H IH Hx|heap G c _ IH Hc Hfresh
                 |heap G1 g G2 p c H IH Hp Hc Hfresh HR]; intros a Ha.
  - apply tc_first in Ha as (m & r & Hr & _). discriminate.
  - apply (IH a). eapply (tc_congruence (fun x => x)); [|exact Ha].
    intros q y (r & Hr & Hy). exists r. split; [|exact Hy].
    apply lookup_app_Some in Hr as [Hr|[_ Hr]]; [exact Hr|].
    destruct (q - length heap) as [|k]; [|destruct k; discriminate].
    cbn in Hr. injection Hr as <-. rewrite Hx in Hy. inversion Hy.
  - exact (IH a Ha).
  - assert (Hpc : p <> c).
    { intros ->. apply Hfresh. apply elem_of_concat. exists g.
      split; [apply elem_of_app; right; left|exact Hp]. }
    assert (Hstep : forall q y, edge (append_duplicate heap p c) q y ->
                                edge heap q y \/ (q = p /\ y = c)).
    { intros q y (r' & Hr' & Hy).
      apply append_duplicate_lookup in Hr' as (r & Hr & _ & _ & Hd).
      rewrite Hd in Hy. apply elem_of_app in Hy as [Hy|Hy].
      - left. exists r. auto.
      - destruct (Nat.eqb_spec q p) as [->|_]; [|inversion Hy].
        apply list_elem_of_singleton in Hy. auto. }
    assert (Hout : forall y, ~ edge heap c y).
    { intros y Hy.
      apply (grows_edge_placed R _ _ _ _ H) in Hy as [Hy _]. auto. }
    assert (Hold : forall x y, tc (edge (append_duplicate heap p c)) x y ->
                               tc (edge heap) x y \/ y = c).
    { intros x y Hxy. induction Hxy as [x y Hxy|x m y Hxm _ IHt].
      - apply Hstep in Hxy as [Hxy|[_ ->]]; [left; apply tc_once, Hxy|auto].
      - destruct IHt as [IHt| ->]; [|auto].
        apply Hstep in Hxm as [Hxm|[_ ->]].
        + left. eapply tc_l; eassumption.
        + apply tc_first in IHt as (z & Hz). destruct (Hout _ Hz). }
    destruct (Hold _ _ Ha) as [Ha'| ->]; [exact (IH a Ha')|].
    apply tc_first in Ha as (m & Hm).
    apply Hstep in Hm as [Hm|[-> _]]; [exact (Hout _ Hm)|congruence].
Qed.

Lemma grows_is_forest heap G : grows R heap G -> is_forest heap.
Proof.
  intros H. split; [eapply grows_single_parent|eapply grows_acyclic]; eassumption.
Qed.

Lemma grows_leaves heap :
  Forall (fun r => duplicates r = []) heap -> grows R heap [].
Proof.
  induction heap as [|x heap IH] using rev_ind; intros H; [constructor|].
  apply Forall_app in H as [H1 H2]. apply Forall_cons in H2 as [Hx _].
  constructor; auto.
Qed.
End ForestShape.

Section ForestGroups.
Context {Image : Type}.
Implicit Types heap : list (HashedImage Image).
Variable R : nat -> nat -> Prop.

Lemma group_apart (G1 G2 : list (list nat)) (g g' : list nat) (p : nat) :
  NoDup (concat (G1 ++ g :: G2)) -> p ∈ g -> g' ∈ G1 \/ g' ∈ G2 -> p ∉ g'.
Proof.
  rewrite concat_app. cbn [concat]. intros Hnd Hp Hg' Hin.
  apply NoDup_app in Hnd as (_ & Hd1 & Hnd).
  apply NoDup_app in Hnd as (_ & Hd2 & _).
  destruct Hg' as [Hg'|Hg'].
  - apply (Hd1 p); [apply elem_of_concat; eauto|]. apply elem_of_app. auto.
  - apply (Hd2 p Hp). apply elem_of_concat. eauto.
Qed.

Lemma group_NoDup (G : list (list nat)) (g : list nat) :
  NoDup (concat G) -> g ∈ G -> NoDup g.
Proof.
  intros Hnd Hg. apply list_elem_of_split in Hg as (G1 & G2 & ->).
  rewrite concat_app in Hnd. cbn [concat] in Hnd.
  apply NoDup_app in Hnd as (_ & _ & Hnd).
  apply NoDup_app in Hnd as (Hnd & _). exact Hnd.
Qed.

Lemma grows_members heap G :
  grows R heap G ->
  Forall (fun g => exists L, members (length (concat G)) heap (hd 0 g) = Ok L
                             /\ L ≡ₚ g) G.
Proof.
  induction 1 as [|heap G x H IH Hx|heap G c H IH Hc Hfresh
                 |heap G1 g G2 p c H IH Hp Hc Hfresh HR].
  - constructor.
  - eapply Forall_impl; [exact IH|]. intros g (L & HL & Hperm).
    exists L. split; [apply members_app, HL|exact Hperm].
  - rewrite concat_snoc, length_app. cbn [length].
    replace (length (concat G) + 1) with (S (length (concat G))) by lia.
    apply Forall_app. split.
    + eapply Forall_impl; [exact IH|]. intros g (L & HL & Hperm).
      exists L. split; [apply members_S, HL|exact Hperm].
    + constructor; [|constructor]. exists [c]. split; [|reflexivity].
      destruct (lookup_lt_is_Some_2 heap c Hc) as [r Hr].
      eapply members_leaf; [exact Hr|].
      eapply grows_leaf; eassumption.
  - pose proof (grows_NoDup R _ _ H) as Hnd.
    assert (Hpc : p <> c).
    { intros ->. apply Hfresh. apply elem_of_concat. exists g.
      split; [apply elem_of_app; right; left|exact Hp]. }
    destruct (lookup_lt_is_Some_2 heap c Hc) as [rc Hrc].
    pose proof (grows_leaf R _ _ _ _ H Hrc Hfresh) as Hleaf.
    rewrite (Permutation_length (concat_insert_perm G1 G2 g c)). cbn [length].
    set (n := length (concat (G1 ++ g :: G2))) in *.
    assert (Hstep : forall g', g' ∈ G1 ++ g :: G2 ->
              forall L, members n heap (hd 0 g') = Ok L -> L ≡ₚ g' ->
              exists L', members (S n) (append_duplicate heap p c) (hd 0 g') = Ok L'
                         /\ L' ≡ₚ g' ++ echo p c g').
    { intros g' _ L HL Hperm.
      destruct (members_attach heap p c rc n _ L Hrc Hleaf Hpc HL) as (L' & HL' & HP).
      exists L'. split; [exact HL'|]. rewrite HP.
      apply Permutation_app; [exact Hperm|].
      unfold echo. apply Permutation_flat_map, Hperm. }
    apply Forall_app in IH as [IH1 IH2]. apply Forall_cons in IH2 as [IHg IH2].
    apply Forall_app. split; [|constructor].
    + apply Forall_forall. intros g' Hg'.
      rewrite Forall_forall in IH1. destruct (IH1 g' Hg') as (L & HL & Hperm).
      destruct (Hstep g' (proj2 (elem_of_app _ _ _) (or_introl Hg')) L HL Hperm)
        as (L' & HL' & HP).
      exists L'. split; [exact HL'|]. rewrite HP.
      rewrite echo_notin, app_nil_r; [reflexivity|].
      eapply group_apart; eauto.
    + destruct IHg as (L & HL & Hperm).
      assert (Hin : g ∈ G1 ++ g :: G2) by (apply elem_of_app; right; left).
      destruct (Hstep g Hin L HL Hperm) as (L' & HL' & HP).
      exists L'. split.
      * destruct g; [inversion Hp|exact HL'].
      * rewrite HP, echo_in; [reflexivity| |exact Hp].
        eapply group_NoDup; [exact Hnd|]. apply elem_of_app. right. left.
    + apply Forall_forall. intros g' Hg'.
      rewrite Forall_forall in IH2. destruct (IH2 g' Hg') as (L & HL & Hperm).
      assert (Hin : g' ∈ G1 ++ g :: G2) by (apply elem_of_app; right; right; exact Hg').
      destruct (Hstep g' Hin L HL Hperm) as (L' & HL' & HP).
      exists L'. split; [exact HL'|]. rewrite HP.
      rewrite echo_notin, app_nil_r; [reflexivity|].
      eapply group_apart; eauto.
Qed.

Lemma chain_mono (g g' : list nat) (a b : nat) :
  (forall x, x ∈ g -> x ∈ g') -> chain R g a b -> chain R g' a b.
Proof.
  intros Hsub. unfold chain. apply (rtc_congruence (fun x => x)).
  intros x y (H1 & H2 & H3). auto.
Qed.

Lemma grows_chain heap G :
  grows R heap G ->
  Forall (fun g => forall x, x ∈ g -> chain R g (hd 0 g) x) G.
Proof.
  induction 1 as [|heap G x H IH Hx|heap G c H IH Hc Hfresh
                 |heap G1 g G2 p c H IH Hp Hc Hfresh HR].
  - constructor.
  - exact IH.
  - apply Forall_app. split; [exact IH|]. constructor; [|constructor].
    intros x Hx. apply list_elem_of_singleton in Hx. subst. apply rtc_refl.
  - apply Forall_app in IH as [IH1 IH2]. apply Forall_cons in IH2 as [IHg IH2].
    apply Forall_app. split; [exact IH1|]. constructor; [|exact IH2].
    assert (Hhd : hd 0 (g ++ [c]) = hd 0 g) by (destruct g; [inversion Hp|reflexivity]).
    rewrite Hhd.
    assert (Hsub : forall x, x ∈ g -> x ∈ g ++ [c])
      by (intros x Hx; apply elem_of_app; auto).
    intros x Hx. apply elem_of_app in Hx as [Hx|Hx].
    + eapply chain_mono; [exact Hsub|]. apply IHg, Hx.
    + apply list_elem_of_singleton in Hx. subst x.
      eapply rtc_r; [eapply chain_mono; [exact Hsub|]; apply IHg, Hp|].
      repeat split; [exact HR|auto|]. apply elem_of_app. right. left.
Qed.
End ForestGroups.

(** ** Reasoning about runs *)

Section SatRules.
Context {Image : Type}.
Implicit Types Ev : event Image -> Prop.

Lemma sat_ret {A : Type} (a : A) Ev (Q : A -> Prop) Ex :
  Q a -> sat (mret a) Ev Q Ex.
Proof. intros H. split; [constructor|exact H]. Qed.

Lemma sat_raise {A : Type} (e : exn) Ev (Q : A -> Prop) (Ex : exn -> Prop) :
  Ex e -> sat (raise e) Ev Q Ex.
Proof. intros H. split; [constructor|exact H]. Qed.

Lemma sat_emit (e : event Image) Ev (Q : unit -> Prop) Ex :
  Ev e -> Q tt -> sat (emit e) Ev Q Ex.
Proof. intros H1 H2. split; [repeat constructor; exact H1|exact H2]. Qed.

Lemma sat_lift {A : Type} (r : result A) Ev (Q : A -> Prop) (Ex : exn -> Prop) :
  match r with Ok a => Q a | Raise e => Ex e end -> sat (lift r) Ev Q Ex.
Proof. intros H. split; [constructor|exact H]. Qed.

Lemma sat_bind {A B : Type} (m : traced A) (f : A -> traced B)
    Ev (Q1 : A -> Prop) (Q2 : B -> Prop) Ex :
  sat m Ev Q1 Ex -> (forall a, Q1 a -> sat (f a) Ev Q2 Ex) ->
  sat (m ≫= f) Ev Q2 Ex.
Proof.
  intros [Htr Hres] Hf. destruct m as [tr [a|e]]; cbn in *.
  - specialize (Hf a Hres). destruct (f a) as [tr' r]. destruct Hf as [Htr' Hr].
    split; [apply Forall_app; auto|exact Hr].
  - split; assumption.
Qed.

Lemma sat_mono {A : Type} (m : traced A) Ev Ev' (Q Q' : A -> Prop)
    (Ex Ex' : exn -> Prop) :
  sat m Ev Q Ex -> (forall e, Ev e -> Ev' e) -> (forall a, Q a -> Q' a) ->
  (forall e, Ex e -> Ex' e) -> sat m Ev' Q' Ex'.
Proof.
  intros [Htr Hres] H1 H2 H3. split.
  - eapply Forall_impl; eauto.
  - destruct (snd m); auto.
Qed.
End SatRules.

(** ** Failing band keys *)

Lemma take_positions_valid (u : fingerprint) (g : list nat) (bs : list nat) :
  take_positions u g = Ok bs -> forall p, p ∈ g -> p < length u.
Proof.
  revert bs. induction g as [|q g IH]; intros bs H p Hp; [inversion Hp|].
  cbn [take_positions] in H. destruct (u !! q) as [b|] eqn:Hq; [|discriminate].
  destruct (take_positions u g) as [bs'|e]; [|discriminate].
  apply elem_of_cons in Hp as [->|Hp].
  - eapply lookup_lt_Some; exact Hq.
  - eapply IH; [reflexivity|exact Hp].
Qed.

Lemma take_positions_raise (u : fingerprint) (g : list nat) (e : exn) :
  take_positions u g = Raise e -> e = IndexError.
Proof.
  induction g as [|q g IH]; intros H; [discriminate|].
  cbn [take_positions] in H. destruct (u !! q) as [b|]; [|congruence].
  destruct (take_positions u g) as [bs'|e']; [discriminate|].
  cbn in H. injection H as <-. apply IH. reflexivity.
Qed.

Lemma band_key_raise (u : fingerprint) (g : list nat) (e : exn) :
  band_key u g = Raise e -> e = IndexError.
Proof.
  unfold band_key. intros H.
  destruct (take_positions u g) as [bs|e'] eqn:Ht; [discriminate|].
  cbn in H. injection H as <-. eapply take_positions_raise, Ht.
Qed.

Lemma band_key_bad (u : fingerprint) (g : list nat) (p : nat) :
  p ∈ g -> length u <= p -> band_key u g = Raise IndexError.
Proof.
  intros Hp Hle. destruct (band_key u g) as [s|e] eqn:Hk.
  - exfalso. unfold band_key in Hk.
    destruct (take_positions u g) as [bs|e'] eqn:Ht; [|discriminate].
    pose proof (take_positions_valid u g bs Ht p Hp). lia.
  - f_equal. eapply band_key_raise, Hk.
Qed.

Lemma sat_raises {Image A : Type} (m : traced (Image := Image) A) Ev (e : exn) :
  sat m Ev (fun _ => False) (fun e' => e' = e) -> snd m = Raise e.
Proof.
  intros [_ H]. destruct (snd m) as [a|e']; [contradiction|congruence].
Qed.

Lemma nth_insert_ne (matched : list bool) (i j : nat) :
  i <> j -> nth j (<[i := true]> matched) false = nth j matched false.
Proof.
  intros Hne. rewrite !nth_lookup, list_lookup_insert_ne by exact Hne. reflexivity.
Qed.

(** The key the approximate clusterer computes: that of [band_key] when the
    band array is of integer type, [IndexError] otherwise. *)
Lemma LSH_band_key_Ok {Image : Type} (self : LSHDeduplicator Image)
    (h : fingerprint) (g : list nat) (s : string) :
  LSH_band_key self h g = Ok s ->
  band_key h g = Ok s /\ _projections_dtype self = int64.
Proof.
  unfold LSH_band_key. destruct (_projections_dtype self); [auto|discriminate].
Qed.

Lemma LSH_band_key_int {Image : Type} (self : LSHDeduplicator Image)
    (h : fingerprint) (g : list nat) :
  _projections_dtype self = int64 -> LSH_band_key self h g = band_key h g.
Proof. unfold LSH_band_key. intros ->. reflexivity. Qed.

Lemma LSH_band_key_raise {Image : Type} (self : LSHDeduplicator Image)
    (h : fingerprint) (g : list nat) (e : exn) :
  LSH_band_key self h g = Raise e -> e = IndexError.
Proof.
  unfold LSH_band_key. destruct (_projections_dtype self).
  - apply band_key_raise.
  - congruence.
Qed.

Lemma LSH_band_key_bad {Image : Type} (self : LSHDeduplicator Image)
    (h : fingerprint) (g : list nat) (p : nat) :
  p ∈ g -> length h <= p -> LSH_band_key self h g = Raise IndexError.
Proof.
  intros Hp Hle. unfold LSH_band_key. destruct (_projections_dtype self).
  - eapply band_key_bad; eassumption.
  - reflexivity.
Qed.

(** ** The approximate clusterer *)

Section RunFacts.
Context {Image : Type}.
Implicit Types heap : list (HashedImage Image).
Implicit Types Ev : event Image -> Prop.

Lemma traced_bind_ret {A B : Type} (a : A) (f : A -> traced (Image := Image) B) :
  lift (Ok a) ≫= f = f a.
Proof. cbn. destruct (f a). reflexivity. Qed.

Lemma sat_deref {B : Type} heap (i : nat) (f : HashedImage Image -> traced B)
    Ev (Q : B -> Prop) Ex :
  i < length heap ->
  (forall r, heap !! i = Some r -> sat (f r) Ev Q Ex) ->
  sat (lift (deref heap i) ≫= f) Ev Q Ex.
Proof.
  intros Hi Hf. destruct (lookup_lt_is_Some_2 heap i Hi) as [r Hr].
  pose proof (proj2 (deref_Ok heap i r) Hr) as Hd. rewrite Hd, traced_bind_ret.
  apply Hf, Hr.
Qed.

Lemma sat_compare {B : Type} (m : traced Float64.t) (u v : fingerprint)
    (scale : nat) (f : Float64.t -> traced B) Ev (Q : B -> Prop) (Ex : exn -> Prop) :
  m = ([Compared u v],
       if length u =? length v then Ok (scaled_distance u v scale)
       else Raise DimensionMismatch) ->
  Ev (Compared u v) ->
  (length u <> length v -> Ex DimensionMismatch) ->
  (length u = length v -> sat (f (scaled_distance u v scale)) Ev Q Ex) ->
  sat (m ≫= f) Ev Q Ex.
Proof.
  intros -> Hev Hne Heq. destruct (Nat.eqb_spec (length u) (length v)) as [H|H].
  - specialize (Heq H). cbn. destruct (f _) as [tr r]. destruct Heq as [H1 H2].
    split; [constructor; assumption|exact H2].
  - split; [repeat constructor; exact Hev|apply Hne, H].
Qed.

Lemma heap_of_inputs_append hash_func (pre : list Image) heap p c :
  heap_of_inputs hash_func pre heap ->
  heap_of_inputs hash_func pre (append_duplicate heap p c).
Proof.
  intros [Hlen Hrec]. split; [rewrite append_duplicate_length; exact Hlen|].
  intros i r' Hr'.
  apply append_duplicate_lookup in Hr' as (r & Hr & Hd & Hh & _).
  rewrite Hd, Hh. apply Hrec, Hr.
Qed.

Lemma heads_insert (G1 G2 : list (list nat)) (g : list nat) (c : nat) :
  g <> [] -> map (hd 0) (G1 ++ (g ++ [c]) :: G2) = map (hd 0) (G1 ++ g :: G2).
Proof.
  intros Hg. rewrite !map_app. cbn [map]. destruct g; [congruence|reflexivity].
Qed.

(** Appending a fresh record to one already placed. *)
Lemma grows_attach_placed (R : nat -> nat -> Prop) heap G p c :
  grows R heap G -> p ∈ concat G -> c < length heap -> c ∉ concat G -> R p c ->
  exists G1 g G2,
    G = G1 ++ g :: G2 /\ p ∈ g
    /\ grows R (append_duplicate heap p c) (G1 ++ (g ++ [c]) :: G2)
    /\ concat (G1 ++ (g ++ [c]) :: G2) ≡ₚ c :: concat G
    /\ map (hd 0) (G1 ++ (g ++ [c]) :: G2) = map (hd 0) G.
Proof.
  intros H Hp Hc Hfresh HR.
  apply elem_of_concat in Hp as (g & Hg & Hp).
  apply list_elem_of_split in Hg as (G1 & G2 & ->).
  exists G1, g, G2. repeat split; [exact Hp| | |].
  - constructor; assumption.
  - apply concat_insert_perm.
  - apply heads_insert. intros ->. inversion Hp.
Qed.
End RunFacts.

Lemma take_positions_Ok (u : fingerprint) (g : list nat) :
  (forall p, p ∈ g -> p < length u) -> exists bs, take_positions u g = Ok bs.
Proof.
  induction g as [|p g IH]; intros H; [exists []; reflexivity|].
  destruct IH as [bs Hbs]; [intros q Hq; apply H; right; exact Hq|].
  destruct (lookup_lt_is_Some_2 u p) as [b Hb]; [apply H; left|].
  exists (b :: bs). cbn [take_positions]. rewrite Hb, Hbs. reflexivity.
Qed.

Lemma band_key_Ok (u : fingerprint) (g : list nat) :
  (forall p, p ∈ g -> p < length u) -> exists s, band_key u g = Ok s.
Proof.
  intros H. destruct (take_positions_Ok u g H) as [bs Hbs].
  unfold band_key. rewrite Hbs. eexists. reflexivity.
Qed.

Lemma bucket_of_app (ins1 ins2 : list (string * nat)) (s : string) :
  bucket_of (ins1 ++ ins2) s = bucket_of ins1 s ++ bucket_of ins2 s.
Proof. unfold bucket_of. rewrite filter_app, map_app. reflexivity. Qed.

Lemma bucket_of_bound (ins : list (string * nat)) (s : string) (m : nat) :
  Forall (fun kv => snd kv <= m) ins -> Forall (fun i => i <= m) (bucket_of ins s).
Proof.
  intros H. unfold bucket_of. rewrite Forall_map.
  apply Forall_forall. intros kv Hkv. apply list_elem_of_filter in Hkv as [_ Hkv].
  rewrite Forall_forall in H. apply H, Hkv.
Qed.

Lemma table_holds_insert (tbl : gmap string (list nat)) (ins : list (string * nat))
    (s : string) (c : nat) :
  table_holds tbl ins ->
  table_holds (<[s := default [] (tbl !! s) ++ [c]]> tbl) (ins ++ [(s, c)]).
Proof.
  intros H s'. rewrite bucket_of_app. unfold bucket_of at 2.
  destruct (decide (s = s')) as [<-|Hne].
  - rewrite lookup_insert_eq. cbn [default].
    rewrite filter_cons_True by reflexivity. cbn. rewrite H. reflexivity.
  - rewrite lookup_insert_ne by exact Hne.
    rewrite filter_cons_False by (cbn; congruence).
    cbn. rewrite app_nil_r. apply H.
Qed.

Section Insertions.
Context {Image : Type}.
Variable self : LSHDeduplicator Image.

Lemma insertions_from_app (i : nat) (hs1 hs2 : list fingerprint) :
  insertions_from self i (hs1 ++ hs2)
  = insertions_from self i hs1 ++ insertions_from self (i + length hs1) hs2.
Proof.
  revert i. induction hs1 as [|u hs1 IH]; intros i; cbn.
  - rewrite Nat.add_0_r. reflexivity.
  - rewrite IH, <- app_assoc.
    replace (S i + length hs1) with (i + S (length hs1)) by lia. reflexivity.
Qed.

Lemma insertions_snoc (hs : list fingerprint) (u : fingerprint) :
  insertions self (hs ++ [u])
  = insertions self hs ++ map (fun g => (key_of u g, length hs)) (_projections self).
Proof.
  unfold insertions. rewrite insertions_from_app. cbn. rewrite app_nil_r. reflexivity.
Qed.

Lemma insertions_from_bound (i : nat) (hs : list fingerprint) :
  Forall (fun kv => snd kv < i + length hs) (insertions_from self i hs).
Proof.
  revert i. induction hs as [|u hs IH]; intros i; cbn; [constructor|].
  apply Forall_app. split.
  - rewrite Forall_map. apply Forall_forall. intros; cbn; lia.
  - eapply Forall_impl; [apply IH|]. intros kv H. simpl in H. lia.
Qed.
End Insertions.

Section LSHRun.
Context {Image : Type}.
Variable self : LSHDeduplicator Image.
Variable all : list Image.
Implicit Types heap : list (HashedImage Image).

Local Abbreviation hf := (_hash_func (lsh_base self)).
Local Abbreviation hs := (LSH_hashes self all).
Local Abbreviation R := (LSH_linked self hs).
Local Abbreviation Ev := (stored_grows R).
Local Abbreviation Ex := (fun _ : exn => ~ LSH_inputs_ok self hs).

Lemma stored_hash (cur : list Image) heap i r :
  cur `prefix_of` all -> heap_of_inputs hf cur heap -> heap !! i = Some r ->
  hs !! i = Some (hash r).
Proof.
  intros Hpre [_ Hrec] Hr. destruct (Hrec i r Hr) as [Hd Hh].
  unfold LSH_hashes. rewrite lookup_map.
  rewrite (prefix_lookup_Some _ _ _ _ Hd Hpre). cbn. congruence.
Qed.

Lemma seq_snoc_perm (m : nat) (L : list nat) :
  L ≡ₚ seq 0 m -> m :: L ≡ₚ seq 0 (S m).
Proof.
  intros ->. rewrite seq_S. cbn. apply Permutation_cons_append.
Qed.

Lemma LSH_scan_bucket_sat (cur : list Image) (m : nat) (l : list nat)
    (unique : bool) heap (G : list (list nat)) :
  cur `prefix_of` all -> length cur = S m ->
  grows R heap G -> heap_of_inputs hf cur heap ->
  Forall (fun i => i <= m) l ->
  concat G ≡ₚ (if unique then seq 0 m else seq 0 (S m)) ->
  sat (LSH_scan_bucket self m l unique heap) Ev
      (fun out => exists G',
           grows R (snd out) G' /\ heap_of_inputs hf cur (snd out)
           /\ concat G' ≡ₚ (if fst out then seq 0 m else seq 0 (S m))
           /\ map (hd 0) G' = map (hd 0) G)
      Ex.
Proof.
  intros Hpre Hcur. revert unique heap G.
  induction l as [|pd l IH]; intros unique heap G Hg Hheap Hl Hperm.
  - apply sat_ret. exists G. auto.
  - apply Forall_cons in Hl as [Hpd Hl]. cbn [LSH_scan_bucket].
    destruct unique; cbn [negb]; [|apply sat_ret; exists G; auto].
    destruct (Nat.eqb_spec m pd) as [_|Hne]; [apply IH; assumption|].
    pose proof Hheap as [Hlen _]. rewrite Hcur in Hlen.
    apply sat_deref; [lia|]. intros a Ha.
    apply sat_deref; [lia|]. intros b Hb.
    pose proof (stored_hash _ _ _ _ Hpre Hheap Ha) as Hua.
    pose proof (stored_hash _ _ _ _ Hpre Hheap Hb) as Hub.
    eapply sat_compare; [apply LSH_distance_unfold|exact I| |].
    + intros Hmis [Hlens _]. apply Hmis, Hlens; eapply list_elem_of_lookup_2; eauto.
    + intros Heq.
      destruct (below_threshold (scaled_distance (hash a) (hash b) (_d self)))
        eqn:Hnear; [|apply IH; assumption].
      assert (Hlink : R pd m) by (exists (hash a), (hash b); auto).
      destruct (grows_attach_placed R heap G pd m Hg) as
        (G1 & g & G2 & -> & Hin & Hg' & Hperm' & Hheads); [| | |exact Hlink|].
      * rewrite Hperm. apply list_elem_of_In, in_seq. lia.
      * lia.
      * rewrite Hperm. intros Hin. apply list_elem_of_In, in_seq in Hin. lia.
      * eapply sat_bind; [apply sat_emit with (Q := fun _ => True);
                          [exists (G1 ++ (g ++ [m]) :: G2); exact Hg'|exact I]|].
        intros _ _. eapply sat_mono; [apply IH with (G := G1 ++ (g ++ [m]) :: G2)|..].
        -- exact Hg'.
        -- apply heap_of_inputs_append, Hheap.
        -- exact Hl.
        -- rewrite Hperm'. apply seq_snoc_perm, Hperm.
        -- auto.
        -- intros out (G' & H1 & H2 & H3 & H4). exists G'.
           split; [exact H1|]. split; [exact H2|]. split; [exact H3|congruence].
        -- auto.
Qed.

Lemma LSH_bands_sat (cur : list Image) (img : Image) (m : nat)
    (gs done : list (list nat)) (unique : bool)
    (tbl : gmap string (list nat)) heap (G : list (list nat))
    (ins0 : list (string * nat)) :
  cur `prefix_of` all -> length cur = S m -> cur !! m = Some img ->
  (forall g, g ∈ gs -> g ∈ _projections self) ->
  grows R heap G -> heap_of_inputs hf cur heap ->
  table_holds tbl (ins0 ++ map (fun g => (key_of (hf img) g, m)) done) ->
  Forall (fun kv => snd kv <= m) ins0 ->
  concat G ≡ₚ (if unique then seq 0 m else seq 0 (S m)) ->
  sat (LSH_bands self m gs unique tbl heap) Ev
      (fun out => exists G',
           grows R out.2 G' /\ heap_of_inputs hf cur out.2
           /\ table_holds out.1.2
                (ins0 ++ map (fun g => (key_of (hf img) g, m)) (done ++ gs))
           /\ concat G' ≡ₚ (if out.1.1 then seq 0 m else seq 0 (S m))
           /\ map (hd 0) G' = map (hd 0) G)
      Ex.
Proof.
  intros Hpre Hcur Himg. revert done unique tbl heap G.
  induction gs as [|g gs IH]; intros done unique tbl heap G Hgs Hg Hheap Htbl Hins Hperm.
  - apply sat_ret. exists G. rewrite app_nil_r. auto.
  - cbn [LSH_bands].
    pose proof Hheap as [Hlen Hrec]. rewrite Hcur in Hlen.
    apply sat_deref; [lia|]. intros a Ha.
    destruct (Hrec m a Ha) as [Hda Hha].
    assert (Hhash : hash a = hf img) by congruence.
    eapply sat_bind with (Q1 := fun s => key_of (hf img) g = s).
    { apply sat_lift. unfold key_of. rewrite <- Hhash.
      destruct (LSH_band_key self (hash a) g) as [s|e] eqn:Hk.
      { apply LSH_band_key_Ok in Hk as [Hk _]. rewrite Hk. reflexivity. }
      intros (_ & Hpos & Hint).
      rewrite LSH_band_key_int in Hk by (apply (Hint g), Hgs; left).
      destruct (band_key_Ok (hash a) g) as [s Hs]; [|congruence].
      intros p Hp. apply (Hpos (hash a) g p); [|apply Hgs; left|exact Hp].
      eapply list_elem_of_lookup_2, stored_hash; eassumption. }
    intros g_x Hkey.
    eapply sat_bind.
    { apply (LSH_scan_bucket_sat cur m _ unique heap G); try assumption.
      rewrite Htbl. apply bucket_of_bound.
      apply Forall_app. split; [exact Hins|].
      rewrite Forall_map. apply Forall_forall. intros; cbn; lia. }
    intros [unique' heap'] (G' & Hg' & Hheap' & Hperm' & Hheads). cbn [fst snd] in *.
    eapply sat_mono; [apply (IH (done ++ [g]) unique' _ heap' G')|..].
    + intros g' Hg'0. apply Hgs. right. exact Hg'0.
    + exact Hg'.
    + exact Hheap'.
    + rewrite map_app, app_assoc. cbn [map]. rewrite Hkey.
      apply table_holds_insert, Htbl.
    + exact Hins.
    + exact Hperm'.
    + auto.
    + intros out (G'' & H1 & H2 & H3 & H4 & H5). exists G''.
      rewrite <- app_assoc in H3. cbn [app] in H3.
      split; [exact H1|]. split; [exact H2|]. split; [exact H3|].
      split; [exact H4|congruence].
    + auto.
Qed.

Lemma LSH_loop_sat (pre rest : list Image) (st : LSH_state Image)
    (G : list (list nat)) :
  all = pre ++ rest ->
  grows R (lsh_heap st) G -> heap_of_inputs hf pre (lsh_heap st) ->
  table_holds (lsh_hash_table st) (insertions self (LSH_hashes self pre)) ->
  concat G ≡ₚ seq 0 (length pre) -> lsh_result st = map (hd 0) G ->
  sat (LSH_loop self rest st) Ev
      (fun st' => exists G',
           grows R (lsh_heap st') G' /\ heap_of_inputs hf all (lsh_heap st')
           /\ table_holds (lsh_hash_table st') (insertions self hs)
           /\ concat G' ≡ₚ seq 0 (length all)
           /\ lsh_result st' = map (hd 0) G')
      Ex.
Proof.
  revert pre st G. induction rest as [|img rest IH];
    intros pre st G Hall Hg Hheap Htbl Hperm Hres.
  - rewrite app_nil_r in Hall. subst pre. apply sat_ret. exists G. auto.
  - cbn [LSH_loop]. destruct Hheap as [Hlen Hrec].
    set (m := length (lsh_heap st)) in *.
    set (heap1 := lsh_heap st ++ [mkHashedImage img (hf img) []]).
    assert (Hg1 : grows R heap1 G) by (constructor; [exact Hg|reflexivity]).
    assert (Hheap1 : heap_of_inputs hf (pre ++ [img]) heap1).
    { split; [unfold heap1; rewrite !length_app; cbn; lia|].
      intros i r Hr. unfold heap1 in Hr.
      apply lookup_app_Some in Hr as [Hr|[Hge Hr]].
      - destruct (Hrec i r Hr) as [H1 H2]. split; [|exact H2].
        apply lookup_app_l_Some, H1.
      - fold m in Hge, Hr. destruct (i - m) as [|k] eqn:Hk;
          [|destruct k; discriminate].
        cbn in Hr. injection Hr as <-. cbn. split; [|reflexivity].
        replace i with (length pre) by lia. apply list_lookup_middle. reflexivity. }
    eapply sat_bind;
      [apply sat_emit with (Q := fun _ => True); [exists G; exact Hg1|exact I]|].
    intros _ _.
    eapply sat_bind.
    { apply (LSH_bands_sat (pre ++ [img]) img m (_projections self) [] true
               (lsh_hash_table st) heap1 G
               (insertions self (LSH_hashes self pre))).
      - exists rest. rewrite <- app_assoc. exact Hall.
      - rewrite length_app. cbn. lia.
      - rewrite Hlen. apply list_lookup_middle. reflexivity.
      - auto.
      - exact Hg1.
      - exact Hheap1.
      - cbn [map]. rewrite app_nil_r. exact Htbl.
      - eapply Forall_impl; [apply insertions_from_bound|].
        intros kv H. simpl in H. unfold LSH_hashes in H. rewrite length_map in H. lia.
      - rewrite Hlen. exact Hperm. }
    intros [[unique tbl'] heap'] (G' & Hg' & Hheap' & Htbl' & Hperm' & Hheads).
    cbn [fst snd] in *.
    assert (Hhs : LSH_hashes self (pre ++ [img]) = LSH_hashes self pre ++ [hf img])
      by (unfold LSH_hashes; rewrite map_app; reflexivity).
    assert (Hm : length (LSH_hashes self pre) = m)
      by (unfold LSH_hashes; rewrite length_map; lia).
    apply (IH (pre ++ [img]) _ (if unique then G' ++ [[m]] else G')).
    + rewrite <- app_assoc. exact Hall.
    + cbn [lsh_heap lsh_result]. destruct unique; [|exact Hg'].
      constructor; [exact Hg'| |].
      * destruct Hheap' as [Hl' _]. rewrite Hl', length_app. cbn. lia.
      * rewrite Hperm'. intros Hin. apply list_elem_of_In, in_seq in Hin. lia.
    + exact Hheap'.
    + cbn [lsh_hash_table]. rewrite Hhs, insertions_snoc, Hm. exact Htbl'.
    + rewrite length_app. cbn [length]. rewrite <- Hlen. fold m.
      replace (m + 1) with (S m) by lia.
      destruct unique; [|exact Hperm'].
      rewrite concat_snoc, Hperm', seq_S. reflexivity.
    + cbn [lsh_result]. destruct unique; [|congruence].
      rewrite map_app. cbn. congruence.
Qed.

(** The state in which the main loop ends. *)
Lemma LSH_loop_final :
  sat (LSH_loop self all LSH_initial) Ev
      (fun st' => exists G',
           grows R (lsh_heap st') G' /\ heap_of_inputs hf all (lsh_heap st')
           /\ table_holds (lsh_hash_table st') (insertions self hs)
           /\ concat G' ≡ₚ seq 0 (length all)
           /\ lsh_result st' = map (hd 0) G')
      Ex.
Proof.
  apply (LSH_loop_sat [] all LSH_initial []); cbn; auto.
  - constructor.
  - split; [reflexivity|]. intros i r Hr. discriminate.
  - intros s. reflexivity.
Qed.
End LSHRun.

(** ** From the forest to the returned groups *)

Lemma Forall2_perm_l {A B : Type} (P : A -> B -> Prop) (L L' : list A) (D : list B) :
  L ≡ₚ L' -> Forall2 P L D -> exists D', D ≡ₚ D' /\ Forall2 P L' D'.
Proof.
  intros HP. revert D.
  induction HP as [|x L L' _ IH|x y L|L L' L'' _ IH1 _ IH2]; intros D HF.
  - inversion HF; subst. exists []. split; [reflexivity|constructor].
  - inversion HF as [|? b ? D0 Hb HF0]; subst.
    destruct (IH _ HF0) as (D' & H1 & H2).
    exists (b :: D'). split; [constructor; exact H1|constructor; assumption].
  - inversion HF as [|? b1 ? D0 Hb1 HF0]; subst.
    inversion HF0 as [|? b2 ? D1 Hb2 HF1]; subst.
    exists (b2 :: b1 :: D1). split; [apply perm_swap|repeat constructor; assumption].
  - destruct (IH1 _ HF) as (D' & H1 & H2). destruct (IH2 _ H2) as (D'' & H3 & H4).
    exists D''. split; [etransitivity; eassumption|exact H4].
Qed.

Lemma Forall2_seq_lookup {A : Type} (all D : list A) :
  Forall2 (fun i x => all !! i = Some x) (seq 0 (length all)) D -> D = all.
Proof.
  intros HF. apply list_eq. intros i.
  pose proof (Forall2_length _ _ _ HF) as Hlen. rewrite length_seq in Hlen.
  destruct (decide (i < length all)) as [Hi|Hi].
  - destruct (Forall2_lookup_l _ _ _ i i HF) as (y & Hy & HP).
    + rewrite lookup_seq_lt by exact Hi. reflexivity.
    + congruence.
  - rewrite !lookup_ge_None_2 by lia. reflexivity.
Qed.

Lemma Forall2_concat {A B : Type} (P : A -> B -> Prop)
    (Ls : list (list A)) (Ds : list (list B)) :
  Forall2 (Forall2 P) Ls Ds -> Forall2 P (concat Ls) (concat Ds).
Proof.
  induction 1; cbn; [constructor|]. apply Forall2_app; assumption.
Qed.

Lemma NoDup_bounded_length (L : list nat) (n : nat) :
  NoDup L -> (forall x, x ∈ L -> x < n) -> length L <= n.
Proof.
  intros Hnd Hb.
  assert (Hincl : L ⊆ seq 0 n).
  { intros x Hx. apply list_elem_of_In, in_seq. specialize (Hb x Hx). lia. }
  pose proof (submseteq_length _ _ (NoDup_submseteq _ _ Hnd Hincl)) as Hle.
  rewrite length_seq in Hle. exact Hle.
Qed.

Section Groups.
Context {Image : Type}.
Implicit Types heap : list (HashedImage Image).

Lemma members_head fuel heap a L :
  members fuel heap a = Ok L -> hd 0 L = a /\ L <> [].
Proof.
  destruct fuel as [|fuel]; [discriminate|]. cbn [members].
  destruct (deref heap a); [|discriminate]. cbn.
  destruct (mapM _ _); [|discriminate]. cbn.
  intros H. injection H as <-. split; [reflexivity|discriminate].
Qed.

(** With room for as many activations as the store has records, [_flatten]
    returns every group. *)
Lemma flatten_all_groups (R : nat -> nat -> Prop) (limit : nat) heap
    (G : list (list nat)) (imgs : list Image) :
  grows R heap G ->
  (forall i r, heap !! i = Some r -> imgs !! i = Some (data r)) ->
  length heap <= limit ->
  exists ids groups,
    flatten_all limit heap (map (hd 0) G) = Ok groups
    /\ Forall2 (fun g L => L ≡ₚ g /\ hd 0 L = hd 0 g) G ids
    /\ Forall2 (Forall2 (fun i img => imgs !! i = Some img)) ids groups.
Proof.
  intros Hg Hdata Hlimit.
  assert (Hfuel : length (concat G) <= limit).
  { etrans; [|exact Hlimit].
    apply NoDup_bounded_length; [eapply grows_NoDup; exact Hg|].
    intros x Hx. eapply grows_bound; eassumption. }
  pose proof (grows_members R heap G Hg) as Hm.
  unfold flatten_all.
  induction Hm as [|g G' (L & HL & HP) _ IH].
  - exists [], []. repeat split; constructor.
  - destruct IH as (ids & groups & H1 & H2 & H3).
    apply (members_le _ limit) in HL; [|exact Hfuel].
    destruct (flatten_members imgs limit heap (hd 0 g) L) as (group & Hgr & Hrel);
      [intros i r _; apply Hdata|exact HL|].
    exists (L :: ids), (group :: groups). split; [|split].
    + cbn [map]. apply mapM_Ok. constructor; [exact Hgr|]. apply mapM_Ok, H1.
    + constructor; [|exact H2]. split; [exact HP|].
      exact (proj1 (members_head _ _ _ _ HL)).
    + constructor; assumption.
Qed.

(** *** The recursion limit *)

Lemma settled_mapM {A B : Type} (F F' : A -> result B) (l : list A) :
  (forall x, settled (F x) (F' x)) -> settled (mapM F l) (mapM F' l).
Proof.
  intros H. induction l as [|x l IH]; [reflexivity|]. cbn.
  specialize (H x). destruct (F x) as [y|e].
  - cbn in H. rewrite H. cbn. destruct (mapM F l) as [ys|e].
    + cbn in IH. rewrite IH. reflexivity.
    + destruct e; cbn in *; try exact I; rewrite IH; reflexivity.
  - destruct e; cbn in *; try exact I; rewrite H; reflexivity.
Qed.

Lemma _flatten_settled (fuel fuel' : nat) heap (img : nat) :
  fuel <= fuel' -> settled (_flatten fuel heap img) (_flatten fuel' heap img).
Proof.
  revert fuel' img. induction fuel as [|fuel IH]; intros fuel' img Hle; [exact I|].
  destruct fuel' as [|fuel']; [lia|]. cbn [_flatten]. unfold deref.
  destruct (heap !! img) as [r|]; [|reflexivity]. cbn.
  pose proof (settled_mapM (_flatten fuel heap) (_flatten fuel' heap) (duplicates r))
    as Hkids.
  destruct (mapM (_flatten fuel heap) (duplicates r)) as [cs|e].
  - cbn in Hkids. rewrite Hkids; [reflexivity|]. intros x. apply IH. lia.
  - assert (Hs : settled (Raise e : result (list (list Image)))
                         (mapM (_flatten fuel' heap) (duplicates r)))
      by (apply Hkids; intros x; apply IH; lia).
    destruct e; cbn in *; try exact I; rewrite Hs; reflexivity.
Qed.

Lemma flatten_all_settled (limit limit' : nat) heap (roots : list nat) :
  limit <= limit' ->
  settled (flatten_all limit heap roots) (flatten_all limit' heap roots).
Proof.
  intros Hle. unfold flatten_all. apply settled_mapM.
  intros x. apply _flatten_settled, Hle.
Qed.

(** Whatever the limit, a returned list of groups is the one a sufficient
    limit gives. *)
Lemma flatten_all_returned (R : nat -> nat -> Prop) (limit : nat) heap
    (G : list (list nat)) (imgs : list Image) (groups : list (list Image)) :
  grows R heap G ->
  (forall i r, heap !! i = Some r -> imgs !! i = Some (data r)) ->
  flatten_all limit heap (map (hd 0) G) = Ok groups ->
  exists ids,
    Forall2 (fun g L => L ≡ₚ g /\ hd 0 L = hd 0 g) G ids
    /\ Forall2 (Forall2 (fun i img => imgs !! i = Some img)) ids groups.
Proof.
  intros Hg Hdata Hrun.
  destruct (flatten_all_groups R (limit `max` length heap) heap G imgs Hg Hdata)
    as (ids & groups0 & H0 & HG & Hrel); [lia|].
  pose proof (flatten_all_settled limit (limit `max` length heap) heap (map (hd 0) G))
    as Hs.
  rewrite Hrun in Hs. cbn in Hs. rewrite Hs in H0 by lia. injection H0 as <-.
  exists ids. auto.
Qed.

(** On a store the clusterers built, [_flatten] fails only by running out
    of activations, and only when the store has more records than the
    limit. *)
Lemma flatten_all_raises (R : nat -> nat -> Prop) (limit : nat) heap
    (G : list (list nat)) (e : exn) :
  grows R heap G ->
  flatten_all limit heap (map (hd 0) G) = Raise e ->
  e = RecursionError /\ limit < length heap.
Proof.
  intros Hg Hrun.
  assert (Hdata : forall i r, heap !! i = Some r -> map data heap !! i = Some (data r)).
  { intros i r Hr. rewrite lookup_map, Hr. reflexivity. }
  split.
  - destruct (flatten_all_groups R (limit `max` length heap) heap G (map data heap)
                Hg Hdata) as (ids & groups0 & H0 & _); [lia|].
    pose proof (flatten_all_settled limit (limit `max` length heap) heap (map (hd 0) G))
      as Hs.
    rewrite Hrun in Hs. destruct e; cbn in Hs; try reflexivity;
      rewrite Hs in H0 by lia; discriminate.
  - destruct (decide (limit < length heap)) as [Hlt|Hge]; [exact Hlt|].
    destruct (flatten_all_groups R limit heap G (map data heap) Hg Hdata)
      as (ids & groups0 & H0 & _); [lia|congruence].
Qed.

Lemma groups_partition (imgs : list Image) (G ids : list (list nat))
    (groups : list (list Image)) :
  Forall2 (fun g L => L ≡ₚ g /\ hd 0 L = hd 0 g) G ids ->
  Forall2 (Forall2 (fun i img => imgs !! i = Some img)) ids groups ->
  Forall (fun g => g <> []) G ->
  concat G ≡ₚ seq 0 (length imgs) ->
  partition_of imgs ids groups.
Proof.
  intros HG Hrel Hne Hperm.
  assert (Hids : concat ids ≡ₚ seq 0 (length imgs)).
  { rewrite <- Hperm. clear -HG. induction HG as [|g L G ids [HL _] _ IH];
      [reflexivity|]. cbn. rewrite HL, IH. reflexivity. }
  assert (Hall : concat groups ≡ₚ imgs).
  { destruct (Forall2_perm_l _ _ _ _ Hids (Forall2_concat _ _ _ Hrel))
      as (D' & HD & HF).
    apply Forall2_seq_lookup in HF. subst D'. exact HD. }
  split; [exact Hrel|]. split; [exact Hids|]. split; [|split].
  - clear -HG Hrel Hne. revert groups Hrel.
    induction HG as [|g L G ids [HL _] _ IH]; intros groups Hrel.
    + inversion Hrel. constructor.
    + inversion Hrel as [|? group ? groups' Hgr Hrest]; subst.
      apply Forall_cons in Hne as [Hg Hne].
      constructor; [|apply IH; assumption].
      intros ->. inversion Hgr; subst. apply Hg.
      apply Permutation_nil. exact HL.
  - rewrite Hall. reflexivity.
  - exact Hall.
Qed.
End Groups.

(** ** The exact clusterer *)

Section BFRun.
Context {Image : Type}.
Variable self : Deduplicator Image.
Variable imgs : list Image.
Implicit Types heap : list (HashedImage Image).

Local Abbreviation hf := (_hash_func self).
Local Abbreviation hs := (BF_hashes self imgs).
Local Abbreviation n := (length imgs).
Local Abbreviation R := (BF_linked hs).
Local Abbreviation Ev := (stored_grows R).
Local Abbreviation Ex := (fun _ : exn => ~ uniform_length hs).

Lemma BF_stored_hash heap i r :
  heap_of_inputs hf imgs heap -> heap !! i = Some r -> hs !! i = Some (hash r).
Proof.
  intros [_ Hrec] Hr. destruct (Hrec i r Hr) as [Hd Hh].
  unfold BF_hashes. rewrite lookup_map, Hd. cbn. congruence.
Qed.

Lemma matched_marks_insert (matched : list bool) (G G' : list (list nat)) (c : nat) :
  c < n -> matched_marks n matched G ->
  (forall i, i ∈ concat G' <-> i ∈ concat G \/ i = c) ->
  matched_marks n (<[c := true]> matched) G'.
Proof.
  intros Hc [Hlen Hm] Hiff. split; [rewrite length_insert; exact Hlen|].
  intros i Hi. rewrite Hiff, <- (Hm i Hi).
  destruct (decide (i = c)) as [->|Hne].
  - rewrite (nth_lookup_Some _ _ _ true); [tauto|].
    apply list_lookup_insert_eq. lia.
  - assert (Hsame : nth i (<[c := true]> matched) false = nth i matched false).
    { destruct (lookup_lt_is_Some_2 matched i) as [b Hb]; [lia|].
      rewrite (nth_lookup_Some _ _ _ b), (nth_lookup_Some _ _ _ b); auto.
      rewrite list_lookup_insert_ne; auto. }
    rewrite Hsame. tauto.
Qed.

Lemma matched_marks_set (matched : list bool) (Gd : list (list nat))
    (g : list nat) (c : nat) :
  c < n -> matched_marks n matched (Gd ++ [g]) ->
  matched_marks n (<[c := true]> matched) (Gd ++ [g ++ [c]]).
Proof.
  intros Hc Hm. apply (matched_marks_insert matched (Gd ++ [g])); [exact Hc|exact Hm|].
  intros i. rewrite !concat_snoc, !elem_of_app, list_elem_of_singleton. tauto.
Qed.

Lemma BF_scan_sat (img : nat) (range : list nat) heap (matched : list bool)
    (queue : list nat) (Gd : list (list nat)) (g : list nat) :
  grows R heap (Gd ++ [g]) -> heap_of_inputs hf imgs heap ->
  matched_marks n matched (Gd ++ [g]) -> img ∈ g ->
  Forall (fun i => i < n) range ->
  sat (BF_scan img range heap matched queue) Ev
      (fun out => exists new,
           grows R out.1.1 (Gd ++ [g ++ new])
           /\ heap_of_inputs hf imgs out.1.1
           /\ matched_marks n out.1.2 (Gd ++ [g ++ new])
           /\ out.2 = queue ++ new
           /\ forall j, j ∈ range -> R img j -> j ∈ concat (Gd ++ [g ++ new]))
      Ex.
Proof.
  intros Hg Hheap Hm Himg Hrange.
  revert heap matched queue g Hg Hheap Hm Himg.
  induction range as [|i range IH]; intros heap matched queue g Hg Hheap Hm Himg.
  - apply sat_ret. exists []. rewrite !app_nil_r. cbn [fst snd].
    split; [exact Hg|]. split; [exact Hheap|]. split; [exact Hm|].
    split; [reflexivity|]. intros j Hj. inversion Hj.
  - apply Forall_cons in Hrange as [Hi Hrange]. cbn [BF_scan].
    assert (Hkeep : forall g',
               (forall j, j ∈ range -> R img j -> j ∈ concat (Gd ++ [g'])) ->
               i ∈ concat (Gd ++ [g']) \/ ~ R img i ->
               forall j, j ∈ i :: range -> R img j -> j ∈ concat (Gd ++ [g'])).
    { intros g' Hrest Hhere j Hj HR.
      apply elem_of_cons in Hj as [->|Hj]; [|auto].
      destruct Hhere; [assumption|contradiction]. }
    assert (Hplaced : img ∈ concat (Gd ++ [g])).
    { rewrite concat_snoc. apply elem_of_app. auto. }
    assert (Hsub : forall new x, x ∈ concat (Gd ++ [g]) ->
                                 x ∈ concat (Gd ++ [g ++ new])).
    { intros new x. rewrite !concat_snoc, !elem_of_app. tauto. }
    destruct ((img =? i) || nth i matched false) eqn:Hskip.
    + eapply sat_mono; [apply (IH Hrange heap matched queue g); assumption|auto| |auto].
      intros out (new & H1 & H2 & H3 & H4 & H5). exists new.
      split; [exact H1|]. split; [exact H2|]. split; [exact H3|].
      split; [exact H4|].
      apply (Hkeep _ H5). left. apply Hsub.
      apply orb_true_iff in Hskip as [Hskip|Hskip].
      * apply Nat.eqb_eq in Hskip. subst i. exact Hplaced.
      * apply Hm; assumption.
    + apply orb_false_iff in Hskip as [Hne Hun]. apply Nat.eqb_neq in Hne.
      pose proof Hheap as [Hlen _].
      pose proof (grows_bound R _ _ img Hg Hplaced) as Himg_lt.
      apply sat_deref; [exact Himg_lt|]. intros a Ha.
      apply sat_deref; [lia|]. intros b Hb.
      pose proof (BF_stored_hash _ _ _ Hheap Ha) as Hua.
      pose proof (BF_stored_hash _ _ _ Hheap Hb) as Hub.
      eapply sat_compare; [apply BF_distance_unfold|exact I| |].
      * intros Hmis Hlens. apply Hmis, Hlens; eapply list_elem_of_lookup_2; eauto.
      * intros Heq.
        destruct (below_threshold (scaled_distance (hash a) (hash b) 64)) eqn:Hnear.
        -- assert (Hlink : R img i) by (exists (hash a), (hash b); auto).
           assert (Hfresh : i ∉ concat (Gd ++ [g])).
           { intros Hin. apply Hm in Hin; [|exact Hi]. congruence. }
           assert (Hg' : grows R (append_duplicate heap img i) (Gd ++ [g ++ [i]])).
           { apply (grows_attach R heap Gd g [] img i); auto. lia. }
           eapply sat_bind;
             [apply sat_emit with (Q := fun _ => True);
              [exists (Gd ++ [g ++ [i]]); exact Hg'|exact I]|].
           intros _ _.
           eapply sat_mono;
             [apply (IH Hrange _ (<[i := true]> matched) (queue ++ [i]) (g ++ [i]))
             |auto| |auto].
           ++ exact Hg'.
           ++ apply heap_of_inputs_append, Hheap.
           ++ apply matched_marks_set; assumption.
           ++ apply elem_of_app. auto.
           ++ intros out (new & H1 & H2 & H3 & H4 & H5). exists (i :: new).
              replace (g ++ i :: new) with ((g ++ [i]) ++ new)
                by (rewrite <- app_assoc; reflexivity).
              split; [exact H1|]. split; [exact H2|]. split; [exact H3|].
              split; [rewrite H4, <- app_assoc; reflexivity|].
              apply (Hkeep _ H5). left.
              rewrite concat_snoc, !elem_of_app, list_elem_of_singleton. auto.
        -- eapply sat_mono;
             [apply (IH Hrange heap matched queue g); assumption|auto| |auto].
           intros out (new & H1 & H2 & H3 & H4 & H5). exists new.
           split; [exact H1|]. split; [exact H2|]. split; [exact H3|].
           split; [exact H4|].
           apply (Hkeep _ H5). right.
           intros (u & v & Hu & Hv & Huv). unfold BF_near in Huv. congruence.
Qed.
End BFRun.

Lemma all_matched (matched : list bool) (i : nat) :
  forallb (fun b : bool => b) matched = true -> i < length matched ->
  nth i matched false = true.
Proof.
  intros H Hi. rewrite forallb_forall in H. apply H, nth_In, Hi.
Qed.

Lemma unmatched_head (matched : list bool) (sp : nat) (rest : list nat) :
  unmatched_indices matched = sp :: rest ->
  sp < length matched /\ nth sp matched false = false.
Proof.
  intros H. assert (Hin : sp ∈ unmatched_indices matched) by (rewrite H; left).
  unfold unmatched_indices in Hin. apply list_elem_of_filter in Hin as [H1 H2].
  apply list_elem_of_In, in_seq in H2. split; [lia|exact H1].
Qed.

Lemma some_unmatched (matched : list bool) :
  forallb (fun b : bool => b) matched = false ->
  exists sp rest, unmatched_indices matched = sp :: rest.
Proof.
  intros H. destruct (unmatched_indices matched) as [|sp rest] eqn:Hu; [|eauto].
  exfalso. assert (Hall : forallb (fun b : bool => b) matched = true); [|congruence].
  apply forallb_forall. intros b Hb.
  destruct (In_nth _ _ false Hb) as (i & Hi & <-).
  destruct (nth i matched false) eqn:Hn; [reflexivity|].
  assert (Hin : i ∈ unmatched_indices matched).
  { unfold unmatched_indices. apply list_elem_of_filter. split; [exact Hn|].
    apply list_elem_of_In, in_seq. lia. }
  rewrite Hu in Hin. inversion Hin.
Qed.

Section BFLoops.
Context {Image : Type}.
Variable self : Deduplicator Image.
Variable imgs : list Image.
Implicit Types heap : list (HashedImage Image).

Local Abbreviation hf := (_hash_func self).
Local Abbreviation hs := (BF_hashes self imgs).
Local Abbreviation n := (length imgs).
Local Abbreviation R := (BF_linked hs).
Local Abbreviation Ev := (stored_grows R).
Local Abbreviation Ex := (fun _ : exn => ~ uniform_length hs).

Lemma placed_count heap (G : list (list nat)) :
  grows R heap G -> heap_of_inputs hf imgs heap -> length (concat G) <= n.
Proof.
  intros Hg [Hlen _]. rewrite <- Hlen.
  apply NoDup_bounded_length; [eapply grows_NoDup; exact Hg|].
  intros x Hx. eapply grows_bound; eassumption.
Qed.

Lemma BF_drain_sat (fuel : nat) heap (matched : list bool) (queue : list nat)
    (Gd : list (list nat)) (g : list nat) :
  grows R heap (Gd ++ [g]) -> heap_of_inputs hf imgs heap ->
  matched_marks n matched (Gd ++ [g]) ->
  Forall (fun i => i ∈ g) queue ->
  (forall i j, i ∈ g -> i ∉ queue -> j < n -> R i j -> j ∈ concat (Gd ++ [g])) ->
  length queue + (n - length (concat (Gd ++ [g]))) <= fuel ->
  g <> [] ->
  sat (BF_drain fuel heap matched queue) Ev
      (fun out => out.2 = []
           /\ exists g',
             grows R out.1.1 (Gd ++ [g']) /\ heap_of_inputs hf imgs out.1.1
             /\ matched_marks n out.1.2 (Gd ++ [g'])
             /\ hd 0 g' = hd 0 g
             /\ forall i j, i ∈ g' -> j < n -> R i j -> j ∈ concat (Gd ++ [g']))
      Ex.
Proof.
  revert heap matched queue g.
  induction fuel as [|fuel IH];
    intros heap matched queue g Hg Hheap Hm Hq Hclosed Hfuel Hne;
    destruct queue as [|img queue].
  - apply sat_ret. split; [reflexivity|]. exists g. cbn [fst snd].
    split; [exact Hg|]. split; [exact Hheap|]. split; [exact Hm|].
    split; [reflexivity|]. intros i j Hi Hj HR.
    apply (Hclosed i j); auto. intros H; inversion H.
  - cbn [length] in Hfuel. lia.
  - apply sat_ret. split; [reflexivity|]. exists g. cbn [fst snd].
    split; [exact Hg|]. split; [exact Hheap|]. split; [exact Hm|].
    split; [reflexivity|]. intros i j Hi Hj HR.
    apply (Hclosed i j); auto. intros H; inversion H.
  - cbn [BF_drain]. apply Forall_cons in Hq as [Himg Hq].
    pose proof Hheap as [Hlen _].
    eapply sat_bind.
    { apply (BF_scan_sat self imgs img (seq 0 (length heap)) heap matched queue Gd g);
        try assumption.
      apply Forall_forall. intros i Hi. apply list_elem_of_In, in_seq in Hi. lia. }
    intros [[heap' matched'] queue'] (new & Hg' & Hheap' & Hm' & Hq' & Hscan).
    cbn [fst snd] in *. subst queue'.
    assert (Hcount : length (concat (Gd ++ [g ++ new]))
                     = length (concat (Gd ++ [g])) + length new).
    { rewrite !concat_snoc, !length_app. lia. }
    pose proof (placed_count _ _ Hg' Hheap') as Hle.
    eapply sat_mono; [apply (IH heap' matched' (queue ++ new) (g ++ new))|auto| |auto].
    + exact Hg'.
    + exact Hheap'.
    + exact Hm'.
    + apply Forall_app. split.
      * eapply Forall_impl; [exact Hq|]. intros x Hx. apply elem_of_app. auto.
      * apply Forall_forall. intros x Hx. apply elem_of_app. auto.
    + intros i j Hi Hnq Hj HR.
      apply not_elem_of_app in Hnq as [Hnq Hnew].
      apply elem_of_app in Hi as [Hi|Hi]; [|contradiction].
      destruct (decide (i = img)) as [->|Hne'].
      * apply Hscan; [|exact HR]. apply list_elem_of_In, in_seq. lia.
      * assert (Hold : j ∈ concat (Gd ++ [g])).
        { apply (Hclosed i j); try assumption.
          intros Hin. apply elem_of_cons in Hin as [Hin|Hin]; contradiction. }
        revert Hold. rewrite !concat_snoc, !elem_of_app. tauto.
    + rewrite length_app, Hcount. cbn [length] in Hfuel. lia.
    + destruct g; [congruence|discriminate].
    + intros out (Hout & g' & H1 & H2 & H3 & H4 & H5).
      split; [exact Hout|]. exists g'.
      split; [exact H1|]. split; [exact H2|]. split; [exact H3|].
      split; [|exact H5]. rewrite H4. destruct g; [congruence|reflexivity].
Qed.

Lemma prefix_closed_snoc (G : list (list nat)) (g' : list nat) :
  prefix_closed R n G ->
  (forall i j, i ∈ g' -> j < n -> R i j -> j ∈ concat (G ++ [g'])) ->
  prefix_closed R n (G ++ [g']).
Proof.
  intros HPC Hlast G1 G2 i j HG Hi Hj HR.
  destruct G2 as [|x G2 _] using rev_ind.
  - rewrite app_nil_r in HG. subst G1.
    rewrite concat_snoc in Hi. apply elem_of_app in Hi as [Hi|Hi].
    + rewrite concat_snoc. apply elem_of_app. left.
      apply (HPC G [] i j); auto. rewrite app_nil_r. reflexivity.
    + apply (Hlast i j); assumption.
  - rewrite app_assoc in HG. apply app_inj_tail in HG as [HG _].
    apply (HPC G1 G2 i j); auto.
Qed.

Lemma BF_loop_sat (fuel : nat) heap (matched : list bool) (result : list nat)
    (G : list (list nat)) :
  grows R heap G -> heap_of_inputs hf imgs heap ->
  matched_marks n matched G -> result = map (hd 0) G ->
  prefix_closed R n G -> n - length (concat G) <= fuel ->
  sat (BF_loop fuel heap matched [] result) Ev
      (fun out => exists G',
           grows R out.1 G' /\ heap_of_inputs hf imgs out.1
           /\ out.2 = map (hd 0) G'
           /\ concat G' ≡ₚ seq 0 n
           /\ prefix_closed R n G')
      Ex.
Proof.
  revert heap matched result G.
  assert (Hdone : forall heap matched result G,
             grows R heap G -> heap_of_inputs hf imgs heap ->
             matched_marks n matched G -> result = map (hd 0) G ->
             prefix_closed R n G ->
             forallb (fun b : bool => b) matched = true ->
             sat (mret (heap, result) : traced (Image := Image) _) Ev
                 (fun out => exists G',
                      grows R out.1 G' /\ heap_of_inputs hf imgs out.1
                      /\ out.2 = map (hd 0) G'
                      /\ concat G' ≡ₚ seq 0 n
                      /\ prefix_closed R n G')
                 Ex).
  { intros heap matched result G Hg Hheap [Hlen Hm] Hres HPC Hall.
    apply sat_ret. exists G. cbn [fst snd].
    split; [exact Hg|]. split; [exact Hheap|]. split; [exact Hres|].
    split; [|exact HPC].
    apply NoDup_Permutation; [eapply grows_NoDup; exact Hg|apply NoDup_seq|].
    intros x. rewrite (list_elem_of_In (seq 0 n) x), in_seq. split.
    - intros Hx. destruct Hheap as [Hl _]. rewrite <- Hl.
      pose proof (grows_bound R _ _ x Hg Hx). lia.
    - intros Hx. apply Hm; [lia|]. apply all_matched; [exact Hall|lia]. }
  assert (Hmore : forall heap matched G,
             grows R heap G -> heap_of_inputs hf imgs heap ->
             matched_marks n matched G ->
             forallb (fun b : bool => b) matched = false ->
             exists sp rest, unmatched_indices matched = (sp :: rest)
                             /\ sp < n /\ (sp ∉ concat G)
                             /\ length (concat G) < n).
  { intros heap matched G Hg Hheap [Hlen Hm] Hall.
    destruct (some_unmatched matched Hall) as (sp & rest & Hu).
    destruct (unmatched_head _ _ _ Hu) as [Hsp Hun]. rewrite Hlen in Hsp.
    assert (Hfresh : sp ∉ concat G).
    { intros Hin. apply Hm in Hin; [|exact Hsp]. congruence. }
    exists sp, rest. repeat split; [exact Hu|exact Hsp|exact Hfresh|].
    assert (Hle : length (sp :: concat G) <= n).
    { apply NoDup_bounded_length.
      - constructor; [exact Hfresh|eapply grows_NoDup; exact Hg].
      - intros x Hx. apply elem_of_cons in Hx as [->|Hx]; [exact Hsp|].
        destruct Hheap as [Hl _]. rewrite <- Hl. eapply grows_bound; eassumption. }
    cbn [length] in Hle. lia. }
  induction fuel as [|fuel IH];
    intros heap matched result G Hg Hheap Hm Hres HPC Hfuel; cbn [BF_loop];
    destruct (forallb (fun b : bool => b) matched) eqn:Hall;
    try (eapply Hdone; eassumption).
  - destruct (Hmore _ _ _ Hg Hheap Hm Hall) as (sp & rest & _ & _ & _ & Hlt). lia.
  - destruct (Hmore _ _ _ Hg Hheap Hm Hall) as (sp & rest & -> & Hsp & Hfresh & Hlt).
    pose proof Hheap as [Hlen _].
    assert (Hg1 : grows R heap (G ++ [[sp]])) by (constructor; auto; lia).
    eapply sat_bind.
    { apply (BF_drain_sat (length heap) heap (<[sp := true]> matched) ([] ++ [sp])
                          G [sp]).
      - exact Hg1.
      - exact Hheap.
      - apply (matched_marks_insert imgs matched G); [exact Hsp|exact Hm|].
        intros i. rewrite concat_snoc, elem_of_app, list_elem_of_singleton. tauto.
      - cbn. repeat constructor.
      - intros i j Hi Hni. cbn in Hni. contradiction.
      - rewrite concat_snoc, !length_app, Hlen. cbn [length app]. lia.
      - discriminate. }
    intros [[heap' matched'] queue'] (Hq & g' & Hg' & Hheap' & Hm' & Hhd & Hcl).
    cbn [fst snd] in *. subst queue'.
    apply (IH heap' matched' (result ++ [sp]) (G ++ [g'])).
    + exact Hg'.
    + exact Hheap'.
    + exact Hm'.
    + rewrite map_app. cbn. rewrite Hhd. cbn. congruence.
    + apply prefix_closed_snoc; assumption.
    + rewrite concat_snoc, length_app.
      assert (g' <> []).
      { pose proof (grows_nonempty R _ _ Hg') as Hne.
        apply Forall_app in Hne as [_ Hne]. apply Forall_cons in Hne as [Hne _].
        exact Hne. }
      destruct g'; [congruence|]. cbn [length]. lia.
Qed.
End BFLoops.

(** ** Whole runs *)

Lemma chain_perm (R : nat -> nat -> Prop) (g L : list nat) (a b : nat) :
  L ≡ₚ g -> chain R g a b -> chain R L a b.
Proof.
  intros HP. apply chain_mono. intros x Hx. rewrite HP. exact Hx.
Qed.

Lemma chains_transfer (R : nat -> nat -> Prop) (G ids : list (list nat)) :
  Forall2 (fun g L => L ≡ₚ g /\ hd 0 L = hd 0 g) G ids ->
  Forall (fun g => forall x, x ∈ g -> chain R g (hd 0 g) x) G ->
  Forall (fun L => forall x, x ∈ L -> chain R L (hd 0 L) x) ids.
Proof.
  induction 1 as [|g L G ids [HP Hhd] _ IH]; intros HG; [constructor|].
  apply Forall_cons in HG as [Hg HG]. constructor; [|apply IH, HG].
  intros x Hx. rewrite Hhd. apply (chain_perm R g L); [exact HP|].
  apply Hg. rewrite <- HP. exact Hx.
Qed.


Section LSHWhole.
Context {Image : Type}.
Variable limit : nat.
Variable self : LSHDeduplicator Image.
Variable imgs : list Image.

Lemma LSH_deduplicate_sat :
  sat (LSH_deduplicate limit self imgs)
      (stored_grows (LSH_linked self (LSH_hashes self imgs)))
      (fun groups => exists ids,
           partition_of imgs ids groups
           /\ Forall (fun L => forall x, x ∈ L ->
                        chain (LSH_linked self (LSH_hashes self imgs)) L (hd 0 L) x)
                     ids)
      (fun e => ~ LSH_inputs_ok self (LSH_hashes self imgs)
                \/ (e = RecursionError /\ limit < length imgs)).
Proof.
  unfold LSH_deduplicate. eapply sat_bind.
  { eapply sat_mono; [apply LSH_loop_final|auto|intros st H; exact H|].
    intros e H. left. exact H. }
  intros st (G & Hg & Hheap & _ & Hperm & Hres). apply sat_lift. rewrite Hres.
  destruct (flatten_all limit (lsh_heap st) (map (hd 0) G)) as [groups|e] eqn:Hf.
  - destruct (flatten_all_returned _ limit _ G imgs groups Hg) as (ids & HG & Hrel);
      [intros i r Hr; apply (proj2 Hheap i r Hr)|exact Hf|].
    exists ids. split.
    + eapply groups_partition; try eassumption.
      eapply grows_nonempty; exact Hg.
    + eapply chains_transfer; [exact HG|]. eapply grows_chain; exact Hg.
  - right. destruct (flatten_all_raises _ limit _ G e Hg Hf) as [-> Hlt].
    split; [reflexivity|]. rewrite <- (proj1 Hheap). exact Hlt.
Qed.
End LSHWhole.

Section BFWhole.
Context {Image : Type}.
Variable limit : nat.
Variable self : Deduplicator Image.
Variable imgs : list Image.

Lemma BF_initial_heap :
  heap_of_inputs (_hash_func self) imgs
    (map (fun img => mkHashedImage img (_hash_func self img) []) imgs).
Proof.
  split; [apply length_map|]. intros i r Hr.
  rewrite lookup_map in Hr. destruct (imgs !! i) as [img|]; [|discriminate].
  cbn in Hr. injection Hr as <-. cbn. auto.
Qed.

Lemma BF_deduplicate_sat :
  sat (BF_deduplicate limit self imgs)
      (stored_grows (BF_linked (BF_hashes self imgs)))
      (fun groups => exists G ids,
           Forall2 (fun g L => L ≡ₚ g /\ hd 0 L = hd 0 g) G ids
           /\ NoDup (concat G)
           /\ prefix_closed (BF_linked (BF_hashes self imgs)) (length imgs) G
           /\ partition_of imgs ids groups
           /\ Forall (fun L => forall x, x ∈ L ->
                        chain (BF_linked (BF_hashes self imgs)) L (hd 0 L) x)
                     ids)
      (fun e => ~ uniform_length (BF_hashes self imgs)
                \/ (e = RecursionError /\ limit < length imgs)).
Proof.
  unfold BF_deduplicate.
  assert (Hg0 : grows (BF_linked (BF_hashes self imgs))
                  (map (fun img => mkHashedImage img (_hash_func self img) []) imgs) []).
  { apply grows_leaves. rewrite Forall_map. apply Forall_forall. reflexivity. }
  eapply sat_bind;
    [apply sat_emit with (Q := fun _ => True); [exists []; exact Hg0|exact I]|].
  intros _ _. eapply sat_bind.
  { eapply sat_mono;
      [apply (BF_loop_sat self imgs (length imgs) _ _ [] [])|auto
      |intros out H; exact H|intros e H; left; exact H].
    - exact Hg0.
    - apply BF_initial_heap.
    - split; [apply length_replicate|]. intros i Hi. cbn.
      rewrite (nth_lookup_Some _ _ _ false) by (apply lookup_replicate_2; exact Hi).
      split; [discriminate|]. intros H; inversion H.
    - reflexivity.
    - intros G1 G2 i j HG Hi. symmetry in HG. apply app_eq_nil in HG as [-> _].
      inversion Hi.
    - cbn. lia. }
  intros [heap result] (G & Hg & Hheap & Hres & Hperm & HPC). cbn [fst snd] in *.
  apply sat_lift. rewrite Hres.
  destruct (flatten_all limit heap (map (hd 0) G)) as [groups|e] eqn:Hf.
  - destruct (flatten_all_returned _ limit _ G imgs groups Hg) as (ids & HG & Hrel);
      [intros i r Hr; apply (proj2 Hheap i r Hr)|exact Hf|].
    exists G, ids.
    split; [exact HG|]. split; [eapply grows_NoDup; exact Hg|].
    split; [exact HPC|]. split.
    + eapply groups_partition; try eassumption.
      eapply grows_nonempty; exact Hg.
    + eapply chains_transfer; [exact HG|]. eapply grows_chain; exact Hg.
  - right. destruct (flatten_all_raises _ limit _ G e Hg Hf) as [-> Hlt].
    split; [reflexivity|]. rewrite <- (proj1 Hheap). exact Hlt.
Qed.
End BFWhole.

(** ** Checks *)

Lemma uniform_lengthb_spec (hs : list fingerprint) :
  uniform_lengthb hs = true -> uniform_length hs.
Proof.
  intros H u v Hu Hv. unfold uniform_lengthb in H. rewrite forallb_forall in H.
  apply list_elem_of_In in Hu, Hv. specialize (H u Hu).
  rewrite forallb_forall in H. apply Nat.eqb_eq, H, Hv.
Qed.


Lemma sat_Ok {Image A : Type} (m : traced (Image := Image) A) Ev (Q : A -> Prop)
    (P : Prop) :
  sat m Ev Q (fun _ => ~ P) -> P -> exists a, snd m = Ok a /\ Q a.
Proof.
  intros [_ H] HP. destruct (snd m) as [a|e]; [eauto|contradiction].
Qed.

(** ** Totality of grouping *)




(** ** The duplicates relation is a forest *)

(** C8: every store either clusterer passes through, from the creation of the
    records to the last append, is a forest: no record is listed twice among
    the duplicates lists, and no chain of duplicates returns to its start. *)
Theorem duplicates_form_forest {Image : Type} (limit : nat)
    (lsh : LSHDeduplicator Image) (bf : Deduplicator Image) (imgs : list Image) :
  Forall stored_forest (fst (LSH_deduplicate limit lsh imgs))
  /\ Forall stored_forest (fst (BF_deduplicate limit bf imgs)).
Proof.
  split.
  - destruct (LSH_deduplicate_sat limit lsh imgs) as [H _].
    eapply Forall_impl; [exact H|]. intros [u v|heap]; [auto|].
    intros [G HG]. eapply grows_is_forest; exact HG.
  - destruct (BF_deduplicate_sat limit bf imgs) as [H _].
    eapply Forall_impl; [exact H|]. intros [u v|heap]; [auto|].
    intros [G HG]. eapply grows_is_forest; exact HG.
Qed.

(** The stores recorded by the two sample runs: creation of the records, then
    one append per duplicate found. *)
Example sample_stores :
  recorded_duplicates
    (fst (LSH_deduplicate sample_limit (lsh_default chain_hash) [0; 1; 2]))
  = [[[]]; [[]; []]; [[1]; []]; [[1]; []; []]; [[1]; [2]; []]]
  /\ recorded_duplicates
       (fst (BF_deduplicate sample_limit (mkDeduplicator chain_hash) [0; 1; 2]))
     = [[[]; []; []]; [[1]; []; []]; [[1]; [2]; []]].
Proof. split; vm_compute; reflexivity. Qed.

(** ** Fingerprints of unequal length *)

Lemma hamming_mismatch (u v : fingerprint) :
  length u <> length v -> hamming u v = Raise DimensionMismatch.
Proof.
  intros H. unfold hamming. destruct (Nat.eqb_spec (length u) (length v)); tauto.
Qed.

Section Mismatch.
Context {Image : Type}.
Implicit Types heap : list (HashedImage Image).

Lemma aom_ret {A : Type} (a : A) : aborts_on_mismatch (Image := Image) (mret a).
Proof. left. constructor. Qed.

Lemma aom_lift {A : Type} (r : result A) : aborts_on_mismatch (Image := Image) (lift r).
Proof. left. constructor. Qed.

Lemma aom_raise {A : Type} (e : exn) :
  aborts_on_mismatch (Image := Image) (raise (A := A) e).
Proof. left. constructor. Qed.

Lemma aom_stored heap : aborts_on_mismatch (emit (Stored heap)).
Proof. left. repeat constructor. Qed.

Lemma aom_bind {A B : Type} (m : traced (Image := Image) A) (f : A -> traced B) :
  aborts_on_mismatch m -> (forall a, aborts_on_mismatch (f a)) ->
  aborts_on_mismatch (m ≫= f).
Proof.
  intros Hm Hf. destruct m as [tr [a|e]]; cbn.
  - specialize (Hf a). destruct (f a) as [tr' r].
    destruct Hm as [Hm|Hm]; [|discriminate].
    destruct Hf as [Hf|Hf]; [left|right; exact Hf].
    apply Forall_app; auto.
  - destruct Hm as [Hm|Hm]; [left; exact Hm|right].
    cbn in Hm. injection Hm as ->. reflexivity.
Qed.

Lemma aom_compare (m : traced (Image := Image) Float64.t) (u v : fingerprint)
    (scale : nat) :
  m = ([Compared u v],
       if length u =? length v then Ok (scaled_distance u v scale)
       else Raise DimensionMismatch) ->
  aborts_on_mismatch m.
Proof.
  intros ->. destruct (Nat.eqb_spec (length u) (length v)) as [H|H].
  - left. repeat constructor. exact H.
  - right. reflexivity.
Qed.

Lemma LSH_scan_bucket_aom (self : LSHDeduplicator Image) m l unique heap :
  aborts_on_mismatch (LSH_scan_bucket self m l unique heap).
Proof.
  revert unique heap. induction l as [|pd l IH]; intros unique heap;
    cbn [LSH_scan_bucket]; [apply aom_ret|].
  destruct (negb unique); [apply aom_ret|].
  destruct (m =? pd); [apply IH|].
  apply aom_bind; [apply aom_lift|]. intros a.
  apply aom_bind; [apply aom_lift|]. intros b.
  apply aom_bind; [eapply aom_compare, LSH_distance_unfold|]. intros distance.
  destruct (below_threshold distance); [|apply IH].
  apply aom_bind; [apply aom_stored|]. intros _. apply IH.
Qed.

Lemma LSH_bands_aom (self : LSHDeduplicator Image) m gs unique tbl heap :
  aborts_on_mismatch (LSH_bands self m gs unique tbl heap).
Proof.
  revert unique tbl heap. induction gs as [|g gs IH]; intros unique tbl heap;
    cbn [LSH_bands]; [apply aom_ret|].
  apply aom_bind; [apply aom_lift|]. intros a.
  apply aom_bind; [apply aom_lift|]. intros g_x.
  apply aom_bind; [apply LSH_scan_bucket_aom|]. intros [unique' heap']. apply IH.
Qed.

Lemma LSH_loop_aom (self : LSHDeduplicator Image) (imgs : list Image) st :
  aborts_on_mismatch (LSH_loop self imgs st).
Proof.
  revert st. induction imgs as [|img imgs IH]; intros st;
    cbn [LSH_loop]; [apply aom_ret|].
  apply aom_bind; [apply aom_stored|]. intros _.
  apply aom_bind; [apply LSH_bands_aom|]. intros [[unique tbl] heap]. apply IH.
Qed.

Lemma BF_scan_aom img range heap matched queue :
  aborts_on_mismatch (BF_scan (Image := Image) img range heap matched queue).
Proof.
  revert heap matched queue. induction range as [|i range IH];
    intros heap matched queue; cbn [BF_scan]; [apply aom_ret|].
  destruct ((img =? i) || nth i matched false); [apply IH|].
  apply aom_bind; [apply aom_lift|]. intros a.
  apply aom_bind; [apply aom_lift|]. intros b.
  apply aom_bind; [eapply aom_compare, BF_distance_unfold|]. intros distance.
  destruct (below_threshold distance); [|apply IH].
  apply aom_bind; [apply aom_stored|]. intros _. apply IH.
Qed.

Lemma BF_drain_aom fuel heap matched queue :
  aborts_on_mismatch (BF_drain (Image := Image) fuel heap matched queue).
Proof.
  revert heap matched queue. induction fuel as [|fuel IH];
    intros heap matched [|img queue]; cbn [BF_drain];
    try apply aom_ret; try apply aom_raise.
  apply aom_bind; [apply BF_scan_aom|]. intros [[heap' matched'] queue']. apply IH.
Qed.

Lemma BF_loop_aom fuel heap matched queue result :
  aborts_on_mismatch (BF_loop (Image := Image) fuel heap matched queue result).
Proof.
  revert heap matched queue result. induction fuel as [|fuel IH];
    intros heap matched queue result; cbn [BF_loop];
    destruct (forallb (fun b : bool => b) matched);
    try apply aom_ret; try apply aom_raise.
  destruct (unmatched_indices matched) as [|sp rest]; [apply aom_raise|].
  apply aom_bind; [apply BF_drain_aom|]. intros [[heap' matched'] queue']. apply IH.
Qed.

(** C7: whenever a run of either clusterer compares two fingerprints of
    unequal length, the comparison raises [DimensionMismatch] and the run
    returns that error instead of groups. *)
Theorem mismatch_aborts (limit : nat) (lsh : LSHDeduplicator Image)
    (bf : Deduplicator Image) (imgs : list Image) (u v : fingerprint) :
  length u <> length v ->
  hamming u v = Raise DimensionMismatch
  /\ (Compared u v ∈ fst (LSH_deduplicate limit lsh imgs) ->
      snd (LSH_deduplicate limit lsh imgs) = Raise DimensionMismatch)
  /\ (Compared u v ∈ fst (BF_deduplicate limit bf imgs) ->
      snd (BF_deduplicate limit bf imgs) = Raise DimensionMismatch).
Proof.
  intros Hne. split; [apply hamming_mismatch, Hne|].
  assert (Hbad : forall A (m : traced (Image := Image) A),
             aborts_on_mismatch m -> Compared u v ∈ fst m ->
             snd m = Raise DimensionMismatch).
  { intros A m [Hm|Hm] Hin; [|exact Hm].
    rewrite Forall_forall in Hm. specialize (Hm _ Hin). contradiction. }
  split; apply Hbad.
  - unfold LSH_deduplicate. apply aom_bind; [apply LSH_loop_aom|].
    intros st. apply aom_lift.
  - unfold BF_deduplicate. apply aom_bind; [apply aom_stored|]. intros _.
    apply aom_bind; [apply BF_loop_aom|]. intros [heap result]. apply aom_lift.
Qed.
End Mismatch.

Lemma mismatch_aborts_witness :
  hamming (ragged_hash 1) (ragged_hash 0) = Raise DimensionMismatch
  /\ snd (LSH_deduplicate sample_limit lsh_ragged [0; 1]) = Raise DimensionMismatch
  /\ snd (BF_deduplicate sample_limit (mkDeduplicator ragged_hash) [1; 0])
     = Raise DimensionMismatch.
Proof.
  destruct (mismatch_aborts sample_limit lsh_ragged (mkDeduplicator ragged_hash) [0; 1]
              (ragged_hash 1) (ragged_hash 0)) as (H1 & H2 & _);
    [vm_compute; lia|].
  destruct (mismatch_aborts sample_limit lsh_ragged (mkDeduplicator ragged_hash) [1; 0]
              (ragged_hash 1) (ragged_hash 0)) as (_ & _ & H3);
    [vm_compute; lia|].
  split; [exact H1|]. split.
  - apply H2. vm_compute. apply list_elem_of_In. simpl. auto.
  - apply H3. vm_compute. apply list_elem_of_In. simpl. auto.
Defined.

(** ** Groups of the approximate clusterer *)

Lemma chain_rel_mono (R R' : nat -> nat -> Prop) (g : list nat) (a b : nat) :
  (forall x y, R x y -> R' x y) -> chain R g a b -> chain R' g a b.
Proof.
  intros H. unfold chain. apply (rtc_congruence (fun x => x)).
  intros x y (H1 & H2 & H3). auto.
Qed.

Lemma near_positions_sym (hs : list fingerprint) (i j : nat) :
  near_positions hs i j -> near_positions hs j i.
Proof.
  intros (u & v & Hu & Hv & H). exists v, u. repeat split; auto.
  unfold within_threshold in *. rewrite count_diff_sym. exact H.
Qed.

Lemma LSH_dims_lengths {Image : Type} (self : LSHDeduplicator Image)
    (hs : list fingerprint) :
  LSH_dims_okb self hs = true -> forall u, u ∈ hs -> length u = _d self.
Proof.
  unfold LSH_dims_okb. intros H. apply andb_true_iff in H as [H1 _].
  rewrite forallb_forall in H1.
  intros u Hu. apply Nat.eqb_eq, H1, list_elem_of_In, Hu.
Qed.

(** C1 (amended): at a dimension where the scaled distance decides the
    threshold exactly (64 among them), whenever the approximate clusterer
    returns groups, every member of a group is joined to the group's first
    image by a chain of members in which each image is within the threshold
    of the next; two members of one group need not be within the threshold
    of each other. *)
Theorem LSH_groups_are_chains {Image : Type} (limit : nat)
    (self : LSHDeduplicator Image) (imgs : list Image)
    (groups : list (list Image)) :
  threshold_exact (_d self) = true ->
  LSH_dims_okb self (LSH_hashes self imgs) = true ->
  snd (LSH_deduplicate limit self imgs) = Ok groups ->
  exists ids,
    partition_of imgs ids groups
    /\ Forall (fun L => forall x, x ∈ L ->
                 chain (near_positions (LSH_hashes self imgs)) L (hd 0 L) x) ids.
Proof.
  intros Hexact Hdims Hrun. pose proof (LSH_dims_lengths _ _ Hdims) as Hlen.
  destruct (LSH_deduplicate_sat limit self imgs) as [_ HQ]. rewrite Hrun in HQ.
  destruct HQ as (ids & Hpart & Hchains).
  exists ids. split; [exact Hpart|].
  eapply Forall_impl; [exact Hchains|]. intros L HL x Hx.
  eapply chain_rel_mono; [|apply HL, Hx].
  intros p c (u & v & Hu & Hv & Hnear).
  apply near_positions_sym. exists u, v. repeat split; auto.
  unfold within_threshold. unfold LSH_near in Hnear.
  assert (Hud : length u = _d self)
    by (apply Hlen; eapply list_elem_of_lookup_2; exact Hu).
  rewrite (threshold_exact_spec (_d self) u v (_d self) Hexact Hud eq_refl) in Hnear.
  apply Nat.ltb_lt, Hnear.
Qed.

Lemma LSH_groups_are_chains_witness :
  exists ids,
    partition_of [0; 1; 2] ids [[0; 1; 2]]
    /\ Forall (fun L => forall x, x ∈ L ->
                 chain (near_positions (LSH_hashes (lsh_default chain_hash) [0; 1; 2]))
                       L (hd 0 L) x) ids.
Proof.
  apply (LSH_groups_are_chains sample_limit (lsh_default chain_hash) [0; 1; 2]
           [[0; 1; 2]]);
    vm_compute; reflexivity.
Defined.

(** C1 as stated fails: with the default parameters the three sample images
    form one group, although the first and the last differ in ten positions. *)
Lemma LSH_group_beyond_threshold :
  snd (LSH_deduplicate sample_limit (lsh_default chain_hash) [0; 1; 2]) = Ok [[0; 1; 2]]
  /\ [0; 1; 2] ∈ [[0; 1; 2]] /\ 0 ∈ [0; 1; 2] /\ 2 ∈ [0; 1; 2]
  /\ ~ within_threshold (chain_hash 0) (chain_hash 2).
Proof.
  split; [vm_compute; reflexivity|].
  split; [left|]. split; [left|]. split; [right; right; left|].
  unfold within_threshold. vm_compute. lia.
Qed.

(** ** Groups of the exact clusterer *)

Lemma rtc_sym {A : Type} (R : A -> A -> Prop) (x y : A) :
  (forall a b, R a b -> R b a) -> rtc R x y -> rtc R y x.
Proof.
  intros Hsym. induction 1 as [|x m y Hxm _ IH]; [apply rtc_refl|].
  eapply rtc_r; [exact IH|apply Hsym, Hxm].
Qed.

Lemma chain_rtc (R : nat -> nat -> Prop) (g : list nat) (a b : nat) :
  chain R g a b -> rtc R a b.
Proof.
  unfold chain. apply (rtc_congruence (fun x => x)). intros x y (H & _ & _). exact H.
Qed.

Lemma all_64b_spec (hs : list fingerprint) :
  all_64b hs = true ->
  (forall u, u ∈ hs -> length u = 64) /\ uniform_length hs.
Proof.
  unfold all_64b. intros H. rewrite forallb_forall in H.
  assert (Hlen : forall u, u ∈ hs -> length u = 64).
  { intros u Hu. apply Nat.eqb_eq, H, list_elem_of_In, Hu. }
  split; [exact Hlen|]. intros u v Hu Hv. rewrite (Hlen u Hu), (Hlen v Hv). reflexivity.
Qed.

Lemma BF_linked_near (hs : list fingerprint) (p c : nat) :
  (forall u, u ∈ hs -> length u = 64) ->
  BF_linked hs p c <-> near_positions hs p c.
Proof.
  intros Hlen. unfold BF_linked, near_positions, within_threshold, BF_near.
  split; intros (u & v & Hu & Hv & H); exists u, v;
    (split; [exact Hu|]); (split; [exact Hv|]);
    assert (Hu64 : length u = 64)
      by (apply Hlen; eapply list_elem_of_lookup_2; exact Hu).
  - rewrite (threshold_exact_spec 64 u v 64 threshold_exact_64 Hu64 eq_refl) in H.
    apply Nat.ltb_lt, H.
  - rewrite (threshold_exact_spec 64 u v 64 threshold_exact_64 Hu64 eq_refl).
    apply Nat.ltb_lt, H.
Qed.

(** With a symmetric link relation every group of a prefix-closed partition is
    closed under the links. *)
Lemma group_closed (linked : nat -> nat -> Prop) (n : nat) (G : list (list nat))
    (g : list nat) (a b : nat) :
  (forall x y, linked x y -> linked y x) ->
  NoDup (concat G) -> prefix_closed linked n G ->
  g ∈ G -> a ∈ g -> a < n -> b < n -> linked a b -> b ∈ g.
Proof.
  intros Hsym Hnd HPC Hg Ha Han Hbn Hab.
  apply list_elem_of_split in Hg as (G1 & G2 & ->).
  assert (Hb : b ∈ concat (G1 ++ [g])).
  { apply (HPC (G1 ++ [g]) G2 a b); auto.
    - rewrite <- app_assoc. reflexivity.
    - rewrite concat_snoc. apply elem_of_app. auto. }
  rewrite concat_snoc in Hb. apply elem_of_app in Hb as [Hb|Hb]; [|exact Hb].
  exfalso.
  assert (Ha1 : a ∈ concat G1) by (apply (HPC G1 (g :: G2) b a); auto).
  rewrite concat_app in Hnd. cbn [concat] in Hnd.
  apply NoDup_app in Hnd as (_ & Hdis & _).
  apply (Hdis a Ha1). apply elem_of_app. auto.
Qed.

(** C3: on 64-bit fingerprints the groups the exact clusterer returns,
    whenever it returns, are the connected components of "fewer than ten
    positions differ": they split the input positions, and two positions
    share a group exactly when a chain of within-threshold pairs joins
    them. *)
Theorem BF_groups_are_components {Image : Type} (limit : nat)
    (self : Deduplicator Image) (imgs : list Image) (groups : list (list Image)) :
  all_64b (BF_hashes self imgs) = true ->
  snd (BF_deduplicate limit self imgs) = Ok groups ->
  exists ids,
    partition_of imgs ids groups
    /\ forall i j, i < length imgs -> j < length imgs ->
         (same_group ids i j <-> rtc (near_positions (BF_hashes self imgs)) i j).
Proof.
  intros H64 Hrun. destruct (all_64b_spec _ H64) as [Hlen Huni].
  destruct (BF_deduplicate_sat limit self imgs) as [_ HQ]. rewrite Hrun in HQ.
  destruct HQ as (G & ids & HG & Hnd & HPC & Hpart & Hchains).
  exists ids. split; [exact Hpart|].
  set (hs := BF_hashes self imgs) in *.
  assert (Hsym : forall x y, BF_linked hs x y -> BF_linked hs y x).
  { intros x y Hxy. apply BF_linked_near; [exact Hlen|].
    apply near_positions_sym, BF_linked_near; assumption. }
  assert (Hrange : forall x y, near_positions hs x y -> y < length imgs).
  { intros x y (u & v & _ & Hv & _). apply lookup_lt_Some in Hv.
    unfold hs, BF_hashes in Hv. rewrite length_map in Hv. exact Hv. }
  assert (Hclosed : forall L a b, L ∈ ids -> a ∈ L -> a < length imgs ->
                                  near_positions hs a b -> b ∈ L).
  { intros L a b HL Ha Han Hab.
    apply list_elem_of_lookup in HL as (k & Hk).
    destruct (Forall2_lookup_r _ _ _ _ _ HG Hk) as (g & Hg & HP & _).
    rewrite HP. rewrite HP in Ha.
    apply (group_closed (BF_linked hs) (length imgs) G g a b); auto.
    - eapply list_elem_of_lookup_2; exact Hg.
    - eapply Hrange; exact Hab.
    - apply BF_linked_near; assumption. }
  intros i j Hi Hj. split.
  - intros (L & HL & HiL & HjL).
    rewrite Forall_forall in Hchains.
    pose proof (chain_rtc _ _ _ _ (Hchains L HL i HiL)) as Hri.
    pose proof (chain_rtc _ _ _ _ (Hchains L HL j HjL)) as Hrj.
    assert (Hnear : forall a b, rtc (BF_linked hs) a b -> rtc (near_positions hs) a b).
    { intros a b. apply (rtc_congruence (fun x => x)).
      intros x y Hxy. apply BF_linked_near; assumption. }
    eapply rtc_trans; [|apply Hnear, Hrj].
    apply rtc_sym; [apply near_positions_sym|]. apply Hnear, Hri.
  - intros Hrtc.
    destruct Hpart as (_ & Hperm & _).
    assert (HiG : i ∈ concat ids).
    { rewrite Hperm. apply list_elem_of_In, in_seq. lia. }
    apply elem_of_concat in HiG as (L & HL & HiL).
    exists L. split; [exact HL|]. split; [exact HiL|].
    clear Hj. induction Hrtc as [|x y z Hxy _ IH]; [exact HiL|].
    apply IH; [eapply Hrange; exact Hxy|].
    eapply Hclosed; eauto.
Qed.

Lemma BF_groups_are_components_witness :
  exists ids,
    partition_of [0; 1; 2] ids [[0; 1; 2]]
    /\ forall i j, i < length [0; 1; 2] -> j < length [0; 1; 2] ->
         (same_group ids i j
          <-> rtc (near_positions (BF_hashes (mkDeduplicator chain_hash) [0; 1; 2])) i j).
Proof.
  apply (BF_groups_are_components sample_limit (mkDeduplicator chain_hash) [0; 1; 2]
           [[0; 1; 2]]);
    vm_compute; reflexivity.
Defined.

(** ** The hash table of the approximate clusterer *)

Section SharedTable.
Context {Image : Type}.
Variable self : LSHDeduplicator Image.

Lemma insertions_from_elem (k : nat) (hs : list fingerprint) (s : string) (i : nat) :
  (s, i) ∈ insertions_from self k hs
  <-> exists u g, k <= i /\ hs !! (i - k) = Some u /\ g ∈ _projections self
                  /\ key_of u g = s.
Proof.
  revert k. induction hs as [|u0 hs IH]; intros k; cbn [insertions_from].
  - split; [intros H; inversion H|]. intros (u & g & _ & H & _). discriminate.
  - rewrite elem_of_app, IH. split.
    + intros [H|(u & g & Hk & Hu & Hg & Hs)].
      * apply list_elem_of_In, in_map_iff in H as (g & Heq & Hg).
        injection Heq as <- <-. exists u0, g.
        rewrite Nat.sub_diag. apply list_elem_of_In in Hg. auto.
      * exists u, g. split; [lia|]. split; [|auto].
        replace (i - k) with (S (i - S k)) by lia. exact Hu.
    + intros (u & g & Hk & Hu & Hg & Hs).
      destruct (decide (i = k)) as [->|Hne].
      * left. rewrite Nat.sub_diag in Hu. injection Hu as <-.
        apply list_elem_of_In, in_map_iff. exists g.
        apply list_elem_of_In in Hg. rewrite Hs. auto.
      * right. exists u, g. split; [lia|]. split; [|auto].
        replace (i - k) with (S (i - S k)) in Hu by lia. exact Hu.
Qed.

Lemma bucket_of_elem (ins : list (string * nat)) (s : string) (i : nat) :
  i ∈ bucket_of ins s <-> (s, i) ∈ ins.
Proof.
  unfold bucket_of. rewrite list_elem_of_In, in_map_iff. split.
  - intros ([s' i'] & Hi & Hin). cbn in Hi. subst i'.
    apply list_elem_of_In, list_elem_of_filter in Hin as [Hs Hin].
    cbn in Hs. subst s'. exact Hin.
  - intros Hin. exists (s, i). split; [reflexivity|].
    apply list_elem_of_In, list_elem_of_filter. auto.
Qed.

(** C4 (amended): the bands share one table keyed by the key string alone.
    After a run, the bucket of a key holds the images inserted under that
    string by any band, once per such band and in order of insertion; an
    image lies in it exactly when some band gives it that key. *)
Theorem LSH_table_is_shared (imgs : list Image) (st : LSH_state Image) :
  snd (LSH_loop self imgs LSH_initial) = Ok st ->
  table_holds (lsh_hash_table st) (insertions self (LSH_hashes self imgs))
  /\ forall s i,
       i ∈ default [] (lsh_hash_table st !! s)
       <-> exists u g, LSH_hashes self imgs !! i = Some u
                       /\ g ∈ _projections self /\ key_of u g = s.
Proof.
  intros Hrun. destruct (LSH_loop_final self imgs) as [_ H].
  rewrite Hrun in H. destruct H as (G & _ & _ & Htbl & _).
  split; [exact Htbl|]. intros s i. rewrite Htbl, bucket_of_elem.
  unfold insertions. rewrite insertions_from_elem. rewrite Nat.sub_0_r.
  split.
  - intros (u & g & _ & H). exists u, g. exact H.
  - intros (u & g & H). exists u, g. split; [lia|exact H].
Qed.
End SharedTable.

Lemma LSH_table_is_shared_witness :
  exists st,
    snd (LSH_loop lsh_two_bands [0; 1] LSH_initial) = Ok st
    /\ table_holds (lsh_hash_table st)
         (insertions lsh_two_bands (LSH_hashes lsh_two_bands [0; 1]))
    /\ forall s i,
         i ∈ default [] (lsh_hash_table st !! s)
         <-> exists u g, LSH_hashes lsh_two_bands [0; 1] !! i = Some u
                         /\ g ∈ _projections lsh_two_bands /\ key_of u g = s.
Proof.
  eexists. split; [vm_compute; reflexivity|].
  apply (LSH_table_is_shared lsh_two_bands [0; 1]). vm_compute. reflexivity.
Defined.

(** C4 as stated fails: after the first sample image is processed, the bucket
    that band 0 looks up for the second image (key "1") holds the first
    image, which band 1 put there; the two are then merged although no band
    gives them equal keys. *)
Lemma LSH_bucket_crosses_bands :
  exists st,
    snd (LSH_loop lsh_two_bands [0] LSH_initial) = Ok st
    /\ key_of (crossed_hash 1) [0] = "1"%string
    /\ ~ band_private lsh_two_bands (LSH_hashes lsh_two_bands [0]) (lsh_hash_table st)
    /\ Forall (fun g => key_of (crossed_hash 0) g <> key_of (crossed_hash 1) g)
              (_projections lsh_two_bands)
    /\ snd (LSH_deduplicate sample_limit lsh_two_bands [0; 1]) = Ok [[0; 1]].
Proof.
  eexists. split; [vm_compute; reflexivity|].
  split; [vm_compute; reflexivity|]. split; [|split].
  - intros H. destruct (H [0] "1"%string 0) as (u & Hu & Hk).
    + left.
    + vm_compute. left.
    + cbn in Hu. injection Hu as <-. vm_compute in Hk. discriminate.
  - repeat constructor; vm_compute; discriminate.
  - vm_compute. reflexivity.
Qed.

(** * Further properties *)

(** ** The exact clusterer at any fingerprint length *)

Lemma BF_linked_sym (hs : list fingerprint) (x y : nat) :
  uniform_length hs -> BF_linked hs x y -> BF_linked hs y x.
Proof.
  intros Huni (u & v & Hu & Hv & H). exists v, u. repeat split; auto.
  unfold BF_near, scaled_distance in *. rewrite count_diff_sym.
  rewrite (Huni v u); [exact H|eapply list_elem_of_lookup_2; eauto..].
Qed.

Lemma same_group_closed_rtc (linked : nat -> nat -> Prop) (ids : list (list nat))
    (L : list nat) (i j : nat) :
  (forall L a b, L ∈ ids -> a ∈ L -> linked a b -> b ∈ L) ->
  L ∈ ids -> i ∈ L -> rtc linked i j -> j ∈ L.
Proof.
  intros Hclosed HL Hi Hrtc. induction Hrtc as [|x y z Hxy _ IH]; [exact Hi|].
  apply IH. eapply Hclosed; eauto.
Qed.

Section BFComponents.
Context {Image : Type}.
Variable limit : nat.
Variable self : Deduplicator Image.
Variable imgs : list Image.
Variable groups : list (list Image).

(** On fingerprints of one length the groups of a run that returns are the
    classes of the reflexive-transitive closure of the code's own threshold
    test. *)
Lemma BF_components_linked :
  uniform_length (BF_hashes self imgs) ->
  snd (BF_deduplicate limit self imgs) = Ok groups ->
  exists ids,
    partition_of imgs ids groups
    /\ forall i j, i < length imgs -> j < length imgs ->
         (same_group ids i j <-> rtc (BF_linked (BF_hashes self imgs)) i j).
Proof.
  intros Huni Hrun.
  destruct (BF_deduplicate_sat limit self imgs) as [_ HQ]. rewrite Hrun in HQ.
  destruct HQ as (G & ids & HG & Hnd & HPC & Hpart & Hchains).
  exists ids. split; [exact Hpart|].
  set (hs := BF_hashes self imgs) in *.
  assert (Hrange : forall x y, BF_linked hs x y -> x < length imgs /\ y < length imgs).
  { intros x y (u & v & Hu & Hv & _). apply lookup_lt_Some in Hu, Hv.
    unfold hs, BF_hashes in Hu, Hv. rewrite length_map in Hu, Hv. auto. }
  assert (Hclosed : forall L a b, L ∈ ids -> a ∈ L -> BF_linked hs a b -> b ∈ L).
  { intros L a b HL Ha Hab.
    apply list_elem_of_lookup in HL as (k & Hk).
    destruct (Forall2_lookup_r _ _ _ _ _ HG Hk) as (g & Hg & HP & _).
    rewrite HP. rewrite HP in Ha. destruct (Hrange _ _ Hab) as [Han Hbn].
    apply (group_closed (BF_linked hs) (length imgs) G g a b); auto.
    - intros x y. apply BF_linked_sym, Huni.
    - eapply list_elem_of_lookup_2; exact Hg. }
  intros i j Hi Hj. split.
  - intros (L & HL & HiL & HjL).
    rewrite Forall_forall in Hchains.
    pose proof (chain_rtc _ _ _ _ (Hchains L HL i HiL)) as Hri.
    pose proof (chain_rtc _ _ _ _ (Hchains L HL j HjL)) as Hrj.
    eapply rtc_trans; [|exact Hrj].
    apply rtc_sym; [intros a b; apply BF_linked_sym, Huni|exact Hri].
  - intros Hrtc. destruct Hpart as (_ & Hperm & _).
    assert (HiG : i ∈ concat ids).
    { rewrite Hperm. apply list_elem_of_In, in_seq. lia. }
    apply elem_of_concat in HiG as (L & HL & HiL).
    exists L. split; [exact HL|]. split; [exact HiL|].
    eapply same_group_closed_rtc; eauto.
Qed.
End BFComponents.

(** X1: whatever the common length of the fingerprints, the groups the exact
    clusterer returns, whenever it returns, are the connected components of
    its own threshold test [(count / length) * 64 < 10]: they split the input
    positions, and two positions share a group exactly when a chain of pairs
    passing the test joins them. *)
Theorem BF_groups_are_test_components {Image : Type} (limit : nat)
    (self : Deduplicator Image) (imgs : list Image) (groups : list (list Image)) :
  uniform_lengthb (BF_hashes self imgs) = true ->
  snd (BF_deduplicate limit self imgs) = Ok groups ->
  exists ids,
    partition_of imgs ids groups
    /\ forall i j, i < length imgs -> j < length imgs ->
         (same_group ids i j <-> rtc (BF_linked (BF_hashes self imgs)) i j).
Proof.
  intros H Hrun.
  apply (BF_components_linked limit); [apply uniform_lengthb_spec, H|exact Hrun].
Qed.

Lemma BF_groups_are_test_components_witness :
  exists ids,
    partition_of [0; 1; 2] ids [[0; 1]; [2]]
    /\ forall i j, i < length [0; 1; 2] -> j < length [0; 1; 2] ->
         (same_group ids i j
          <-> rtc (BF_linked (BF_hashes (mkDeduplicator hash_53) [0; 1; 2])) i j).
Proof.
  apply (BF_groups_are_test_components sample_limit (mkDeduplicator hash_53) [0; 1; 2]
           [[0; 1]; [2]]);
    vm_compute; reflexivity.
Defined.

(** X2: whenever the exact clusterer returns groups for 64-bit fingerprints,
    two images whose fingerprints are equal share a group. *)
Theorem BF_equal_fingerprints_share_group {Image : Type} (limit : nat)
    (self : Deduplicator Image) (imgs : list Image) (groups : list (list Image))
    (i j : nat) (u : list nat) :
  all_64b (BF_hashes self imgs) = true ->
  BF_hashes self imgs !! i = Some u -> BF_hashes self imgs !! j = Some u ->
  snd (BF_deduplicate limit self imgs) = Ok groups ->
  exists ids, partition_of imgs ids groups /\ same_group ids i j.
Proof.
  intros H64 Hi Hj Hrun. destruct (all_64b_spec _ H64) as [Hlen Huni].
  destruct (BF_components_linked limit self imgs groups Huni Hrun) as (ids & Hpart & Hiff).
  exists ids. split; [exact Hpart|].
  assert (Hn : forall k, BF_hashes self imgs !! k = Some u -> k < length imgs).
  { intros k Hk. apply lookup_lt_Some in Hk. unfold BF_hashes in Hk.
    rewrite length_map in Hk. exact Hk. }
  apply Hiff; [apply Hn, Hi|apply Hn, Hj|].
  apply rtc_once, BF_linked_near; [exact Hlen|].
  exists u, u. repeat split; auto.
  unfold within_threshold. rewrite count_diff_refl. lia.
Qed.

Lemma BF_equal_fingerprints_share_group_witness :
  exists ids, partition_of [0; 1; 2] ids [[0; 1; 2]] /\ same_group ids 0 2.
Proof.
  apply (BF_equal_fingerprints_share_group sample_limit
           (mkDeduplicator (fun img : nat => chain_hash (img mod 2))) [0; 1; 2]
           [[0; 1; 2]] 0 2 (chain_hash 0)); vm_compute; reflexivity.
Defined.

(** ** The approximate clusterer against the exact one *)

Lemma LSH_linked_BF_linked {Image : Type} (self : LSHDeduplicator Image)
    (hs : list fingerprint) (p c : nat) :
  _d self = 64 -> LSH_linked self hs p c -> BF_linked hs c p.
Proof.
  intros Hd (u & v & Hu & Hv & H). exists u, v. repeat split; auto.
  unfold LSH_near in H. rewrite Hd in H. exact H.
Qed.

Lemma LSH_refines_BF_run {Image : Type} (limit limit' : nat)
    (self : LSHDeduplicator Image) (imgs : list Image)
    (lsh_groups bf_groups : list (list Image)) :
  _d self = 64 ->
  uniform_length (LSH_hashes self imgs) ->
  snd (LSH_deduplicate limit self imgs) = Ok lsh_groups ->
  snd (BF_deduplicate limit' (lsh_base self) imgs) = Ok bf_groups ->
  exists lsh_ids bf_ids,
    partition_of imgs lsh_ids lsh_groups
    /\ partition_of imgs bf_ids bf_groups
    /\ refines lsh_ids bf_ids.
Proof.
  intros Hd Huni Hlrun Hbrun.
  destruct (LSH_deduplicate_sat limit self imgs) as [_ HQ]. rewrite Hlrun in HQ.
  destruct HQ as (lids & Hlpart & Hchains).
  destruct (BF_components_linked limit' (lsh_base self) imgs bf_groups Huni Hbrun)
    as (bids & Hbpart & Hiff).
  exists lids, bids.
  split; [exact Hlpart|]. split; [exact Hbpart|].
  assert (Hconv : forall L a b,
             chain (LSH_linked self (LSH_hashes self imgs)) L a b ->
             rtc (BF_linked (BF_hashes (lsh_base self) imgs)) a b).
  { intros L a b Hab. apply chain_rtc in Hab. revert Hab.
    apply (rtc_congruence (fun x => x)). intros x y Hxy.
    apply BF_linked_sym; [exact Huni|].
    apply (LSH_linked_BF_linked self); assumption. }
  assert (Hin : forall L x, L ∈ lids -> x ∈ L -> x < length imgs).
  { intros L x HL Hx. destruct Hlpart as (_ & Hperm & _).
    assert (Hc : x ∈ concat lids) by (apply elem_of_concat; eauto).
    rewrite Hperm in Hc. apply list_elem_of_In, in_seq in Hc. lia. }
  intros i j (L & HL & Hi & Hj). rewrite Forall_forall in Hchains.
  apply Hiff; [eapply Hin; eauto|eapply Hin; eauto|].
  eapply rtc_trans; [|apply (Hconv L), Hchains; assumption].
  apply rtc_sym; [intros a b; apply BF_linked_sym, Huni|].
  apply (Hconv L), Hchains; assumption.
Qed.

(** X3: with [d = 64], on fingerprints of one length, whenever the
    approximate clusterer and the exact clusterer, run with the same hash
    function, both return groups, the approximate one never groups two images
    that the exact one keeps apart: its groups refine the exact ones. *)
Theorem LSH_refines_BF {Image : Type} (limit limit' : nat)
    (self : LSHDeduplicator Image) (imgs : list Image)
    (lsh_groups bf_groups : list (list Image)) :
  _d self = 64 ->
  uniform_lengthb (LSH_hashes self imgs) = true ->
  snd (LSH_deduplicate limit self imgs) = Ok lsh_groups ->
  snd (BF_deduplicate limit' (lsh_base self) imgs) = Ok bf_groups ->
  exists lsh_ids bf_ids,
    partition_of imgs lsh_ids lsh_groups
    /\ partition_of imgs bf_ids bf_groups
    /\ refines lsh_ids bf_ids.
Proof.
  intros Hd Huni. apply LSH_refines_BF_run; [exact Hd|].
  apply uniform_lengthb_spec, Huni.
Qed.

Lemma LSH_refines_BF_witness :
  exists lsh_ids bf_ids,
    partition_of [0; 1; 2; 3] lsh_ids [[0; 1; 3]; [2]]
    /\ partition_of [0; 1; 2; 3] bf_ids [[0; 1; 3]; [2]]
    /\ refines lsh_ids bf_ids.
Proof.
  apply (LSH_refines_BF sample_limit sample_limit (lsh_default mixed_hash)
           [0; 1; 2; 3] [[0; 1; 3]; [2]] [[0; 1; 3]; [2]]);
    vm_compute; reflexivity.
Defined.

(** ** The order of the returned groups *)

Lemma filter_seq_first (P : nat -> Prop) `{forall x, Decision (P x)}
    (start len x : nat) (rest : list nat) :
  filter P (seq start len) = x :: rest ->
  forall i, start <= i -> i < x -> ~ P i.
Proof.
  revert start. induction len as [|len IH]; intros start Hf i Hs Hi; [discriminate|].
  cbn [seq] in Hf. rewrite filter_cons in Hf.
  destruct (decide (P start)) as [HP|HP].
  - injection Hf as <- _. lia.
  - destruct (decide (i = start)) as [->|Hne]; [exact HP|].
    apply (IH (S start) Hf); lia.
Qed.

Lemma unmatched_first (matched : list bool) (sp : nat) (rest : list nat) (i : nat) :
  unmatched_indices matched = sp :: rest -> i < sp -> nth i matched false = true.
Proof.
  intros Hu Hi. unfold unmatched_indices in Hu.
  pose proof (filter_seq_first _ _ _ _ _ Hu i (Nat.le_0_l i) Hi) as Hn.
  simpl in Hn. destruct (nth i matched false); [reflexivity|congruence].
Qed.

Lemma increasing_snoc (l : list nat) (b : nat) :
  increasing l -> (forall a, a ∈ l -> a < b) -> increasing (l ++ [b]).
Proof.
  intros Hl Hb i j x y Hij Hi Hj.
  assert (Hjl : j < length (l ++ [b])) by (eapply lookup_lt_Some; exact Hj).
  rewrite length_app in Hjl. cbn in Hjl.
  rewrite lookup_app_l in Hi by lia.
  destruct (decide (j < length l)) as [Hlt|Hge].
  - rewrite lookup_app_l in Hj by lia. exact (Hl i j x y Hij Hi Hj).
  - rewrite lookup_app_r in Hj by lia.
    replace (j - length l) with 0 in Hj by lia. cbn in Hj. injection Hj as <-.
    apply Hb. eapply list_elem_of_lookup_2; exact Hi.
Qed.

Lemma order_transfer (G ids : list (list nat)) :
  Forall2 (fun g L => L ≡ₚ g /\ hd 0 L = hd 0 g) G ids ->
  earliest_first G -> increasing (map (hd 0) G) ->
  earliest_first ids /\ increasing (map (hd 0) ids).
Proof.
  intros HG H1 H2.
  assert (Hheads : map (hd 0) ids = map (hd 0) G).
  { clear H1 H2. induction HG as [|g L G ids [_ Hhd] _ IH]; [reflexivity|].
    cbn. rewrite Hhd, IH. reflexivity. }
  split; [|rewrite Hheads; exact H2].
  clear H2 Hheads. unfold earliest_first in *.
  induction HG as [|g L G ids [HP Hhd] _ IH]; [constructor|].
  apply Forall_cons in H1 as [Hg H1]. constructor; [|apply IH, H1].
  intros x Hx. rewrite Hhd. apply Hg. rewrite <- HP. exact Hx.
Qed.

Section BFOrder.
Context {Image : Type}.
Variable limit : nat.
Variable self : Deduplicator Image.
Variable imgs : list Image.
Implicit Types heap : list (HashedImage Image).

Local Abbreviation hf := (_hash_func self).
Local Abbreviation hs := (BF_hashes self imgs).
Local Abbreviation n := (length imgs).
Local Abbreviation R := (BF_linked hs).
Local Abbreviation Ev := (stored_grows R).
Local Abbreviation Ex := (fun _ : exn => ~ uniform_length hs).

Lemma BF_loop_ordered (fuel : nat) heap (matched : list bool) (result : list nat)
    (G : list (list nat)) :
  grows R heap G -> heap_of_inputs hf imgs heap ->
  matched_marks n matched G -> result = map (hd 0) G ->
  earliest_first G -> increasing (map (hd 0) G) ->
  (forall r x, r ∈ map (hd 0) G -> x < n -> x ∉ concat G -> r < x) ->
  n - length (concat G) <= fuel ->
  sat (BF_loop fuel heap matched [] result) Ev
      (fun out => exists G',
           grows R out.1 G' /\ heap_of_inputs hf imgs out.1
           /\ out.2 = map (hd 0) G'
           /\ earliest_first G' /\ increasing (map (hd 0) G'))
      Ex.
Proof.
  revert heap matched result G.
  induction fuel as [|fuel IH];
    intros heap matched result G Hg Hheap Hm Hres HO1 HO2 HO3 Hfuel; cbn [BF_loop];
    destruct (forallb (fun b : bool => b) matched) eqn:Hall;
    try (apply sat_ret; exists G; cbn [fst snd]; auto).
  - destruct (some_unmatched matched Hall) as (sp & rest & Hu).
    destruct (unmatched_head _ _ _ Hu) as [Hsp Hun].
    destruct Hm as [Hlen Hm]. rewrite Hlen in Hsp.
    assert (Hfresh : sp ∉ concat G).
    { intros Hin. apply Hm in Hin; [|exact Hsp]. congruence. }
    assert (Hle : length (sp :: concat G) <= n).
    { apply NoDup_bounded_length.
      - constructor; [exact Hfresh|eapply grows_NoDup; exact Hg].
      - intros x Hx. apply elem_of_cons in Hx as [->|Hx]; [exact Hsp|].
        destruct Hheap as [Hl _]. rewrite <- Hl. eapply grows_bound; eassumption. }
    cbn [length] in Hle. lia.
  - destruct (some_unmatched matched Hall) as (sp & rest & Hu). rewrite Hu.
    destruct (unmatched_head _ _ _ Hu) as [Hsp Hun].
    pose proof Hm as [Hlen Hmarks]. rewrite Hlen in Hsp.
    assert (Hfresh : sp ∉ concat G).
    { intros Hin. apply Hmarks in Hin; [|exact Hsp]. congruence. }
    assert (Hbefore : forall x, x < sp -> x ∈ concat G).
    { intros x Hx. apply Hmarks; [lia|]. eapply unmatched_first; eassumption. }
    pose proof Hheap as [Hhl _].
    assert (Hg1 : grows R heap (G ++ [[sp]])) by (constructor; auto; lia).
    assert (Hcount : length (concat G) < n).
    { assert (Hle : length (sp :: concat G) <= n).
      { apply NoDup_bounded_length.
        - constructor; [exact Hfresh|eapply grows_NoDup; exact Hg].
        - intros x Hx. apply elem_of_cons in Hx as [->|Hx]; [exact Hsp|].
          rewrite <- Hhl. exact (grows_bound R heap G x Hg Hx). }
      cbn [length] in Hle. lia. }
    eapply sat_bind.
    { apply (BF_drain_sat self imgs (length heap) heap (<[sp := true]> matched)
                          ([] ++ [sp]) G [sp]).
      - exact Hg1.
      - exact Hheap.
      - apply (matched_marks_insert imgs matched G); [exact Hsp|exact Hm|].
        intros i. rewrite concat_snoc, elem_of_app, list_elem_of_singleton. tauto.
      - cbn. repeat constructor.
      - intros i j Hi Hni. cbn in Hni. contradiction.
      - rewrite concat_snoc, !length_app, Hhl. cbn [length app]. lia.
      - discriminate. }
    intros [[heap' matched'] queue'] (Hq & g' & Hg' & Hheap' & Hm' & Hhd & Hcl).
    cbn [fst snd] in *. subst queue'. cbn [hd] in Hhd.
    pose proof (grows_NoDup R _ _ Hg') as Hnd. rewrite concat_snoc in Hnd.
    apply NoDup_app in Hnd as (_ & Hdis & _).
    assert (Hne : g' <> []).
    { pose proof (grows_nonempty R _ _ Hg') as Hne.
      apply Forall_app in Hne as [_ Hne]. apply Forall_cons in Hne as [Hne _].
      exact Hne. }
    assert (Hspg : sp ∈ g') by (destruct g'; [congruence|cbn in Hhd; subst; left]).
    assert (Hold : forall r, r ∈ map (hd 0) G -> r < sp)
      by (intros r Hr; apply (HO3 r sp); assumption).
    apply (IH heap' matched' (result ++ [sp]) (G ++ [g'])).
    + exact Hg'.
    + exact Hheap'.
    + exact Hm'.
    + rewrite map_app. cbn. rewrite Hhd. congruence.
    + apply Forall_app. split; [exact HO1|]. constructor; [|constructor].
      intros x Hx. rewrite Hhd.
      destruct (decide (x < sp)) as [Hlt|]; [|lia].
      exfalso. apply (Hdis x); [apply Hbefore, Hlt|exact Hx].
    + rewrite map_app. cbn [map]. rewrite Hhd. apply increasing_snoc; assumption.
    + intros r x Hr Hx Hnot. rewrite concat_snoc in Hnot.
      apply not_elem_of_app in Hnot as [HnG Hng].
      rewrite map_app in Hr. cbn [map] in Hr. rewrite Hhd in Hr.
      apply elem_of_app in Hr as [Hr|Hr]; [apply HO3; assumption|].
      apply list_elem_of_singleton in Hr. subst r.
      destruct (decide (x < sp)) as [Hlt|Hge]; [destruct (HnG (Hbefore x Hlt))|].
      destruct (decide (x = sp)) as [->|]; [contradiction|lia].
    + rewrite concat_snoc, length_app.
      destruct g'; [congruence|]. cbn [length]. lia.
Qed.

Lemma BF_deduplicate_ordered :
  sat (BF_deduplicate limit self imgs) Ev
      (fun groups => exists ids,
           Forall2 (Forall2 (fun i img => imgs !! i = Some img)) ids groups
           /\ earliest_first ids /\ increasing (map (hd 0) ids))
      (fun e => ~ uniform_length hs \/ (e = RecursionError /\ limit < length imgs)).
Proof.
  unfold BF_deduplicate.
  assert (Hg0 : grows R (map (fun img => mkHashedImage img (hf img) []) imgs) []).
  { apply grows_leaves. rewrite Forall_map. apply Forall_forall. reflexivity. }
  eapply sat_bind;
    [apply sat_emit with (Q := fun _ => True); [exists []; exact Hg0|exact I]|].
  intros _ _. eapply sat_bind.
  { eapply sat_mono;
      [apply (BF_loop_ordered (length imgs) _ _ [] [])|auto
      |intros out H; exact H|intros e H; left; exact H].
    - exact Hg0.
    - apply BF_initial_heap.
    - split; [apply length_replicate|]. intros i Hi. cbn.
      rewrite (nth_lookup_Some _ _ _ false) by (apply lookup_replicate_2; exact Hi).
      split; [discriminate|]. intros H; inversion H.
    - reflexivity.
    - constructor.
    - intros i j a b _ Hi. discriminate.
    - intros r x Hr. inversion Hr.
    - cbn. lia. }
  intros [heap result] (G & Hg & Hheap & Hres & HO1 & HO2). cbn [fst snd] in *.
  apply sat_lift. rewrite Hres.
  destruct (flatten_all limit heap (map (hd 0) G)) as [groups|e] eqn:Hf.
  - destruct (flatten_all_returned _ limit _ G imgs groups Hg) as (ids & HG & Hrel);
      [intros i r Hr; apply (proj2 Hheap i r Hr)|exact Hf|].
    exists ids. split; [exact Hrel|].
    apply (order_transfer G ids); assumption.
  - right. destruct (flatten_all_raises _ limit _ G e Hg Hf) as [-> Hlt].
    split; [reflexivity|]. rewrite <- (proj1 Hheap). exact Hlt.
Qed.
End BFOrder.

Lemma table_below_insert (tbl : gmap string (list nat)) (s : string) (c k : nat) :
  table_below tbl k -> c < k ->
  table_below (<[s := default [] (tbl !! s) ++ [c]]> tbl) k.
Proof.
  intros H Hc s'. destruct (decide (s = s')) as [<-|Hne].
  - rewrite lookup_insert_eq. cbn [default]. apply Forall_app. split; [apply H|].
    repeat constructor. exact Hc.
  - rewrite lookup_insert_ne by exact Hne. apply H.
Qed.

Lemma rtc_lt_le (g : list nat) (a b : nat) : chain lt g a b -> a <= b.
Proof.
  induction 1 as [|x y z (Hxy & _ & _) _ IH]; lia.
Qed.

Lemma heads_placed (G : list (list nat)) (r : nat) :
  Forall (fun g => g <> []) G -> r ∈ map (hd 0) G -> r ∈ concat G.
Proof.
  intros Hne Hr. apply list_elem_of_In, in_map_iff in Hr as (g & <- & Hg).
  apply list_elem_of_In in Hg. rewrite Forall_forall in Hne.
  specialize (Hne g Hg). apply elem_of_concat. exists g. split; [exact Hg|].
  destruct g; [congruence|left].
Qed.

Lemma stable_refl (n : nat) (G : list (list nat)) : stable n G G.
Proof. intros i j _ _. reflexivity. Qed.

Lemma stable_trans (n : nat) (G1 G2 G3 : list (list nat)) :
  stable n G1 G2 -> stable n G2 G3 -> stable n G1 G3.
Proof.
  intros H1 H2 i j Hi Hj. rewrite (H1 i j Hi Hj). apply H2; assumption.
Qed.

Lemma stable_mono (n n' : nat) (G G' : list (list nat)) :
  n' <= n -> stable n G G' -> stable n' G G'.
Proof. intros Hle H i j Hi Hj. apply H; lia. Qed.

Lemma stable_attach (n m : nat) (G1 G2 : list (list nat)) (g : list nat) :
  n <= m -> stable n (G1 ++ g :: G2) (G1 ++ (g ++ [m]) :: G2).
Proof.
  intros Hle i j Hi Hj. split; intros (L & HL & HiL & HjL).
  - apply elem_of_app in HL as [HL|HL].
    + exists L. split; [apply elem_of_app; auto|auto].
    + apply elem_of_cons in HL as [->|HL].
      * exists (g ++ [m]). split; [apply elem_of_app; right; left|].
        split; apply elem_of_app; auto.
      * exists L. split; [apply elem_of_app; right; right; exact HL|auto].
  - apply elem_of_app in HL as [HL|HL].
    + exists L. split; [apply elem_of_app; auto|auto].
    + apply elem_of_cons in HL as [->|HL].
      * exists g. split; [apply elem_of_app; right; left|].
        apply elem_of_app in HiL as [HiL|HiL];
          [|apply list_elem_of_singleton in HiL; lia].
        apply elem_of_app in HjL as [HjL|HjL];
          [|apply list_elem_of_singleton in HjL; lia].
        auto.
      * exists L. split; [apply elem_of_app; right; right; exact HL|auto].
Qed.

Lemma stable_root (n m : nat) (G : list (list nat)) :
  n <= m -> stable n G (G ++ [[m]]).
Proof.
  intros Hle i j Hi Hj. split; intros (L & HL & HiL & HjL).
  - exists L. split; [apply elem_of_app; auto|auto].
  - apply elem_of_app in HL as [HL|HL]; [exists L; auto|].
    apply list_elem_of_singleton in HL. subst L.
    apply list_elem_of_singleton in HiL. lia.
Qed.

Section LSHOrder.
Context {Image : Type}.
Variable self : LSHDeduplicator Image.
Implicit Types heap : list (HashedImage Image).

Lemma LSH_scan_bucket_ordered (m : nat) (l : list nat) (unique : bool) heap
    (G : list (list nat)) :
  grows lt heap G -> length heap = S m -> Forall (fun i => i < S m) l ->
  concat G ≡ₚ (if unique then seq 0 m else seq 0 (S m)) ->
  sat (LSH_scan_bucket self m l unique heap) any_event
      (fun out => exists G',
           grows lt out.2 G' /\ length out.2 = S m
           /\ concat G' ≡ₚ (if out.1 then seq 0 m else seq 0 (S m))
           /\ map (hd 0) G' = map (hd 0) G /\ stable m G G')
      LSH_failure.
Proof.
  assert (Hdone : forall (unique : bool) heap G,
             grows lt heap G -> length heap = S m ->
             concat G ≡ₚ (if unique then seq 0 m else seq 0 (S m)) ->
             exists G', grows lt heap G' /\ length heap = S m
                        /\ concat G' ≡ₚ (if unique then seq 0 m else seq 0 (S m))
                        /\ map (hd 0) G' = map (hd 0) G /\ stable m G G').
  { intros u0 h0 G0 Hg Hlen Hperm. exists G0.
    split; [exact Hg|]. split; [exact Hlen|]. split; [exact Hperm|].
    split; [reflexivity|apply stable_refl]. }
  revert unique heap G.
  induction l as [|pd l IH]; intros unique heap G Hg Hlen Hl Hperm.
  - apply sat_ret. apply Hdone; assumption.
  - apply Forall_cons in Hl as [Hpd Hl]. cbn [LSH_scan_bucket].
    destruct unique; cbn [negb]; [|apply sat_ret; apply Hdone; assumption].
    destruct (Nat.eqb_spec m pd) as [_|Hne]; [apply IH; assumption|].
    apply sat_deref; [lia|]. intros a Ha.
    apply sat_deref; [lia|]. intros b Hb.
    eapply sat_compare; [apply LSH_distance_unfold|exact I|intros; right; reflexivity|].
    intros Heq.
    destruct (below_threshold (scaled_distance (hash a) (hash b) (_d self)));
      [|apply IH; assumption].
    destruct (grows_attach_placed lt heap G pd m Hg) as
      (G1 & g & G2 & -> & Hin & Hg' & Hperm' & Hheads).
    + rewrite Hperm. apply list_elem_of_In, in_seq. lia.
    + lia.
    + rewrite Hperm. intros Hin. apply list_elem_of_In, in_seq in Hin. lia.
    + lia.
    + eapply sat_bind; [apply sat_emit with (Q := fun _ => True); exact I|].
      intros _ _. eapply sat_mono; [apply IH with (G := G1 ++ (g ++ [m]) :: G2)|..].
      * exact Hg'.
      * rewrite append_duplicate_length. exact Hlen.
      * exact Hl.
      * rewrite Hperm'. apply seq_snoc_perm, Hperm.
      * auto.
      * intros out (G' & H1 & H2 & H3 & H4 & H5). exists G'.
        split; [exact H1|]. split; [exact H2|]. split; [exact H3|].
        split; [congruence|].
        eapply stable_trans; [apply (stable_attach m m G1 G2 g); lia|exact H5].
      * auto.
Qed.

Lemma LSH_bands_ordered (m : nat) (gs : list (list nat)) (unique : bool)
    (tbl : gmap string (list nat)) heap (G : list (list nat)) :
  grows lt heap G -> length heap = S m -> table_below tbl (S m) ->
  concat G ≡ₚ (if unique then seq 0 m else seq 0 (S m)) ->
  sat (LSH_bands self m gs unique tbl heap) any_event
      (fun out => exists G',
           grows lt out.2 G' /\ length out.2 = S m /\ table_below out.1.2 (S m)
           /\ concat G' ≡ₚ (if out.1.1 then seq 0 m else seq 0 (S m))
           /\ map (hd 0) G' = map (hd 0) G /\ stable m G G')
      LSH_failure.
Proof.
  revert unique tbl heap G.
  induction gs as [|g gs IH]; intros unique tbl heap G Hg Hlen Htbl Hperm.
  - apply sat_ret. exists G. cbn [fst snd].
    split; [exact Hg|]. split; [exact Hlen|]. split; [exact Htbl|].
    split; [exact Hperm|]. split; [reflexivity|apply stable_refl].
  - cbn [LSH_bands]. apply sat_deref; [lia|]. intros a Ha.
    eapply sat_bind with (Q1 := fun _ => True).
    { apply sat_lift. destruct (LSH_band_key self (hash a) g) eqn:Hk; [exact I|].
      left. eapply LSH_band_key_raise, Hk. }
    intros g_x _. eapply sat_bind.
    { apply (LSH_scan_bucket_ordered m _ unique heap G); try assumption.
      apply Htbl. }
    intros [unique' heap'] (G' & Hg' & Hlen' & Hperm' & Hheads & Hst).
    cbn [fst snd] in *.
    eapply sat_mono; [apply (IH unique' _ heap' G')|..]; auto.
    + apply table_below_insert; [exact Htbl|lia].
    + intros out (G'' & H1 & H2 & H3 & H4 & H5 & H6). exists G''.
      split; [exact H1|]. split; [exact H2|]. split; [exact H3|].
      split; [exact H4|]. split; [congruence|].
      eapply stable_trans; eassumption.
Qed.

Lemma LSH_loop_ordered (imgs : list Image) (st : LSH_state Image)
    (G : list (list nat)) :
  grows lt (lsh_heap st) G ->
  table_below (lsh_hash_table st) (length (lsh_heap st)) ->
  concat G ≡ₚ seq 0 (length (lsh_heap st)) ->
  lsh_result st = map (hd 0) G -> increasing (lsh_result st) ->
  sat (LSH_loop self imgs st) any_event
      (fun st' => exists G',
           grows lt (lsh_heap st') G'
           /\ table_below (lsh_hash_table st') (length (lsh_heap st'))
           /\ concat G' ≡ₚ seq 0 (length (lsh_heap st'))
           /\ lsh_result st' = map (hd 0) G' /\ increasing (lsh_result st')
           /\ stable (length (lsh_heap st)) G G')
      LSH_failure.
Proof.
  revert st G. induction imgs as [|img imgs IH]; intros st G Hg Htbl Hperm Hres Hinc.
  - apply sat_ret. exists G.
    split; [exact Hg|]. split; [exact Htbl|]. split; [exact Hperm|].
    split; [exact Hres|]. split; [exact Hinc|apply stable_refl].
  - cbn [LSH_loop]. set (m := length (lsh_heap st)) in *.
    set (heap1 := lsh_heap st ++ [mkHashedImage img (_hash_func (lsh_base self) img) []]).
    assert (Hg1 : grows lt heap1 G) by (constructor; [exact Hg|reflexivity]).
    assert (Hlen1 : length heap1 = S m).
    { unfold heap1. rewrite length_app. cbn. lia. }
    eapply sat_bind; [apply sat_emit with (Q := fun _ => True); exact I|].
    intros _ _. eapply sat_bind.
    { apply (LSH_bands_ordered m (_projections self) true (lsh_hash_table st) heap1 G);
        try assumption.
      intros s. eapply Forall_impl; [apply Htbl|]. intros i Hi. simpl in Hi. lia. }
    intros [[unique tbl'] heap'] (G' & Hg' & Hlen' & Htbl' & Hperm' & Hheads & Hst).
    cbn [fst snd] in *.
    eapply sat_mono;
      [apply (IH _ (if unique then G' ++ [[m]] else G'));
       cbn [lsh_heap lsh_hash_table lsh_result]|auto| |auto].
    6: { cbn [lsh_heap]. intros st' (G'' & K1 & K2 & K3 & K4 & K5 & K6). exists G''.
         split; [exact K1|]. split; [exact K2|]. split; [exact K3|].
         split; [exact K4|]. split; [exact K5|].
         eapply stable_trans; [exact Hst|].
         eapply stable_trans; [|eapply stable_mono; [|exact K6]; lia].
         destruct unique; [apply stable_root; lia|apply stable_refl]. }
    + destruct unique; [|exact Hg'].
      constructor; [exact Hg'|lia|].
      rewrite Hperm'. intros Hin. apply list_elem_of_In, in_seq in Hin. lia.
    + rewrite Hlen'. exact Htbl'.
    + rewrite Hlen'. destruct unique; [|exact Hperm'].
      rewrite concat_snoc, Hperm', seq_S. reflexivity.
    + destruct unique; [|congruence]. rewrite map_app. cbn. congruence.
    + destruct unique; [|exact Hinc]. apply increasing_snoc; [exact Hinc|].
      intros r Hr. rewrite Hres in Hr.
      assert (Hp : r ∈ concat G).
      { apply heads_placed; [eapply grows_nonempty; exact Hg|exact Hr]. }
      rewrite Hperm in Hp. apply list_elem_of_In, in_seq in Hp. lia.
Qed.

Lemma LSH_deduplicate_ordered (limit : nat) (imgs : list Image) :
  sat (LSH_deduplicate limit self imgs) any_event
      (fun groups => exists ids,
           Forall2 (Forall2 (fun i img => imgs !! i = Some img)) ids groups
           /\ earliest_first ids /\ increasing (map (hd 0) ids))
      (fun e => LSH_failure e \/ (e = RecursionError /\ limit < length imgs)).
Proof.
  unfold LSH_deduplicate. eapply sat_bind with
    (Q1 := fun st => exists G,
               grows lt (lsh_heap st) G /\ lsh_result st = map (hd 0) G
               /\ increasing (lsh_result st)
               /\ length (lsh_heap st) = length imgs
               /\ forall i r, lsh_heap st !! i = Some r -> imgs !! i = Some (data r)).
  - destruct (LSH_loop_ordered imgs LSH_initial []) as [H1 H2]; cbn; auto.
    + constructor.
    + intros s. cbn. constructor.
    + intros i j a b _ Hi. discriminate.
    + destruct (LSH_loop_final self imgs) as [_ H3].
      split; [exact H1|].
      destruct (snd (LSH_loop self imgs LSH_initial)); [|left; exact H2].
      destruct H2 as (G & Hg & _ & _ & Hres & Hinc & _).
      destruct H3 as (_ & _ & Hheap & _).
      exists G. split; [exact Hg|]. split; [exact Hres|]. split; [exact Hinc|].
      split; [exact (proj1 Hheap)|].
      intros i r Hr. apply (proj2 Hheap i r Hr).
  - intros st (G & Hg & Hres & Hinc & Hlen & Hdata). apply sat_lift. rewrite Hres.
    destruct (flatten_all limit (lsh_heap st) (map (hd 0) G)) as [groups|e] eqn:Hf.
    + destruct (flatten_all_returned _ limit _ G imgs groups Hg Hdata Hf)
        as (ids & HG & Hrel).
      exists ids. split; [exact Hrel|].
      apply (order_transfer G ids); [exact HG| |rewrite <- Hres; exact Hinc].
      pose proof (grows_chain lt _ _ Hg) as Hch.
      eapply Forall_impl; [exact Hch|]. intros g Hgch x Hx.
      eapply rtc_lt_le. apply Hgch, Hx.
    + right. destruct (flatten_all_raises _ limit _ G e Hg Hf) as [-> Hlt].
      split; [reflexivity|]. rewrite <- Hlen. exact Hlt.
Qed.
End LSHOrder.

(** X4: in the list either clusterer returns, every group begins with the
    earliest input image it holds, and the groups follow each other in the
    order of their first images. *)
Theorem groups_in_input_order {Image : Type} (limit : nat)
    (lsh : LSHDeduplicator Image) (bf : Deduplicator Image)
    (imgs : list Image) (groups : list (list Image)) :
  snd (LSH_deduplicate limit lsh imgs) = Ok groups
  \/ snd (BF_deduplicate limit bf imgs) = Ok groups ->
  exists ids,
    Forall2 (Forall2 (fun i img => imgs !! i = Some img)) ids groups
    /\ earliest_first ids /\ increasing (map (hd 0) ids).
Proof.
  intros [H|H].
  - destruct (LSH_deduplicate_ordered lsh limit imgs) as [_ HQ]. rewrite H in HQ. exact HQ.
  - destruct (BF_deduplicate_ordered limit bf imgs) as [_ HQ]. rewrite H in HQ. exact HQ.
Qed.

Lemma groups_in_input_order_witness :
  exists ids,
    Forall2 (Forall2 (fun i img => [2; 0; 3; 1] !! i = Some img)) ids [[2]; [0; 3; 1]]
    /\ earliest_first ids /\ increasing (map (hd 0) ids).
Proof.
  apply (groups_in_input_order sample_limit (lsh_default mixed_hash)
           (mkDeduplicator mixed_hash) [2; 0; 3; 1] [[2]; [0; 3; 1]]).
  right. vm_compute. reflexivity.
Defined.

(** ** Symmetry of the comparison *)

(** X5: the value either clusterer compares with the threshold does not
    depend on the order of the two fingerprints: for equal lengths it is the
    same number, for unequal lengths both orders raise. *)
Theorem comparison_symmetric {Image : Type} (self : LSHDeduplicator Image)
    (u v : list nat) :
  hamming u v = hamming v u
  /\ snd (LSH_distance self u v) = snd (LSH_distance self v u)
  /\ snd (BF_distance (Image := Image) u v) = snd (BF_distance (Image := Image) v u).
Proof.
  assert (H : forall scale,
             (if length u =? length v then Ok (scaled_distance u v scale)
              else Raise DimensionMismatch)
             = (if length v =? length u then Ok (scaled_distance v u scale)
                else Raise DimensionMismatch)).
  { intros scale. rewrite (Nat.eqb_sym (length v)).
    destruct (Nat.eqb_spec (length u) (length v)) as [Heq|_]; [|reflexivity].
    unfold scaled_distance. rewrite count_diff_sym, Heq. reflexivity. }
  split; [|split].
  - unfold hamming. rewrite (Nat.eqb_sym (length v)).
    destruct (Nat.eqb_spec (length u) (length v)) as [Heq|_]; [|reflexivity].
    rewrite count_diff_sym, Heq. reflexivity.
  - rewrite !LSH_distance_unfold. cbn [snd]. apply H.
  - rewrite !BF_distance_unfold. cbn [snd]. apply H.
Qed.

(** ** Edge cases of construction *)


(** ** A clusterer without bands *)

Section NoBands.
Context {Image : Type}.
Variable self : LSHDeduplicator Image.
Hypothesis no_bands : _projections self = [].



End NoBands.



(** ** The difference hash sees only the order of neighbouring samples *)

Lemma row_diff_map (f : N -> N) (row : list N) :
  (forall a b, (a < b)%N -> (f a < f b)%N) ->
  row_diff (map f row) = row_diff row.
Proof.
  intros Hf.
  assert (Hltb : forall a b, (f a <? f b)%N = (a <? b)%N).
  { intros a b. destruct (N.ltb_spec a b) as [Hab|Hab].
    - apply N.ltb_lt, Hf, Hab.
    - apply N.ltb_ge. destruct (N.eq_dec a b) as [->|Hne]; [lia|].
      assert (Hba : (b < a)%N) by lia. apply Hf in Hba. lia. }
  induction row as [|x [|y row] IH]; [reflexivity|reflexivity|].
  change (map f (x :: y :: row)) with (f x :: f y :: map f row).
  rewrite !row_diff_cons, Hltb. f_equal. exact IH.
Qed.

(** X8: the fingerprint depends only on which neighbouring samples of the
    resized grid are in increasing order: two images whose resized grids
    differ by a strictly increasing change of the sample values, such as a
    uniform brightening, have the same fingerprint. *)
Theorem dhash_order_invariant {RGB : Type} (cvtColor_RGB2GRAY : RGB -> list (list N))
    (resize : list (list N) -> nat * nat -> list (list N))
    (f : N -> N) (image image' : RGB) (hash_size : nat) :
  (forall a b, (a < b)%N -> (f a < f b)%N) ->
  resize (cvtColor_RGB2GRAY image') (hash_size + 1, hash_size)
  = map (map f) (resize (cvtColor_RGB2GRAY image) (hash_size + 1, hash_size)) ->
  dhash cvtColor_RGB2GRAY resize image' hash_size
  = dhash cvtColor_RGB2GRAY resize image hash_size.
Proof.
  intros Hf Hresized. unfold dhash. rewrite Hresized, map_map.
  do 2 f_equal. apply map_ext. intros row. apply row_diff_map, Hf.
Qed.

Lemma dhash_order_invariant_witness :
  dhash (fun image => image) sample_resize sample_gray_brighter default_hash_size
  = dhash (fun image => image) sample_resize sample_gray default_hash_size.
Proof.
  apply (dhash_order_invariant (fun image => image) sample_resize brighter
           sample_gray sample_gray_brighter default_hash_size).
  - intros a b Hab. unfold brighter. lia.
  - vm_compute. reflexivity.
Defined.

(** ** Which runs fail, and how *)


Section BFErrors.
Context {Image : Type}.
Implicit Types heap : list (HashedImage Image).



End BFErrors.


(** ** Failures of the approximate clusterer *)

Section LSHErrors.
Context {Image : Type}.
Variable self : LSHDeduplicator Image.
Implicit Types heap : list (HashedImage Image).

Lemma LSH_scan_own (m : nat) (l : list nat) (unique : bool) heap :
  Forall (fun i => i = m) l ->
  LSH_scan_bucket self m l unique heap = mret (unique, heap).
Proof.
  induction 1 as [|pd l -> _ IH]; [reflexivity|].
  cbn [LSH_scan_bucket]. destruct unique; cbn [negb]; [|reflexivity].
  rewrite Nat.eqb_refl. exact IH.
Qed.

Lemma LSH_bands_short (m : nat) (gs : list (list nat)) (unique : bool)
    (tbl : gmap string (list nat)) heap (r : HashedImage Image) :
  heap !! m = Some r ->
  (forall s, Forall (fun i => i = m) (default [] (tbl !! s))) ->
  Exists (fun g => exists p, p ∈ g /\ length (hash r) <= p) gs ->
  sat (LSH_bands self m gs unique tbl heap) any_event (fun _ => False)
      (fun e => e = IndexError).
Proof.
  intros Hr. revert tbl.
  induction gs as [|g gs IH]; intros tbl Htbl Hex; [inversion Hex|].
  cbn [LSH_bands]. rewrite (proj2 (deref_Ok heap m r) Hr), traced_bind_ret.
  destruct (LSH_band_key self (hash r) g) as [s|e] eqn:Hk.
  - rewrite traced_bind_ret, LSH_scan_own by apply Htbl.
    eapply sat_bind; [apply sat_ret with (Q := fun out => out = (unique, heap));
                      reflexivity|].
    intros [unique' heap'] [= -> ->]. apply IH.
    + intros s'. destruct (decide (s = s')) as [<-|Hne].
      * rewrite lookup_insert_eq. cbn [default]. apply Forall_app.
        split; [apply Htbl|]. repeat constructor.
      * rewrite lookup_insert_ne by exact Hne. apply Htbl.
    + apply Exists_cons in Hex as [(p & Hp & Hle)|Hex]; [|exact Hex].
      rewrite (LSH_band_key_bad self (hash r) g p Hp Hle) in Hk. discriminate.
  - split; [constructor|]. cbn. eapply LSH_band_key_raise, Hk.
Qed.

Lemma LSH_deduplicate_short (limit : nat) (img : Image) (imgs : list Image) :
  Exists (fun g => exists p, p ∈ g /\ length (_hash_func (lsh_base self) img) <= p)
         (_projections self) ->
  snd (LSH_deduplicate limit self (img :: imgs)) = Raise IndexError.
Proof.
  intros Hex. apply sat_raises with (Ev := any_event). unfold LSH_deduplicate.
  eapply sat_bind with (Q1 := fun _ => False); [|intros ? []].
  cbn [LSH_loop].
  eapply sat_bind; [apply sat_emit with (Q := fun _ => True); exact I|].
  intros _ _. eapply sat_bind with (Q1 := fun _ => False); [|intros ? []].
  eapply LSH_bands_short.
  - reflexivity.
  - intros s. cbn. rewrite lookup_empty. constructor.
  - exact Hex.
Qed.

End LSHErrors.

(** X10: when a band holds a position outside the fingerprint of the first
    image, the approximate clusterer raises [IndexError] on any input that
    starts with this image. *)
Theorem LSH_short_first_fingerprint {Image : Type} (limit : nat)
    (self : LSHDeduplicator Image) (img : Image) (imgs : list Image)
    (g : list nat) (p : nat) :
  g ∈ _projections self -> p ∈ g -> length (_hash_func (lsh_base self) img) <= p ->
  snd (LSH_deduplicate limit self (img :: imgs)) = Raise IndexError.
Proof.
  intros Hg Hp Hle. apply LSH_deduplicate_short.
  apply Exists_exists. exists g. split; [exact Hg|]. exists p. auto.
Qed.

Lemma LSH_short_first_fingerprint_witness :
  snd (LSH_deduplicate sample_limit lsh_band_60 [0; 1; 2]) = Raise IndexError.
Proof.
  apply (LSH_short_first_fingerprint sample_limit lsh_band_60 0 [1; 2] [3; 60] 60).
  - apply list_elem_of_In. simpl. auto.
  - apply list_elem_of_In. simpl. auto.
  - vm_compute. lia.
Defined.



(** ** Equal fingerprints under the approximate clusterer *)

Lemma find_app {A : Type} (P : A -> bool) (l1 l2 : list A) :
  find P (l1 ++ l2)
  = match find P l1 with
    | Some x => Some x
    | None => find P l2
    end.
Proof.
  induction l1 as [|x l1 IH]; [reflexivity|]. cbn. destruct (P x); auto.
Qed.

Lemma bucket_of_below (ins : list (string * nat)) (s : string) (m : nat) :
  Forall (fun kv => snd kv < m) ins -> Forall (fun i => i < m) (bucket_of ins s).
Proof.
  intros H. unfold bucket_of. rewrite Forall_map.
  apply Forall_forall. intros kv Hkv. apply list_elem_of_filter in Hkv as [_ Hkv].
  rewrite Forall_forall in H. apply H, Hkv.
Qed.

Lemma sat_both {Image A : Type} (m : traced (Image := Image) A) Ev Ev'
    (Q Q' : A -> Prop) (Ex Ex' : exn -> Prop) :
  sat m Ev Q Ex -> sat m Ev' Q' Ex' -> sat m Ev (fun a => Q a /\ Q' a) Ex.
Proof.
  intros [H1 H2] [_ H3]. split; [exact H1|].
  destruct (snd m); [split; assumption|exact H2].
Qed.

Lemma sat_try {Image A B : Type} (r : result A) (f : A -> traced (Image := Image) B)
    Ev (Q : B -> Prop) :
  (forall a, r = Ok a -> sat (f a) Ev Q any_exn) ->
  sat (lift r ≫= f) Ev Q any_exn.
Proof.
  intros H. destruct r as [a|e].
  - rewrite traced_bind_ret. apply H. reflexivity.
  - split; [constructor|exact I].
Qed.

Section Edges.
Context {Image : Type}.
Implicit Types heap : list (HashedImage Image).

Lemma edge_append heap (p c p' c' : nat) :
  edge heap p c -> edge (append_duplicate heap p' c') p c.
Proof.
  intros (r & Hr & Hin). destruct (decide (p = p')) as [<-|Hne].
  - eexists. split; [apply append_duplicate_lookup_eq; exact Hr|].
    cbn. apply elem_of_app. left. exact Hin.
  - exists r. split; [|exact Hin].
    rewrite append_duplicate_lookup_ne by exact Hne. exact Hr.
Qed.

Lemma edge_alloc heap (x : HashedImage Image) (p c : nat) :
  edge heap p c -> edge (heap ++ [x]) p c.
Proof.
  intros (r & Hr & Hin). exists r. split; [|exact Hin].
  apply lookup_app_l_Some, Hr.
Qed.

Lemma edge_new heap (p c : nat) (r : HashedImage Image) :
  heap !! p = Some r -> edge (append_duplicate heap p c) p c.
Proof.
  intros Hr. eexists. split; [apply append_duplicate_lookup_eq; exact Hr|].
  cbn. apply elem_of_app. right. left.
Qed.

Lemma hashes_stored_append (hs : list fingerprint) heap (p c : nat) :
  hashes_stored hs heap -> hashes_stored hs (append_duplicate heap p c).
Proof.
  intros H i r' Hr'.
  destruct (append_duplicate_lookup heap p c i r' Hr') as (r & Hr & _ & Hh & _).
  rewrite Hh. apply H, Hr.
Qed.
End Edges.

Section LSHAdoption.
Context {Image : Type}.
Variable self : LSHDeduplicator Image.
Variable hs : list fingerprint.
Implicit Types heap : list (HashedImage Image).

Local Abbreviation Ev := (compares_collisions self hs).

Lemma LSH_scan_bucket_adopts (m : nat) (u : fingerprint) (g : list nat)
    (l : list nat) (unique : bool) heap :
  hashes_stored hs heap -> hs !! m = Some u -> g ∈ _projections self ->
  Forall (fun pd => pd <= m
                    /\ exists v g', hs !! pd = Some v /\ g' ∈ _projections self
                                    /\ key_of v g' = key_of u g) l ->
  sat (LSH_scan_bucket self m l unique heap) Ev
      (fun out =>
         hashes_stored hs out.2 /\ length out.2 = length heap
         /\ (forall p c, edge heap p c -> edge out.2 p c)
         /\ (unique = true -> Forall (fun i => i < m) l ->
             forall p, find (near_to self hs u) l = Some p -> edge out.2 p m))
      any_exn.
Proof.
  intros HS Hm Hg. revert unique heap HS.
  induction l as [|pd l IH]; intros unique heap HS Hl.
  - apply sat_ret. cbn. split; [exact HS|]. split; [reflexivity|].
    split; [auto|]. intros _ _ p Hp. discriminate.
  - apply Forall_cons in Hl as [(Hle & v & g' & Hv & Hg' & Hkey) Hl].
    cbn [LSH_scan_bucket]. destruct unique; cbn [negb].
    2: { apply sat_ret. cbn. split; [exact HS|]. split; [reflexivity|].
         split; [auto|]. intros H. discriminate. }
    destruct (Nat.eqb_spec m pd) as [->|Hne].
    + eapply sat_mono; [apply (IH true heap HS Hl)|auto| |auto].
      intros out (H1 & H2 & H3 & H4).
      split; [exact H1|]. split; [exact H2|]. split; [exact H3|].
      intros _ Hall. apply Forall_cons in Hall as [Hlt _]. lia.
    + apply sat_try. intros a Ha. apply sat_try. intros b Hb.
      apply deref_Ok in Ha, Hb.
      pose proof (HS m a Ha) as Hua. pose proof (HS pd b Hb) as Hub.
      assert (Hu : hash a = u) by congruence.
      assert (Hvb : hash b = v) by congruence.
      eapply sat_compare; [apply LSH_distance_unfold| |intros; exact I|].
      { exists m, pd. split; [lia|]. split; [exact Hua|]. split; [exact Hub|].
        exists g, g'. rewrite Hu, Hvb. auto. }
      intros Heq.
      assert (Hnear : near_to self hs u pd
                      = below_threshold (scaled_distance (hash a) (hash b) (_d self))).
      { unfold near_to, LSH_near. rewrite Hub, Hu. reflexivity. }
      destruct (below_threshold (scaled_distance (hash a) (hash b) (_d self))).
      * eapply sat_bind; [apply sat_emit with (Q := fun _ => True); exact I|].
        intros _ _.
        eapply sat_mono;
          [apply (IH false (append_duplicate heap pd m));
           [apply hashes_stored_append, HS|exact Hl]
          |auto| |auto].
        intros out (H1 & H2 & H3 & _).
        split; [exact H1|]. split; [rewrite H2; apply append_duplicate_length|].
        split; [intros p c Hpc; apply H3, edge_append, Hpc|].
        intros _ _ p Hp. cbn [find] in Hp. rewrite Hnear in Hp. injection Hp as <-.
        apply H3. eapply edge_new; exact Hb.
      * eapply sat_mono; [apply (IH true heap HS Hl)|auto| |auto].
        intros out (H1 & H2 & H3 & H4).
        split; [exact H1|]. split; [exact H2|]. split; [exact H3|].
        intros _ Hall p Hp. cbn [find] in Hp. rewrite Hnear in Hp.
        apply Forall_cons in Hall as [_ Hall]. apply H4; auto.
Qed.

Lemma LSH_bands_adopts (m : nat) (u : fingerprint) (gs : list (list nat))
    (unique : bool) (tbl : gmap string (list nat)) heap
    (ins : list (string * nat)) :
  hashes_stored hs heap -> hs !! m = Some u ->
  (forall g, g ∈ gs -> g ∈ _projections self) ->
  table_holds tbl ins -> sound_insertions self hs m ins ->
  sat (LSH_bands self m gs unique tbl heap) Ev
      (fun out =>
         hashes_stored hs out.2 /\ length out.2 = length heap
         /\ (forall p c, edge heap p c -> edge out.2 p c)
         /\ table_holds out.1.2 (ins ++ map (fun g => (key_of u g, m)) gs)
         /\ (unique = true -> forall g0 gs', gs = g0 :: gs' ->
             Forall (fun i => i < m) (bucket_of ins (key_of u g0)) ->
             forall p, find (near_to self hs u) (bucket_of ins (key_of u g0)) = Some p ->
                       edge out.2 p m))
      any_exn.
Proof.
  intros HS Hm. revert unique tbl heap ins HS.
  induction gs as [|g gs IH]; intros unique tbl heap ins HS Hgs Htbl Hins.
  - apply sat_ret. cbn. rewrite app_nil_r. split; [exact HS|]. split; [reflexivity|].
    split; [auto|]. split; [exact Htbl|]. intros _ g0 gs' H. discriminate.
  - cbn [LSH_bands]. apply sat_try. intros a Ha. apply deref_Ok in Ha.
    assert (Hu : hash a = u) by (pose proof (HS m a Ha); congruence).
    apply sat_try. intros g_x Hk. apply LSH_band_key_Ok in Hk as [Hk _].
    assert (Hkey : key_of u g = g_x) by (unfold key_of; rewrite <- Hu, Hk; reflexivity).
    assert (Hg : g ∈ _projections self) by (apply Hgs; left).
    eapply sat_bind.
    { apply (LSH_scan_bucket_adopts m u g _ unique heap HS Hm Hg).
      rewrite (Htbl g_x). apply Forall_forall. intros pd Hpd.
      apply bucket_of_elem in Hpd. unfold sound_insertions in Hins.
      rewrite Forall_forall in Hins. specialize (Hins _ Hpd). cbn in Hins.
      rewrite Hkey. exact Hins. }
    intros [unique' heap'] (H1 & H2 & H3 & H4). cbn [fst snd] in *.
    eapply sat_mono;
      [apply (IH unique' _ heap' (ins ++ [(g_x, m)]) H1);
       [intros g' Hg'; apply Hgs; right; exact Hg'
       |apply table_holds_insert, Htbl|]
      |auto| |auto].
    + apply Forall_app. split; [exact Hins|]. repeat constructor. cbn.
      exists u, g. auto.
    + intros out (K1 & K2 & K3 & K4 & _).
      split; [exact K1|]. split; [congruence|].
      split; [intros p c Hpc; apply K3, H3, Hpc|].
      split; [cbn [map]; rewrite Hkey; rewrite <- app_assoc in K4; exact K4|].
      intros Hun g0 gs' [= <- <-] Hall p Hp. apply K3.
      rewrite Hkey in Hall, Hp. rewrite (Htbl g_x) in H4. apply H4; assumption.
Qed.
End LSHAdoption.

Section LSHAdoptionRun.
Context {Image : Type}.
Variable limit : nat.
Variable self : LSHDeduplicator Image.
Variable all : list Image.
Implicit Types heap : list (HashedImage Image).

Local Abbreviation hf := (_hash_func (lsh_base self)).
Local Abbreviation hs := (LSH_hashes self all).

Lemma LSH_loop_adopts (pre rest : list Image) (st : LSH_state Image) :
  all = pre ++ rest ->
  length (lsh_heap st) = length pre -> hashes_stored hs (lsh_heap st) ->
  table_holds (lsh_hash_table st) (insertions self (LSH_hashes self pre)) ->
  adopted self hs (lsh_heap st) (length pre) ->
  sat (LSH_loop self rest st) (compares_collisions self hs)
      (fun st' => adopted self hs (lsh_heap st') (length all))
      any_exn.
Proof.
  revert pre st. induction rest as [|img rest IH];
    intros pre st Hall Hlen HS Htbl Had.
  - rewrite app_nil_r in Hall. subst pre. apply sat_ret. exact Had.
  - cbn [LSH_loop]. set (m := length (lsh_heap st)) in *.
    set (heap1 := lsh_heap st ++ [mkHashedImage img (hf img) []]).
    assert (Hm : hs !! m = Some (hf img)).
    { unfold LSH_hashes. rewrite lookup_map, Hall, Hlen.
      rewrite list_lookup_middle by reflexivity. reflexivity. }
    assert (HS1 : hashes_stored hs heap1).
    { intros i r Hr. unfold heap1 in Hr.
      apply lookup_app_Some in Hr as [Hr|[Hge Hr]]; [apply HS, Hr|].
      fold m in Hge, Hr. destruct (i - m) as [|k] eqn:Hk; [|destruct k; discriminate].
      cbn in Hr. injection Hr as <-. cbn. replace i with m by lia. exact Hm. }
    assert (Hpre : take m hs = LSH_hashes self pre).
    { unfold LSH_hashes. rewrite Hall, map_app.
      apply take_app_length'. rewrite length_map. exact Hlen. }
    eapply sat_bind; [apply sat_emit with (Q := fun _ => True); exact I|].
    intros _ _. eapply sat_bind.
    { apply (LSH_bands_adopts self hs m (hf img) (_projections self) true
               (lsh_hash_table st) heap1 (insertions self (LSH_hashes self pre))
               HS1 Hm (fun g Hg => Hg) Htbl).
      apply Forall_forall. intros [s i] Hin. cbn.
      apply insertions_from_elem in Hin as (v & g & _ & Hv & Hg & Hs).
      rewrite Nat.sub_0_r in Hv. pose proof (lookup_lt_Some _ _ _ Hv) as Hi.
      rewrite <- Hpre in Hv. apply lookup_take_Some in Hv as [Hv _].
      unfold LSH_hashes in Hi. rewrite length_map in Hi.
      split; [lia|]. exists v, g. auto. }
    intros [[unique tbl'] heap'] (H1 & H2 & H3 & H4 & H5). cbn [fst snd] in *.
    assert (Hlen1 : length heap1 = S m).
    { unfold heap1. rewrite length_app. cbn. lia. }
    apply (IH (pre ++ [img])); cbn [lsh_heap lsh_hash_table lsh_result].
    + rewrite <- app_assoc. exact Hall.
    + rewrite H2, Hlen1, length_app. cbn. lia.
    + exact H1.
    + replace (LSH_hashes self (pre ++ [img])) with (LSH_hashes self pre ++ [hf img])
        by (unfold LSH_hashes; rewrite map_app; reflexivity).
      rewrite insertions_snoc.
      replace (length (LSH_hashes self pre)) with m
        by (unfold LSH_hashes; rewrite length_map; lia).
      exact H4.
    + intros c p Hc Hp. rewrite length_app in Hc. cbn in Hc.
      destruct (decide (c = m)) as [->|Hne].
      * unfold first_near in Hp. rewrite Hm in Hp. unfold first_band_bucket in Hp.
        destruct (_projections self) as [|g0 gs'] eqn:Hproj; [discriminate|].
        rewrite Hm, Hpre in Hp.
        apply (H5 eq_refl g0 gs' eq_refl); [|exact Hp].
        apply bucket_of_below.
        eapply Forall_impl; [apply insertions_from_bound|].
        intros kv H. simpl in H. unfold LSH_hashes in H. rewrite length_map in H. lia.
      * apply H3, edge_alloc, Had; [lia|exact Hp].
Qed.

Lemma LSH_deduplicate_adopts :
  sat (LSH_deduplicate limit self all)
      (stored_grows (LSH_linked self hs))
      (fun groups => exists ids,
           partition_of all ids groups
           /\ forall c p, c < length all -> first_near self hs c = Some p ->
                          same_group ids p c)
      (fun e => ~ LSH_inputs_ok self hs \/ (e = RecursionError /\ limit < length all)).
Proof.
  unfold LSH_deduplicate. eapply sat_bind.
  { eapply sat_mono;
      [apply (sat_both _ _ (compares_collisions self hs) _
                (fun st' => adopted self hs (lsh_heap st') (length all)) _ any_exn
                (LSH_loop_final self all))|auto
      |intros st H; exact H|intros e H; left; exact H].
    apply (LSH_loop_adopts [] all LSH_initial); cbn; auto.
    - intros i r Hr. discriminate.
    - intros s. reflexivity.
    - intros c p Hc. lia. }
  intros st ((G & Hg & Hheap & _ & Hperm & Hres) & Had). apply sat_lift. rewrite Hres.
  destruct (flatten_all limit (lsh_heap st) (map (hd 0) G)) as [groups|e] eqn:Hf.
  - destruct (flatten_all_returned _ limit _ G all groups Hg) as (ids & HG & Hrel);
      [intros i r Hr; apply (proj2 Hheap i r Hr)|exact Hf|].
    exists ids. split.
    + eapply groups_partition; try eassumption.
      eapply grows_nonempty; exact Hg.
    + intros c p Hc Hp. destruct (Had c p Hc Hp) as (r & Hr & Hin).
      destruct (grows_children _ _ _ _ _ _ Hg Hr Hin) as (g & Hgin & Hpg & Hcg & _).
      apply list_elem_of_lookup in Hgin as (k & Hk).
      destruct (Forall2_lookup_l _ _ _ _ _ HG Hk) as (L & HL & HP & _).
      exists L. split; [eapply list_elem_of_lookup_2; exact HL|].
      rewrite HP. auto.
  - right. destruct (flatten_all_raises _ limit _ G e Hg Hf) as [-> Hlt].
    split; [reflexivity|]. rewrite <- (proj1 Hheap). exact Hlt.
Qed.

Lemma LSH_deduplicate_collisions :
  Forall (compares_collisions self hs) (fst (LSH_deduplicate limit self all)).
Proof.
  assert (H : sat (LSH_deduplicate limit self all) (compares_collisions self hs)
                  (fun _ => True) any_exn); [|exact (proj1 H)].
  unfold LSH_deduplicate. eapply sat_bind.
  - apply (LSH_loop_adopts [] all LSH_initial); cbn; auto.
    + intros i r Hr. discriminate.
    + intros s. reflexivity.
    + intros c p Hc. lia.
  - intros st _. apply sat_lift. destruct (flatten_all _ _); exact I.
Qed.

Lemma first_near_twins (i j : nat) (u : fingerprint) (g0 : list nat)
    (gs' : list (list nat)) :
  _projections self = g0 :: gs' -> LSH_near self u u = true ->
  i < j -> hs !! i = Some u -> hs !! j = Some u ->
  first_near self hs j = Some i
  \/ exists p, first_near self hs i = Some p /\ first_near self hs j = Some p.
Proof.
  intros Hproj Hnear Hij Hi Hj.
  set (Bi := bucket_of (insertions self (take i hs)) (key_of u g0)).
  assert (Hfi : first_near self hs i = find (near_to self hs u) Bi).
  { unfold first_near, first_band_bucket. rewrite Hi, Hproj. reflexivity. }
  assert (Hfj : first_near self hs j
                = match find (near_to self hs u) Bi with
                  | Some x => Some x
                  | None => Some i
                  end).
  { unfold first_near, first_band_bucket. rewrite Hj, Hproj.
    assert (Hsplit : take j hs = take i hs ++ u :: drop (S i) (take j hs)).
    { rewrite <- (take_drop_middle (take j hs) i u) at 1.
      - rewrite take_take. replace (i `min` j) with i by lia. reflexivity.
      - rewrite lookup_take_lt by exact Hij. exact Hi. }
    rewrite Hsplit. unfold insertions. rewrite insertions_from_app.
    cbn [insertions_from]. rewrite Hproj. cbn [map].
    rewrite !bucket_of_app. unfold bucket_of at 2. cbn [app].
    rewrite filter_cons_True by reflexivity. cbn [map snd].
    rewrite find_app. fold (insertions self (take i hs)). fold Bi.
    destruct (find (near_to self hs u) Bi) as [p|]; [reflexivity|].
    cbn [app find].
    assert (Hlen : 0 + length (take i hs) = i).
    { rewrite length_take. apply lookup_lt_Some in Hi. lia. }
    rewrite Hlen. unfold near_to at 1. rewrite Hi, Hnear. reflexivity. }
  rewrite Hfi, Hfj.
  destruct (find (near_to self hs u) Bi) as [p|]; [right; exists p; auto|left; reflexivity].
Qed.
End LSHAdoptionRun.

Lemma same_group_sym (ids : list (list nat)) (i j : nat) :
  same_group ids i j -> same_group ids j i.
Proof. intros (L & HL & Hi & Hj). exists L. auto. Qed.

Lemma same_group_via (ids : list (list nat)) (p i j : nat) :
  NoDup (concat ids) -> same_group ids p i -> same_group ids p j ->
  same_group ids i j.
Proof.
  intros Hnd (L & HL & Hp & Hi) (L' & HL' & Hp' & Hj).
  exists L. split; [exact HL|]. split; [exact Hi|].
  apply list_elem_of_split in HL as (G1 & G2 & ->).
  apply elem_of_app in HL' as [HL'|HL'].
  - destruct (group_apart G1 G2 L L' p Hnd Hp (or_introl HL') Hp').
  - apply elem_of_cons in HL' as [->|HL']; [exact Hj|].
    destruct (group_apart G1 G2 L L' p Hnd Hp (or_intror HL') Hp').
Qed.

(** X12: when the clusterer has at least one band and a fingerprint passes
    the threshold test against itself, the groups the approximate clusterer
    returns, whenever it returns, hold two images with equal fingerprints
    together. *)
Theorem LSH_equal_fingerprints_share_group {Image : Type} (limit : nat)
    (self : LSHDeduplicator Image) (imgs : list Image) (groups : list (list Image))
    (i j : nat) (u : list nat) :
  _projections self <> [] ->
  LSH_near self u u = true ->
  LSH_hashes self imgs !! i = Some u -> LSH_hashes self imgs !! j = Some u ->
  snd (LSH_deduplicate limit self imgs) = Ok groups ->
  exists ids, partition_of imgs ids groups /\ same_group ids i j.
Proof.
  intros Hproj Hnear Hi Hj Hrun.
  destruct (LSH_deduplicate_adopts limit self imgs) as [_ HQ]. rewrite Hrun in HQ.
  destruct HQ as (ids & Hpart & Had).
  exists ids. split; [exact Hpart|].
  destruct (_projections self) as [|g0 gs'] eqn:Hp; [congruence|].
  assert (Hn : forall k, LSH_hashes self imgs !! k = Some u -> k < length imgs).
  { intros k Hk. apply lookup_lt_Some in Hk. unfold LSH_hashes in Hk.
    rewrite length_map in Hk. exact Hk. }
  assert (Hnd : NoDup (concat ids)).
  { destruct Hpart as (_ & Hperm & _). rewrite Hperm. apply NoDup_ListNoDup, seq_NoDup. }
  assert (Hlt : forall a b, a < b ->
            LSH_hashes self imgs !! a = Some u -> LSH_hashes self imgs !! b = Some u ->
            same_group ids a b).
  { intros a b Hab Ha Hb.
    destruct (first_near_twins self imgs a b u g0 gs' Hp Hnear Hab Ha Hb)
      as [H|(p & H1 & H2)].
    - apply Had; [apply Hn, Hb|exact H].
    - apply (same_group_via ids p); [exact Hnd|apply Had..]; auto. }
  destruct (lt_eq_lt_dec i j) as [[H|H]|H].
  - apply Hlt; assumption.
  - subst j. destruct Hpart as (_ & Hperm & _).
    assert (Hc : i ∈ concat ids).
    { rewrite Hperm. apply list_elem_of_In, in_seq. specialize (Hn i Hi). lia. }
    apply elem_of_concat in Hc as (L & HL & HiL). exists L. auto.
  - apply same_group_sym, Hlt; assumption.
Qed.

Lemma LSH_equal_fingerprints_share_group_witness :
  exists ids, partition_of [0; 1; 2] ids [[0; 2]; [1]] /\ same_group ids 0 2.
Proof.
  apply (LSH_equal_fingerprints_share_group sample_limit (lsh_default twin_hash)
           [0; 1; 2] [[0; 2]; [1]] 0 2 (twin_hash 0)).
  - vm_compute. discriminate.
  - vm_compute. reflexivity.
  - vm_compute. reflexivity.
  - vm_compute. reflexivity.
  - vm_compute. reflexivity.
Defined.

(** X13: the approximate clusterer compares an image only with an earlier
    image of the input that collides with it: some band of the one and some
    band of the other give the same key string. *)
Theorem LSH_compares_only_collisions {Image : Type} (limit : nat)
    (self : LSHDeduplicator Image) (imgs : list Image) (u v : list nat) :
  Compared u v ∈ fst (LSH_deduplicate limit self imgs) ->
  exists i j,
    j < i /\ LSH_hashes self imgs !! i = Some u /\ LSH_hashes self imgs !! j = Some v
    /\ collide self u v.
Proof.
  intros Hin. pose proof (LSH_deduplicate_collisions limit self imgs) as H.
  rewrite Forall_forall in H. exact (H _ Hin).
Qed.

Lemma LSH_compares_only_collisions_witness :
  exists i j,
    j < i /\ LSH_hashes lsh_two_bands [0; 1] !! i = Some (crossed_hash 1)
    /\ LSH_hashes lsh_two_bands [0; 1] !! j = Some (crossed_hash 0)
    /\ collide lsh_two_bands (crossed_hash 1) (crossed_hash 0).
Proof.
  apply (LSH_compares_only_collisions sample_limit lsh_two_bands [0; 1]
           (crossed_hash 1) (crossed_hash 0)).
  apply list_elem_of_In. vm_compute. auto.
Defined.
(** ** Returned groups *)

(** X14: whenever either clusterer returns groups, whatever the fingerprints,
    the bands and the recursion limit, the groups are non-empty, hold as many
    images as the input, and place every input position in exactly one
    group. *)
Theorem returned_groups_partition {Image : Type} (limit : nat)
    (lsh : LSHDeduplicator Image) (bf : Deduplicator Image)
    (imgs : list Image) (groups : list (list Image)) :
  snd (LSH_deduplicate limit lsh imgs) = Ok groups
  \/ snd (BF_deduplicate limit bf imgs) = Ok groups ->
  exists ids, partition_of imgs ids groups.
Proof.
  intros [H|H].
  - destruct (LSH_deduplicate_sat limit lsh imgs) as [_ HQ]. rewrite H in HQ.
    destruct HQ as (ids & Hpart & _). exists ids. exact Hpart.
  - destruct (BF_deduplicate_sat limit bf imgs) as [_ HQ]. rewrite H in HQ.
    destruct HQ as (_ & ids & _ & _ & _ & Hpart & _). exists ids. exact Hpart.
Qed.

Lemma returned_groups_partition_witness :
  exists ids, partition_of [0; 1; 2; 3] ids [[0; 1; 3]; [2]].
Proof.
  apply (returned_groups_partition sample_limit (lsh_default mixed_hash)
           (mkDeduplicator mixed_hash) [0; 1; 2; 3] [[0; 1; 3]; [2]]).
  left. vm_compute. reflexivity.
Defined.

(** ** A single image *)




(** ** How many groups *)

Lemma length_concat_ge {A : Type} (G : list (list A)) :
  Forall (fun g => g <> []) G -> length G <= length (concat G).
Proof.
  induction 1 as [|g G Hg _ IH]; [reflexivity|].
  cbn. rewrite length_app. destruct g; [congruence|]. cbn. lia.
Qed.

Lemma partition_ids {Image : Type} (imgs : list Image) (ids : list (list nat))
    (groups : list (list Image)) :
  partition_of imgs ids groups ->
  Forall (fun L => L <> []) ids /\ length ids = length groups.
Proof.
  intros (Hrel & _ & Hne & _). split; [|eapply Forall2_length; exact Hrel].
  induction Hrel as [|L g ids groups HLg _ IH]; [constructor|].
  apply Forall_cons in Hne as [Hg Hne]. constructor; [|apply IH, Hne].
  intros ->. inversion HLg. congruence.
Qed.

(** Groups that are pairwise apart under [key] have pairwise distinct keys at
    their heads. *)
Lemma heads_keys_NoDup (key : nat -> nat) (ids : list (list nat)) :
  NoDup (concat ids) -> Forall (fun L => L <> []) ids ->
  (forall L1 L2 x1 x2, L1 ∈ ids -> L2 ∈ ids -> x1 ∈ L1 -> x2 ∈ L2 ->
                       key x1 = key x2 -> exists L, L ∈ ids /\ x1 ∈ L /\ x2 ∈ L) ->
  NoDup (map (fun L => key (hd 0 L)) ids).
Proof.
  induction ids as [|L rest IH]; intros Hnd Hne Hkey; [constructor|].
  apply Forall_cons in Hne as [HL Hne]. cbn [concat] in Hnd.
  apply NoDup_app in Hnd as (_ & Hdis & Hnd).
  assert (Hhd : forall L0, L0 <> [] -> hd 0 L0 ∈ L0)
    by (intros [|x L0] H; [congruence|left]).
  assert (Hin : forall L0 x, L0 ∈ rest -> x ∈ L0 -> x ∈ concat rest)
    by (intros L0 x H1 H2; apply elem_of_concat; eauto).
  cbn [map]. constructor.
  - intros Hmem. apply list_elem_of_In, in_map_iff in Hmem as (L2 & Heq & HL2).
    apply list_elem_of_In in HL2.
    assert (HL2ne : L2 <> []).
    { rewrite Forall_forall in Hne. apply Hne, HL2. }
    assert (HLin : L ∈ L :: rest) by left.
    assert (HL2in : L2 ∈ L :: rest) by (right; exact HL2).
    destruct (Hkey L L2 (hd 0 L) (hd 0 L2) HLin HL2in (Hhd L HL) (Hhd L2 HL2ne)
                (eq_sym Heq)) as (L0 & HL0 & H1 & H2).
    apply elem_of_cons in HL0 as [->|HL0].
    + apply (Hdis (hd 0 L2) H2). apply (Hin L2); [exact HL2|apply Hhd, HL2ne].
    + apply (Hdis (hd 0 L) (Hhd L HL)). apply (Hin L0); assumption.
  - apply IH; [exact Hnd|exact Hne|].
    intros L1 L2 x1 x2 HL1 HL2 Hx1 Hx2 Heq.
    assert (HL1in : L1 ∈ L :: rest) by (right; exact HL1).
    assert (HL2in : L2 ∈ L :: rest) by (right; exact HL2).
    destruct (Hkey L1 L2 x1 x2 HL1in HL2in Hx1 Hx2 Heq) as (L0 & HL0 & H1 & H2).
    apply elem_of_cons in HL0 as [->|HL0]; [|eauto].
    destruct (Hdis x1 H1). apply (Hin L1); assumption.
Qed.

Lemma refines_count (n : nat) (ids ids' : list (list nat)) :
  concat ids ≡ₚ seq 0 n -> concat ids' ≡ₚ seq 0 n ->
  Forall (fun L => L <> []) ids' -> refines ids ids' ->
  length ids' <= length ids.
Proof.
  intros Hperm Hperm' Hne Href.
  set (key := fun x => match list_find (fun L => x ∈ L) ids with
                       | Some (k, _) => k
                       | None => 0
                       end).
  assert (Hfound : forall L' x, L' ∈ ids' -> x ∈ L' ->
             exists k L, ids !! k = Some L /\ x ∈ L /\ key x = k).
  { intros L' x HL' Hx.
    assert (Hc : x ∈ concat ids).
    { rewrite Hperm, <- Hperm'. apply elem_of_concat. eauto. }
    apply elem_of_concat in Hc as (L & HL & HxL).
    destruct (list_find_elem_of (fun L => x ∈ L) ids L HL HxL) as [[k L0] Hf].
    pose proof Hf as Hf'. apply list_find_Some in Hf' as (Hk & HxL0 & _).
    exists k, L0. split; [exact Hk|]. split; [exact HxL0|].
    unfold key. rewrite Hf. reflexivity. }
  rewrite <- (length_map (fun L => key (hd 0 L)) ids').
  apply NoDup_bounded_length.
  - apply heads_keys_NoDup.
    + rewrite Hperm'. apply NoDup_ListNoDup, seq_NoDup.
    + exact Hne.
    + intros L1 L2 x1 x2 HL1 HL2 Hx1 Hx2 Heq.
      destruct (Hfound L1 x1 HL1 Hx1) as (k1 & La & Hk1 & Ha & E1).
      destruct (Hfound L2 x2 HL2 Hx2) as (k2 & Lb & Hk2 & Hb & E2).
      assert (Hk : k1 = k2) by congruence. subst k2.
      assert (La = Lb) by congruence. subst Lb.
      apply Href. exists La. split; [eapply list_elem_of_lookup_2; exact Hk1|auto].
  - intros k Hk. apply list_elem_of_In, in_map_iff in Hk as (L' & <- & HL').
    apply list_elem_of_In in HL'.
    assert (HL'ne : L' <> []) by (rewrite Forall_forall in Hne; apply Hne, HL').
    destruct (Hfound L' (hd 0 L') HL') as (k & L & Hk & _ & ->).
    + destruct L'; [congruence|left].
    + eapply lookup_lt_Some; exact Hk.
Qed.

(** X16: with [d = 64], on fingerprints of one length, whenever the
    approximate clusterer and the exact clusterer, run with the same hash
    function, both return groups, the approximate one returns at least as
    many groups as the exact one, and at most one group per image. *)
Theorem LSH_finds_no_fewer_groups {Image : Type} (limit limit' : nat)
    (self : LSHDeduplicator Image) (imgs : list Image)
    (lsh_groups bf_groups : list (list Image)) :
  _d self = 64 ->
  uniform_lengthb (LSH_hashes self imgs) = true ->
  snd (LSH_deduplicate limit self imgs) = Ok lsh_groups ->
  snd (BF_deduplicate limit' (lsh_base self) imgs) = Ok bf_groups ->
  length bf_groups <= length lsh_groups /\ length lsh_groups <= length imgs.
Proof.
  intros Hd Huni Hlrun Hbrun. apply uniform_lengthb_spec in Huni.
  destruct (LSH_refines_BF_run limit limit' self imgs lsh_groups bf_groups
              Hd Huni Hlrun Hbrun)
    as (lids & bids & Hlpart & Hbpart & Href).
  destruct (partition_ids _ _ _ Hlpart) as [Hlne Hllen].
  destruct (partition_ids _ _ _ Hbpart) as [Hbne Hblen].
  pose proof Hlpart as (_ & Hlperm & _). pose proof Hbpart as (_ & Hbperm & _).
  rewrite <- Hllen, <- Hblen. split.
  - apply (refines_count (length imgs)); assumption.
  - pose proof (length_concat_ge lids Hlne) as Hle.
    rewrite Hlperm, length_seq in Hle. exact Hle.
Qed.

Lemma LSH_finds_no_fewer_groups_witness :
  length [[0; 1; 3]; [2]] <= length [[0; 1; 3]; [2]]
  /\ length [[0; 1; 3]; [2]] <= length [0; 1; 2; 3].
Proof.
  apply (LSH_finds_no_fewer_groups sample_limit sample_limit (lsh_default mixed_hash)
           [0; 1; 2; 3] [[0; 1; 3]; [2]] [[0; 1; 3]; [2]]);
    vm_compute; reflexivity.
Defined.

(** ** The approximate clusterer works through its input once *)

Lemma snd_bind {Image A B : Type} (m : traced (Image := Image) A)
    (f : A -> traced (Image := Image) B) :
  snd (m ≫= f)
  = match snd m with
    | Ok a => snd (f a)
    | Raise e => Raise e
    end.
Proof.
  destruct m as [tr [a|e]]; cbn; [|reflexivity]. destruct (f a). reflexivity.
Qed.

Lemma LSH_loop_app {Image : Type} (self : LSHDeduplicator Image)
    (imgs more : list Image) (st : LSH_state Image) :
  snd (LSH_loop self (imgs ++ more) st)
  = match snd (LSH_loop self imgs st) with
    | Ok st1 => snd (LSH_loop self more st1)
    | Raise e => Raise e
    end.
Proof.
  revert st. induction imgs as [|img imgs IH]; intros st; [reflexivity|].
  cbn [app LSH_loop]. rewrite !snd_bind. cbn [emit snd].
  destruct (snd (LSH_bands self _ _ _ _ _)) as [[[unique tbl] heap]|e];
    [apply IH|reflexivity].
Qed.

Lemma same_group_perm (G ids : list (list nat)) (i j : nat) :
  Forall2 (fun g L => L ≡ₚ g /\ hd 0 L = hd 0 g) G ids ->
  same_group G i j <-> same_group ids i j.
Proof.
  intros HG. split; intros (L & HL & Hi & Hj).
  - apply list_elem_of_lookup in HL as (k & Hk).
    destruct (Forall2_lookup_l _ _ _ _ _ HG Hk) as (L' & HL' & HP & _).
    exists L'. split; [eapply list_elem_of_lookup_2; exact HL'|].
    rewrite HP. auto.
  - apply list_elem_of_lookup in HL as (k & Hk).
    destruct (Forall2_lookup_r _ _ _ _ _ HG Hk) as (g & Hg & HP & _).
    exists g. split; [eapply list_elem_of_lookup_2; exact Hg|].
    rewrite <- HP. auto.
Qed.

Lemma mapM_total {A B : Type} (f : A -> result B) (l : list A) :
  (forall x, x ∈ l -> exists y, f x = Ok y) -> exists ys, mapM f l = Ok ys.
Proof.
  induction l as [|x l IH]; intros H; [exists []; reflexivity|].
  destruct (H x) as [y Hy]; [left|].
  destruct IH as [ys Hys]; [intros x' Hx'; apply H; right; exact Hx'|].
  exists (y :: ys). apply mapM_Ok. constructor; [exact Hy|]. apply mapM_Ok, Hys.
Qed.

Section LSHEdges.
Context {Image : Type}.
Variable self : LSHDeduplicator Image.
Implicit Types heap : list (HashedImage Image).

Lemma LSH_scan_bucket_edges (m : nat) (l : list nat) (unique : bool) heap :
  sat (LSH_scan_bucket self m l unique heap) any_event
      (fun out => forall p c, edge heap p c -> edge out.2 p c)
      any_exn.
Proof.
  revert unique heap. induction l as [|pd l IH]; intros unique heap.
  - apply sat_ret. auto.
  - cbn [LSH_scan_bucket]. destruct unique; cbn [negb]; [|apply sat_ret; auto].
    destruct (m =? pd); [apply IH|].
    apply sat_try. intros a _. apply sat_try. intros b _.
    eapply sat_compare; [apply LSH_distance_unfold|exact I|intros; exact I|].
    intros _.
    destruct (below_threshold (scaled_distance (hash a) (hash b) (_d self)));
      [|apply IH].
    eapply sat_bind; [apply sat_emit with (Q := fun _ => True); exact I|].
    intros _ _. eapply sat_mono; [apply IH|auto| |auto].
    intros out H p c Hpc. apply H, edge_append, Hpc.
Qed.

Lemma LSH_bands_edges (m : nat) (gs : list (list nat)) (unique : bool)
    (tbl : gmap string (list nat)) heap :
  sat (LSH_bands self m gs unique tbl heap) any_event
      (fun out => forall p c, edge heap p c -> edge out.2 p c)
      any_exn.
Proof.
  revert unique tbl heap. induction gs as [|g gs IH]; intros unique tbl heap.
  - apply sat_ret. auto.
  - cbn [LSH_bands]. apply sat_try. intros a _. apply sat_try. intros g_x _.
    eapply sat_bind; [apply LSH_scan_bucket_edges|].
    intros [unique' heap'] H1. cbn [snd] in H1.
    eapply sat_mono; [apply IH|auto| |auto].
    intros out H p c Hpc. apply H, H1, Hpc.
Qed.

Lemma LSH_loop_edges (imgs : list Image) (st : LSH_state Image) :
  sat (LSH_loop self imgs st) any_event
      (fun st' => (forall p c, edge (lsh_heap st) p c -> edge (lsh_heap st') p c)
                  /\ exists later, lsh_result st' = lsh_result st ++ later)
      any_exn.
Proof.
  revert st. induction imgs as [|img imgs IH]; intros st.
  - apply sat_ret. split; [auto|]. exists []. rewrite app_nil_r. reflexivity.
  - cbn [LSH_loop].
    eapply sat_bind; [apply sat_emit with (Q := fun _ => True); exact I|].
    intros _ _. eapply sat_bind; [apply LSH_bands_edges|].
    intros [[unique tbl'] heap'] H1. cbn [snd] in H1.
    eapply sat_mono; [apply IH|auto| |auto].
    cbn [lsh_heap lsh_result]. intros st' [H2 [later Hlater]]. split.
    + intros p c Hpc. apply H2, H1, edge_alloc, Hpc.
    + rewrite Hlater. destruct unique; [|eauto].
      rewrite <- app_assoc. eauto.
Qed.

(** Flattening succeeds on a store as soon as it succeeds, under the same
    limit, on a store that lists at least the same duplicates. *)
Lemma _flatten_fewer_edges (R : nat -> nat -> Prop) heap heap' (G : list (list nat)) :
  grows R heap G ->
  (forall p c, edge heap p c -> edge heap' p c) ->
  forall (fuel img : nat) (group' : list Image),
    img < length heap ->
    _flatten fuel heap' img = Ok group' ->
    exists group, _flatten fuel heap img = Ok group.
Proof.
  intros Hg Hsub. induction fuel as [|fuel IH]; intros img group' Himg H;
    [discriminate|].
  cbn [_flatten] in *.
  destruct (lookup_lt_is_Some_2 heap img Himg) as [r Hr].
  rewrite (proj2 (deref_Ok heap img r) Hr). cbn.
  destruct (deref heap' img) as [r'|e] eqn:Hr'; [|discriminate]. cbn in H.
  apply deref_Ok in Hr'.
  destruct (mapM (_flatten fuel heap') (duplicates r')) as [cs'|e] eqn:Hcs';
    [|discriminate].
  apply mapM_Ok in Hcs'.
  destruct (mapM_total (_flatten fuel heap) (duplicates r)) as [cs Hcs].
  { intros c Hc.
    destruct (Hsub img c) as (r'' & Hr'' & Hc'); [exists r; auto|].
    assert (r'' = r') by congruence. subst r''.
    apply list_elem_of_lookup in Hc' as (k & Hk).
    destruct (Forall2_lookup_l _ _ _ _ _ Hcs' Hk) as (y & _ & Hy).
    apply (IH c y); [|exact Hy].
    destruct (grows_children _ _ _ _ _ _ Hg Hr Hc) as (g & Hgin & _ & Hcg & _).
    eapply grows_bound; [exact Hg|]. apply elem_of_concat. eauto. }
  rewrite Hcs. cbn. eauto.
Qed.
End LSHEdges.

(** X17: the approximate clusterer is incremental.  When it returns groups
    for an input extended by further images, it also returns groups for the
    input alone, and two images of the input share a group in the one result
    exactly when they do in the other: images appended to the input never
    regroup the earlier ones. *)
Theorem LSH_is_incremental {Image : Type} (limit : nat) (self : LSHDeduplicator Image)
    (imgs more : list Image) (groups' : list (list Image)) :
  snd (LSH_deduplicate limit self (imgs ++ more)) = Ok groups' ->
  exists groups ids ids',
    snd (LSH_deduplicate limit self imgs) = Ok groups
    /\ partition_of imgs ids groups
    /\ partition_of (imgs ++ more) ids' groups'
    /\ forall i j, i < length imgs -> j < length imgs ->
         (same_group ids i j <-> same_group ids' i j).
Proof.
  intros H. unfold LSH_deduplicate in H. rewrite snd_bind in H.
  destruct (snd (LSH_loop self (imgs ++ more) LSH_initial)) as [st'|e] eqn:Hfull;
    [|discriminate].
  cbn in H. pose proof Hfull as Hfull0. rewrite LSH_loop_app in Hfull.
  destruct (snd (LSH_loop self imgs LSH_initial)) as [st1|e] eqn:Hpre; [|discriminate].
  destruct (LSH_loop_ordered self imgs LSH_initial []) as [_ P1]; cbn; auto.
  { constructor. }
  { intros s. cbn. constructor. }
  { intros i j a b _ Hi. discriminate. }
  rewrite Hpre in P1. destruct P1 as (G1 & Hg1 & Htbl1 & Hperm1 & Hres1 & Hinc1 & _).
  destruct (LSH_loop_final self imgs) as [_ F1]. rewrite Hpre in F1.
  destruct F1 as (_ & _ & [Hlen1 Hdata1] & _).
  destruct (LSH_loop_ordered self more st1 G1 Hg1 Htbl1 Hperm1 Hres1 Hinc1) as [_ P2].
  rewrite Hfull in P2. destruct P2 as (G' & Hg' & _ & Hperm' & Hres' & _ & Hst).
  destruct (LSH_loop_final self (imgs ++ more)) as [_ F2]. rewrite Hfull0 in F2.
  destruct F2 as (_ & _ & [Hlen' Hdata'] & _).
  destruct (LSH_loop_edges self more st1) as [_ E]. rewrite Hfull in E.
  destruct E as [Hsub [later Hlater]].
  rewrite Hres' in H.
  destruct (flatten_all_returned _ limit _ G' (imgs ++ more) groups' Hg')
    as (ids' & HG' & Hrel'); [intros i r Hr; apply (proj1 (Hdata' i r Hr))|exact H|].
  destruct (mapM_total (_flatten limit (lsh_heap st1)) (map (hd 0) G1))
    as [groups Hf1].
  { intros x Hx.
    assert (Hx' : x ∈ map (hd 0) G').
    { rewrite <- Hres', Hlater, Hres1. apply elem_of_app. left. exact Hx. }
    apply list_elem_of_lookup in Hx' as (k & Hk).
    apply mapM_Ok in H.
    destruct (Forall2_lookup_l _ _ _ _ _ H Hk) as (y & _ & Hy).
    apply (_flatten_fewer_edges lt _ (lsh_heap st') G1 Hg1 Hsub limit x y);
      [|exact Hy].
    eapply grows_bound; [exact Hg1|].
    apply list_elem_of_fmap in Hx as (g & -> & Hgin).
    pose proof (grows_nonempty _ _ _ Hg1) as Hne. rewrite Forall_forall in Hne.
    specialize (Hne g Hgin). destruct g as [|x0 g]; [congruence|].
    apply elem_of_concat. exists (x0 :: g). split; [exact Hgin|left]. }
  change (mapM (_flatten limit (lsh_heap st1)) (map (hd 0) G1))
    with (flatten_all limit (lsh_heap st1) (map (hd 0) G1)) in Hf1.
  destruct (flatten_all_returned _ limit _ G1 imgs groups Hg1)
    as (ids & HG1 & Hrel1); [intros i r Hr; apply (proj1 (Hdata1 i r Hr))|exact Hf1|].
  exists groups, ids, ids'. split; [|split; [|split]].
  - unfold LSH_deduplicate. rewrite snd_bind, Hpre. cbn. rewrite Hres1. exact Hf1.
  - eapply groups_partition; [exact HG1|exact Hrel1| |].
    + eapply grows_nonempty; exact Hg1.
    + rewrite Hperm1, Hlen1. reflexivity.
  - eapply groups_partition; [exact HG'|exact Hrel'| |].
    + eapply grows_nonempty; exact Hg'.
    + rewrite Hperm', Hlen'. reflexivity.
  - intros i j Hi Hj.
    rewrite <- (same_group_perm G1 ids i j HG1), <- (same_group_perm G' ids' i j HG').
    apply Hst; rewrite Hlen1; assumption.
Qed.

Lemma LSH_is_incremental_witness :
  exists groups ids ids',
    snd (LSH_deduplicate sample_limit (lsh_default mixed_hash) [0; 1]) = Ok groups
    /\ partition_of [0; 1] ids groups
    /\ partition_of ([0; 1] ++ [2; 3]) ids' [[0; 1; 3]; [2]]
    /\ forall i j, i < length [0; 1] -> j < length [0; 1] ->
         (same_group ids i j <-> same_group ids' i j).
Proof.
  apply (LSH_is_incremental sample_limit (lsh_default mixed_hash) [0; 1] [2; 3]
           [[0; 1; 3]; [2]]).
  vm_compute. reflexivity.
Defined.

(** ** The number of comparisons of the exact clusterer *)

Lemma comparisons_app {Image : Type} (tr1 tr2 : list (event Image)) :
  comparisons (tr1 ++ tr2) = comparisons tr1 + comparisons tr2.
Proof.
  induction tr1 as [|[u v|heap] tr1 IH]; cbn; [reflexivity|rewrite IH..]; reflexivity.
Qed.

Section Counted.
Context {Image : Type}.

Lemma counted_bind {A B : Type} (m : traced (Image := Image) A)
    (f : A -> traced (Image := Image) B) (P1 : nat -> result A -> Prop)
    (P2 : nat -> result B -> Prop) :
  counted m P1 ->
  (forall c a, P1 c (Ok a) -> counted (f a) (fun c' r => P2 (c + c') r)) ->
  (forall c e, P1 c (Raise e) -> P2 c (Raise e)) ->
  counted (m ≫= f) P2.
Proof.
  unfold counted. destruct m as [tr [a|e]]; cbn; intros H1 Hok Hraise.
  - specialize (Hok _ a H1). destruct (f a) as [tr' r]. cbn in *.
    rewrite comparisons_app. exact Hok.
  - apply Hraise, H1.
Qed.

Lemma counted_lift_bind {A B : Type} (r : result A)
    (f : A -> traced (Image := Image) B) (P : nat -> result B -> Prop) :
  (forall a, r = Ok a -> counted (f a) P) ->
  (forall e, r = Raise e -> P 0 (Raise e)) ->
  counted (lift r ≫= f) P.
Proof.
  intros Hok Hraise. eapply counted_bind with (P1 := fun c r' => c = 0 /\ r' = r).
  - split; reflexivity.
  - intros c a [-> Hr]. apply Hok. congruence.
  - intros c e [-> Hr]. apply Hraise. congruence.
Qed.

Lemma counted_stored_bind {B : Type} (heap : list (HashedImage Image))
    (f : unit -> traced (Image := Image) B) (P : nat -> result B -> Prop) :
  counted (f tt) P -> counted (emit (Stored heap) ≫= f) P.
Proof.
  intros H. eapply counted_bind with (P1 := fun c r => c = 0 /\ r = Ok tt).
  - split; reflexivity.
  - intros c [] [-> _]. exact H.
  - intros c e [_ Hr]. discriminate.
Qed.

Lemma counted_compare_bind {B : Type} (m : traced (Image := Image) Float64.t)
    (u v : fingerprint) (r : result Float64.t)
    (f : Float64.t -> traced (Image := Image) B) (P : nat -> result B -> Prop) :
  m = ([Compared u v], r) ->
  (forall x, r = Ok x -> counted (f x) (fun c r' => P (S c) r')) ->
  (forall e, r = Raise e -> P 1 (Raise e)) ->
  counted (m ≫= f) P.
Proof.
  intros -> Hok Hraise.
  eapply counted_bind with (P1 := fun c r' => c = 1 /\ r' = r).
  - split; reflexivity.
  - intros c x [-> Hr]. apply Hok. congruence.
  - intros c e [-> Hr]. apply Hraise. congruence.
Qed.

Lemma counted_mono {A : Type} (m : traced (Image := Image) A)
    (P P' : nat -> result A -> Prop) :
  counted m P -> (forall c r, P c r -> P' c r) -> counted m P'.
Proof. unfold counted. auto. Qed.
End Counted.

(** *** Marks *)

Lemma pending_in_cons (i : nat) (range : list nat) (matched : list bool) :
  pending_in (i :: range) matched
  = (if nth i matched false then 0 else 1) + pending_in range matched.
Proof.
  unfold pending_in. rewrite filter_cons.
  destruct (nth i matched false) eqn:H.
  - destruct (decide (true = false)); [discriminate|reflexivity].
  - destruct (decide (false = false)); [reflexivity|congruence].
Qed.

Lemma nth_insert_eq (matched : list bool) (i : nat) :
  i < length matched -> nth i (<[i := true]> matched) false = true.
Proof.
  intros Hi. rewrite nth_lookup, list_lookup_insert_eq by exact Hi. reflexivity.
Qed.

Lemma pending_in_insert_out (range : list nat) (matched : list bool) (i : nat) :
  i ∉ range -> pending_in range (<[i := true]> matched) = pending_in range matched.
Proof.
  induction range as [|j range IH]; intros Hni; [reflexivity|].
  apply not_elem_of_cons in Hni as [Hne Hni].
  rewrite !pending_in_cons, IH by exact Hni.
  rewrite nth_insert_ne by congruence. reflexivity.
Qed.

Lemma pending_in_insert_in (range : list nat) (matched : list bool) (i : nat) :
  NoDup range -> i ∈ range -> i < length matched -> nth i matched false = false ->
  pending_in range (<[i := true]> matched) + 1 = pending_in range matched.
Proof.
  induction range as [|j range IH]; intros Hnd Hin Hi Hfalse; [inversion Hin|].
  apply NoDup_cons in Hnd as [Hj Hnd]. rewrite !pending_in_cons.
  destruct (decide (j = i)) as [->|Hne].
  - rewrite nth_insert_eq by exact Hi. rewrite Hfalse.
    rewrite pending_in_insert_out by exact Hj. lia.
  - apply elem_of_cons in Hin as [->|Hin]; [congruence|].
    rewrite nth_insert_ne by congruence.
    specialize (IH Hnd Hin Hi Hfalse). lia.
Qed.

Lemma pending_in_fresh (n : nat) :
  pending_in (seq 0 n) (replicate n false) = n.
Proof.
  unfold pending_in.
  assert (H : forall range : list nat,
             filter (fun i => nth i (replicate n false) false = false) range = range).
  { induction range as [|i range IH]; [reflexivity|].
    rewrite filter_cons_True, IH; [reflexivity|].
    rewrite nth_lookup. destruct (replicate n false !! i) as [b|] eqn:Hb; [|reflexivity].
    apply lookup_replicate in Hb as [-> _]. reflexivity. }
  rewrite H. apply length_seq.
Qed.

(** *** Arithmetic of the bound *)

Lemma tri_add (v a : nat) :
  (v + a) * (v + a - 1) = v * (v - 1) + 2 * a * v + a * (a - 1).
Proof.
  destruct v as [|v]; destruct a as [|a]; cbn [Nat.sub Nat.add];
    rewrite ?Nat.sub_0_r, ?Nat.add_0_r; lia.
Qed.

Lemma drain_step_bound (c1 c2 q a v w : nat) :
  c1 <= v + a ->
  2 * c2 + w * (w - 1) <= 2 * (q + a) * v + v * (v - 1) ->
  2 * (c1 + c2) + w * (w - 1) <= 2 * S q * (v + a) + (v + a) * (v + a - 1).
Proof.
  intros H1 H2. rewrite tri_add.
  generalize dependent (w * (w - 1)). generalize (v * (v - 1)). generalize (a * (a - 1)).
  intros Ta Tv Tw H2. nia.
Qed.

Lemma drain_step_bound_raise (c1 c2 q a v : nat) :
  c1 <= v + a ->
  2 * c2 <= 2 * (q + a) * v + v * (v - 1) ->
  2 * (c1 + c2) <= 2 * S q * (v + a) + (v + a) * (v + a - 1).
Proof.
  intros H1 H2. rewrite tri_add.
  generalize dependent (v * (v - 1)). generalize (a * (a - 1)).
  intros Ta Tv H2. nia.
Qed.

Lemma scan_raise_bound (c q u : nat) :
  c <= u -> 2 * c <= 2 * S q * u + u * (u - 1).
Proof. intros H. nia. Qed.

Lemma loop_step_bound (c1 c2 u1 v : nat) :
  2 * c1 + v * (v - 1) <= 2 * 1 * u1 + u1 * (u1 - 1) ->
  2 * c2 <= v * (v - 1) ->
  2 * (c1 + c2) <= (u1 + 1) * (u1 + 1 - 1).
Proof.
  intros H1 H2. replace (u1 + 1 - 1) with u1 by lia.
  assert (Hu : u1 * (u1 - 1) + u1 = u1 * u1) by (destruct u1; nia).
  generalize dependent (v * (v - 1)). intros Tv H1 H2.
  generalize dependent (u1 * (u1 - 1)). intros Tu H1 Hu. nia.
Qed.

Lemma loop_raise_bound (c u1 : nat) :
  2 * c <= 2 * 1 * u1 + u1 * (u1 - 1) -> 2 * c <= (u1 + 1) * (u1 + 1 - 1).
Proof.
  intros H. replace (u1 + 1 - 1) with u1 by lia.
  assert (Hu : u1 * (u1 - 1) + u1 = u1 * u1) by (destruct u1; nia).
  generalize dependent (u1 * (u1 - 1)). intros Tu H Hu. nia.
Qed.

(** *** One scan *)

Section BFCost.
Context {Image : Type}.
Implicit Types heap : list (HashedImage Image).

Lemma BF_scan_count (n img : nat) (range : list nat) heap (matched : list bool)
    (queue : list nat) :
  length matched = n -> NoDup range -> (forall i, i ∈ range -> i < n) ->
  counted (BF_scan img range heap matched queue)
    (fun c r =>
       c <= pending_in range matched
       /\ match r with
          | Ok (heap', matched', queue') =>
              length heap' = length heap /\ length matched' = n
              /\ exists new,
                   queue' = queue ++ new
                   /\ forall R, NoDup R -> (forall i, i ∈ range -> i ∈ R) ->
                        pending_in R matched' + length new = pending_in R matched
          | Raise _ => True
          end).
Proof.
  revert heap matched queue.
  induction range as [|i range IH]; intros heap matched queue Hlen Hnd Hlt.
  - unfold counted. cbn. split; [lia|]. split; [reflexivity|]. split; [exact Hlen|].
    exists []. rewrite app_nil_r. split; [reflexivity|]. intros; cbn; lia.
  - apply NoDup_cons in Hnd as [Hi Hnd]. cbn [BF_scan].
    assert (Hlt' : forall j, j ∈ range -> j < n) by (intros j Hj; apply Hlt; right; exact Hj).
    rewrite pending_in_cons.
    destruct ((img =? i) || nth i matched false) eqn:Hskip.
    + eapply counted_mono; [apply (IH heap matched queue Hlen Hnd Hlt')|].
      intros c r [Hc Hr]. split; [lia|].
      destruct r as [[[heap' matched'] queue']|e]; [|exact I].
      destruct Hr as (H1 & H2 & new & H3 & H4).
      split; [exact H1|]. split; [exact H2|]. exists new. split; [exact H3|].
      intros R HR Hsub. apply H4; [exact HR|]. intros j Hj. apply Hsub. right. exact Hj.
    + apply orb_false_iff in Hskip as [_ Hfalse]. rewrite Hfalse.
      apply counted_lift_bind; [|intros; split; [lia|exact I]]. intros a _.
      apply counted_lift_bind; [|intros; split; [lia|exact I]]. intros b _.
      eapply counted_compare_bind; [apply BF_distance_unfold| |intros; split; [lia|exact I]].
      intros x _. destruct (below_threshold x).
      * apply counted_stored_bind.
        eapply counted_mono;
          [apply (IH (append_duplicate heap img i) (<[i := true]> matched) (queue ++ [i]));
           [rewrite length_insert; exact Hlen|exact Hnd|exact Hlt']|].
        intros c r [Hc Hr]. rewrite pending_in_insert_out in Hc by exact Hi.
        split; [lia|].
        destruct r as [[[heap' matched'] queue']|e]; [|exact I].
        destruct Hr as (H1 & H2 & new & H3 & H4).
        split; [rewrite H1; apply append_duplicate_length|]. split; [exact H2|].
        exists (i :: new). split; [rewrite H3, <- app_assoc; reflexivity|].
        intros R HR Hsub.
        assert (HiR : i ∈ R) by (apply Hsub; left).
        assert (Hin : i < length matched) by (rewrite Hlen; apply Hlt; left).
        pose proof (pending_in_insert_in R matched i HR HiR Hin Hfalse) as Hstep.
        assert (Hsub' : forall j, j ∈ range -> j ∈ R)
          by (intros j Hj; apply Hsub; right; exact Hj).
        specialize (H4 R HR Hsub').
        cbn [length]. lia.
      * eapply counted_mono; [apply (IH heap matched queue Hlen Hnd Hlt')|].
        intros c r [Hc Hr]. split; [lia|].
        destruct r as [[[heap' matched'] queue']|e]; [|exact I].
        destruct Hr as (H1 & H2 & new & H3 & H4).
        split; [exact H1|]. split; [exact H2|]. exists new. split; [exact H3|].
        intros R HR Hsub. apply H4; [exact HR|]. intros j Hj. apply Hsub. right. exact Hj.
Qed.

(** *** The queue and the outer loop *)

Lemma BF_drain_count (n fuel : nat) heap (matched : list bool) (queue : list nat) :
  length matched = n -> length heap = n ->
  counted (BF_drain fuel heap matched queue)
    (fun c r =>
       let u := pending_in (seq 0 n) matched in
       match r with
       | Ok (heap', matched', queue') =>
           length matched' = n /\ length heap' = n /\ queue' = []
           /\ 2 * c + pending_in (seq 0 n) matched' * (pending_in (seq 0 n) matched' - 1)
              <= 2 * length queue * u + u * (u - 1)
       | Raise _ => 2 * c <= 2 * length queue * u + u * (u - 1)
       end).
Proof.
  revert heap matched queue.
  induction fuel as [|fuel IH]; intros heap matched [|img queue] Hlen Hheap;
    cbn [BF_drain]; try (unfold counted; cbn; auto with lia).
  rewrite Hheap.
  eapply counted_bind;
    [apply (BF_scan_count n img (seq 0 n) heap matched queue Hlen);
     [apply NoDup_ListNoDup, seq_NoDup
     |intros i Hi; apply list_elem_of_In, in_seq in Hi; lia]| |].
  - intros c1 [[heap' matched'] queue'] (Hc1 & H1 & H2 & new & -> & H4).
    specialize (H4 (seq 0 n) (proj2 (NoDup_ListNoDup _) (seq_NoDup n 0)) (fun i Hi => Hi)).
    eapply counted_mono; [apply (IH heap' matched' (queue ++ new) H2); congruence|].
    intros c2 r Hr. cbn zeta in Hr. rewrite length_app in Hr. cbn [length].
    assert (Hu : pending_in (seq 0 n) matched
                 = pending_in (seq 0 n) matched' + length new) by lia.
    rewrite Hu. rewrite Hu in Hc1.
    destruct r as [[[heap'' matched''] queue'']|e].
    + destruct Hr as (K1 & K2 & K3 & K4).
      split; [exact K1|]. split; [exact K2|]. split; [exact K3|].
      apply drain_step_bound; assumption.
    + apply drain_step_bound_raise; assumption.
  - intros c e [Hc _]. cbn [length]. apply scan_raise_bound, Hc.
Qed.

Lemma BF_loop_count (n fuel : nat) heap (matched : list bool) (result : list nat) :
  length matched = n -> length heap = n ->
  counted (BF_loop fuel heap matched [] result)
    (fun c _ =>
       2 * c <= pending_in (seq 0 n) matched * (pending_in (seq 0 n) matched - 1)).
Proof.
  revert heap matched result.
  induction fuel as [|fuel IH]; intros heap matched result Hlen Hheap; cbn [BF_loop];
    destruct (forallb (fun b : bool => b) matched) eqn:Hall;
    try (unfold counted; cbn; lia).
  destruct (unmatched_indices matched) as [|sp rest] eqn:Hu;
    [unfold counted; cbn; lia|].
  destruct (unmatched_head _ _ _ Hu) as [Hsp Hfalse].
  assert (Hstep : pending_in (seq 0 n) (<[sp := true]> matched) + 1
                  = pending_in (seq 0 n) matched).
  { apply pending_in_insert_in; auto.
    - apply NoDup_ListNoDup, seq_NoDup.
    - apply list_elem_of_In, in_seq. lia. }
  rewrite Hheap. cbn [app].
  eapply counted_bind;
    [apply (BF_drain_count n n heap (<[sp := true]> matched) [sp]);
     [rewrite length_insert; exact Hlen|exact Hheap]| |].
  - intros c1 [[heap' matched'] queue'] (K1 & K2 & -> & K4).
    eapply counted_mono; [apply (IH heap' matched' (result ++ [sp]) K1 K2)|].
    intros c2 r Hr. cbn [length] in K4. rewrite <- Hstep.
    eapply loop_step_bound; eassumption.
  - intros c e Hc. cbn [length] in Hc. rewrite <- Hstep.
    apply loop_raise_bound, Hc.
Qed.
End BFCost.

(** X18: on [n] images the exact clusterer calls [hamming] at most
    [n (n - 1) / 2] times, whether the run returns groups or raises. *)
Theorem BF_comparisons_bound {Image : Type} (limit : nat) (self : Deduplicator Image)
    (imgs : list Image) :
  2 * comparisons (fst (BF_deduplicate limit self imgs))
  <= length imgs * (length imgs - 1).
Proof.
  set (n := length imgs).
  assert (H : counted (BF_deduplicate limit self imgs)
                      (fun c _ => 2 * c <= n * (n - 1)));
    [|exact H].
  unfold BF_deduplicate. apply counted_stored_bind.
  eapply counted_bind;
    [apply (BF_loop_count n n _ (replicate n false) []);
     [apply length_replicate|apply length_map]| |].
  - intros c [heap result] Hc. rewrite pending_in_fresh in Hc.
    unfold counted. cbn. lia.
  - intros c e Hc. rewrite pending_in_fresh in Hc. exact Hc.
Qed.
